(** * SegmentTree.hh: a shallow embedding and its properties

    The class template [SegmentTree<BaseT, QueryT, LazyPropogation>] keeps a
    heap-indexed vector [data] of optional query values and, when lazy
    propagation is on, a vector [lazyTasks] of per-node task queues.  The
    member functions are embedded as computations in a state-and-fault monad
    over the three data members; every [operator[]] checks its index, every
    [.value()] checks that the optional is engaged, and [std::size_t]
    arithmetic wraps at 2^64.

    Contents:
    - the embedding of the class (section [SegmentTree]);
    - footprints: a query or an update at node [v] touches positions below
      [v] only, and a query repeated straight away finds nothing to do;
    - the build: for 1 <= N < 2^61 the constructors complete with the build
      postcondition, and on the tree just built [query(l, r)] is the
      left-to-right combine of the elements at [l .. r];
    - lazy propagation: what every position holds once the pending tasks
      have reached it, what queries and updates do to it, and the frame
      property of updates for as long as nothing faults;
    - the recursion depth of the public member functions is enough;
    - no operation resizes a vector or loses a value; without lazy
      propagation no update runs; the push-down as a whole;
    - the sizes on which the push-down stays inside the vectors (powers of
      two among them): there nothing faults, and single positions are
      answered correctly after any sequence of updates;
    - scenarios in which the code departs from its specification: parents
      recombined from children whose queued task was not applied, tasks
      forwarded from leaves (past the end of [lazyTasks] for N = 6), the
      dispatch of [_update_rebuild_tree], and N = 0. *)

From Stdlib Require Import ZArith Lia List Bool.
From stdpp Require Import base list.
Import ListNotations.

Local Open Scope Z_scope.

(** ** std::size_t *)

Definition size_t_max : Z := 2 ^ 64 - 1.

(** Unsigned 64-bit wrap-around. *)
Definition wrap (x : Z) : Z := x mod 2 ^ 64.

(** ** Faults

    What the C++ program leaves undefined, aborts on or refuses to compile is
    a fault of the embedded computation. *)

Inductive vector_name := vec_data | vec_lazyTasks | vec_input_data.

Inductive fault :=
| OutOfBounds (v : vector_name) (index : Z) (length : Z)
    (* operator[] past the end of a std::vector *)
| BadOptionalAccess (node : Z)
    (* .value() on a disengaged std::optional *)
| AssertionFailed
    (* assert(...) *)
| InvalidUpdaterType
    (* static_assert(false, "Invalid updater type") *)
| IllFormedCall
    (* the updater is called with an argument list it does not accept *)
| IteratorInvalidated (node : Z)
    (* emplace_back on the vector a range-for is iterating over *)
| OutOfFuel.

(** ** The C++ types that [std::is_same_v] compares in [_update_rebuild_tree] *)

Inductive cpp_type :=
| UpdaterT                         (* QueryT(QueryT, std::size_t) *)
| RangeUpdaterT                    (* QueryT(QueryT, std::size_t, std::size_t) *)
| callable_object                  (* a closure type or a std::function *)
| lvalue_reference (t : cpp_type). (* T& *)

Fixpoint is_same_v (a b : cpp_type) : bool :=
  match a, b with
  | UpdaterT, UpdaterT => true
  | RangeUpdaterT, RangeUpdaterT => true
  | callable_object, callable_object => true
  | lvalue_reference a', lvalue_reference b' => is_same_v a' b'
  | _, _ => false
  end.

Definition remove_reference (t : cpp_type) : cpp_type :=
  match t with
  | lvalue_reference t' => t'
  | _ => t
  end.

(** Template argument deduction for a forwarding reference [Updater&&] whose
    argument is the id-expression [updater], an lvalue: [Updater] is [T&]. *)
Definition deduce_from_lvalue (declared : cpp_type) : cpp_type :=
  lvalue_reference (remove_reference declared).

Section SegmentTree.

Variables BaseT QueryT : Type.
Variable QueryT_of : BaseT -> QueryT.             (* QueryT(BaseT) *)
Variable plus : QueryT -> QueryT -> QueryT.       (* operator+ on QueryT *)
Variable BaseT_default : BaseT.                   (* BaseT{} *)
Variable LazyPropogation : bool.                  (* the template parameter *)

(** The two call shapes of an updater. *)
Inductive callable :=
| point_style (f : QueryT -> Z -> QueryT)
| range_style (f : QueryT -> Z -> Z -> QueryT).

(** An updater argument: its static type and what calling it does. *)
Record updater := mkUpdater {
  updater_type : cpp_type;
  updater_call : callable
}.

(** std::variant<std::monostate, std::function<UpdaterT>,
                 std::function<RangeUpdaterT>> *)
Inductive task :=
| monostate
| function_UpdaterT (f : QueryT -> Z -> QueryT)
| function_RangeUpdaterT (f : QueryT -> Z -> Z -> QueryT).

(** The variant's converting constructor, as used by [emplace_back(updater)]. *)
Definition task_of (u : updater) : task :=
  match updater_call u with
  | point_style f => function_UpdaterT f
  | range_style f => function_RangeUpdaterT f
  end.

(** The data members. *)
Record SegmentTree := mkSegmentTree {
  size : Z;
  data : list (option QueryT);
  lazyTasks : list (list task)
}.

(** ** The monad *)

Inductive outcome (A : Type) :=
| Done (a : A) (s : SegmentTree)
| Fault (e : fault).
Arguments Done {A} a s.
Arguments Fault {A} e.

Definition M (A : Type) : Type := SegmentTree -> outcome A.

Definition ret {A} (a : A) : M A := fun s => Done a s.

Definition bind {A B} (m : M A) (k : A -> M B) : M B :=
  fun s => match m s with
           | Done a s' => k a s'
           | Fault e => Fault e
           end.

Definition fail {A} (e : fault) : M A := fun _ => Fault e.

Declare Scope segtree_scope.
Delimit Scope segtree_scope with segtree.
Bind Scope segtree_scope with M.
Notation "x <- m ;; k" := (bind m (fun x => k))
  (at level 100, m at next level, k at level 200, right associativity)
  : segtree_scope.
Notation "m ;; k" := (bind m (fun _ => k))
  (at level 100, k at level 200, right associativity) : segtree_scope.
Local Open Scope segtree_scope.

Definition assert (b : bool) : M unit :=
  if b then ret tt else fail AssertionFailed.

(** ** Vector and optional accesses *)

Definition len {A} (l : list A) : Z := Z.of_nat (length l).

(** [data[i]] as an rvalue. *)
Definition data_at (i : Z) : M (option QueryT) :=
  fun s => match data s !! Z.to_nat i with
           | Some d => Done d s
           | None => Fault (OutOfBounds vec_data i (len (data s)))
           end.

(** [data[i] = q]. *)
Definition data_assign (i : Z) (q : QueryT) : M unit :=
  fun s => match data s !! Z.to_nat i with
           | Some _ =>
               Done tt (mkSegmentTree (size s)
                          (<[Z.to_nat i := Some q]> (data s)) (lazyTasks s))
           | None => Fault (OutOfBounds vec_data i (len (data s)))
           end.

(** [o.value()], where [o] was read from [data[node]]. *)
Definition value (node : Z) (o : option QueryT) : M QueryT :=
  match o with
  | Some q => ret q
  | None => fail (BadOptionalAccess node)
  end.

(** [lazyTasks[i]] as an rvalue. *)
Definition lazyTasks_at (i : Z) : M (list task) :=
  fun s => match lazyTasks s !! Z.to_nat i with
           | Some q => Done q s
           | None => Fault (OutOfBounds vec_lazyTasks i (len (lazyTasks s)))
           end.

(** [lazyTasks[i].emplace_back(t)]. *)
Definition lazyTasks_emplace_back (i : Z) (t : task) : M unit :=
  fun s => match lazyTasks s !! Z.to_nat i with
           | Some q =>
               Done tt (mkSegmentTree (size s) (data s)
                          (<[Z.to_nat i := q ++ [t]]> (lazyTasks s)))
           | None => Fault (OutOfBounds vec_lazyTasks i (len (lazyTasks s)))
           end.

(** [lazyTasks[i].clear()]. *)
Definition lazyTasks_clear (i : Z) : M unit :=
  fun s => match lazyTasks s !! Z.to_nat i with
           | Some _ =>
               Done tt (mkSegmentTree (size s) (data s)
                          (<[Z.to_nat i := []]> (lazyTasks s)))
           | None => Fault (OutOfBounds vec_lazyTasks i (len (lazyTasks s)))
           end.

(** [input_data[i]]. *)
Definition input_at (input_data : list BaseT) (i : Z) : M BaseT :=
  match input_data !! Z.to_nat i with
  | Some b => ret b
  | None => fail (OutOfBounds vec_input_data i (len input_data))
  end.

(** ** Private member functions *)

Definition _get_segtree_size (sz : Z) : Z := wrap (4 * sz + 1).

Definition _merge_childs (node : Z) : M unit :=
  data_size <- (fun s => Done (len (data s)) s) ;;
  assert (wrap (2 * node + 1) <? data_size) ;;
  l <- data_at (wrap (2 * node)) ;;
  lv <- value (wrap (2 * node)) l ;;
  r <- data_at (wrap (2 * node + 1)) ;;
  rv <- value (wrap (2 * node + 1)) r ;;
  data_assign node (plus lv rv).

Fixpoint _build_tree (fuel : nat) (node tree_left tree_right : Z)
    (input_data : list BaseT) : M unit :=
  match fuel with
  | O => fail OutOfFuel
  | S fuel' =>
      if negb (tree_left =? tree_right) then
        let mid := Z.shiftr (wrap (tree_left + tree_right)) 1 in
        _build_tree fuel' (wrap (2 * node)) tree_left mid input_data ;;
        _build_tree fuel' (wrap (2 * node + 1)) (wrap (mid + 1)) tree_right
          input_data ;;
        _merge_childs node
      else
        b <- input_at input_data tree_left ;;
        data_assign node (QueryT_of b)
  end.

(** Calls of an updater.  Line 56 and line 58 pass [data[node]], an optional,
    where the updater expects a [QueryT]; the conversion is taken to be
    [.value()]. *)
Definition call_2 (u : updater) (q : QueryT) (a : Z) : M QueryT :=
  match updater_call u with
  | point_style f => ret (f q a)
  | range_style _ => fail IllFormedCall
  end.

Definition call_3 (u : updater) (q : QueryT) (a b : Z) : M QueryT :=
  match updater_call u with
  | point_style _ => fail IllFormedCall
  | range_style f => ret (f q a b)
  end.

(** [Updater] is the template argument deduced for [updater]. *)
Fixpoint _update_rebuild_tree (fuel : nat) (Updater : cpp_type)
    (u : updater) (node tree_left tree_right : Z) : M unit :=
  match fuel with
  | O => fail OutOfFuel
  | S fuel' =>
      (if is_same_v UpdaterT Updater then
         d <- data_at node ;;
         q <- value node d ;;
         q' <- call_2 u q tree_left ;;
         data_assign node q'
       else if is_same_v RangeUpdaterT UpdaterT then
         d <- data_at node ;;
         q <- value node d ;;
         q' <- call_3 u q tree_left tree_right ;;
         data_assign node q'
       else
         fail InvalidUpdaterType) ;;
      if negb (tree_left =? tree_right) then
        let mid := Z.shiftr (wrap (tree_left + tree_right)) 1 in
        _update_rebuild_tree fuel' (deduce_from_lvalue Updater) u
          (wrap (2 * node)) tree_left mid ;;
        _update_rebuild_tree fuel' (deduce_from_lvalue Updater) u
          (wrap (2 * node + 1)) (wrap (mid + 1)) tree_right ;;
        _merge_childs node
      else ret tt
  end.

(** [lazyTasks[child].emplace_back(task)] inside the range-for over
    [lazyTasks[node]]. *)
Definition forward_task (node child : Z) (t : task) : M unit :=
  if child =? node then fail (IteratorInvalidated node)
  else lazyTasks_emplace_back child t.

(** One iteration of the range-for of [_execute_lazy_tasks_and_pushdown]. *)
Definition execute_task (node tree_left tree_right : Z) (t : task) : M unit :=
  match t with
  | function_UpdaterT f =>
      d <- data_at node ;;
      q <- value node d ;;
      data_assign node (f q tree_left) ;;
      forward_task node (wrap (2 * node)) t ;;
      forward_task node (wrap (2 * node + 1)) t
  | function_RangeUpdaterT f =>
      d <- data_at node ;;
      q <- value node d ;;
      data_assign node (f q tree_left tree_right) ;;
      forward_task node (wrap (2 * node)) t ;;
      forward_task node (wrap (2 * node + 1)) t
  | monostate => ret tt
  end.

Fixpoint execute_tasks (node tree_left tree_right : Z) (ts : list task)
    : M unit :=
  match ts with
  | [] => ret tt
  | t :: ts' =>
      execute_task node tree_left tree_right t ;;
      execute_tasks node tree_left tree_right ts'
  end.

Definition _execute_lazy_tasks_and_pushdown (node tree_left tree_right : Z)
    : M unit :=
  ts <- lazyTasks_at node ;;
  execute_tasks node tree_left tree_right ts ;;
  lazyTasks_clear node.

Fixpoint _query_tree (fuel : nat)
    (node tree_left tree_right query_left query_right : Z)
    : M (option QueryT) :=
  match fuel with
  | O => fail OutOfFuel
  | S fuel' =>
      (if LazyPropogation
       then _execute_lazy_tasks_and_pushdown node tree_left tree_right
       else ret tt) ;;
      if (tree_left >? query_right) || (tree_right <? query_left) then
        ret None
      else if (query_left <=? tree_left) && (tree_right <=? query_right) then
        data_at node
      else
        let mid := Z.shiftr (wrap (tree_left + tree_right)) 1 in
        left_query <- _query_tree fuel' (wrap (2 * node)) tree_left mid
                        query_left query_right ;;
        right_query <- _query_tree fuel' (wrap (2 * node + 1)) (wrap (mid + 1))
                         tree_right query_left query_right ;;
        match left_query, right_query with
        | Some a, Some b => ret (Some (plus a b))
        | Some a, None => ret left_query
        | None, _ => ret right_query
        end
  end.

Fixpoint _update_tree (fuel : nat) (Updater : cpp_type) (u : updater)
    (node tree_left tree_right update_left update_right : Z) : M unit :=
  match fuel with
  | O => fail OutOfFuel
  | S fuel' =>
      (if LazyPropogation
       then _execute_lazy_tasks_and_pushdown node tree_left tree_right
       else ret tt) ;;
      if (tree_left >? update_right) || (tree_right <? update_left) then
        ret tt
      else if (update_left <=? tree_left) && (tree_right <=? update_right) then
        if LazyPropogation
        then lazyTasks_emplace_back node (task_of u)
        else _update_rebuild_tree (S fuel') (deduce_from_lvalue Updater) u
               node tree_left tree_right
      else
        let mid := Z.shiftr (wrap (tree_left + tree_right)) 1 in
        _update_tree fuel' (deduce_from_lvalue Updater) u (wrap (2 * node))
          tree_left mid update_left update_right ;;
        _update_tree fuel' (deduce_from_lvalue Updater) u (wrap (2 * node + 1))
          (wrap (mid + 1)) tree_right update_left update_right ;;
        _merge_childs node
  end.

(** ** Public member functions *)

(** Every recursion halves a range of at most 2^64 positions: 64 levels and
    the root. *)
Definition recursion_depth : nat := 65.

(** The mem-initialiser and the body shared by the three constructors:
    [size(sz)], [data.resize], [lazyTasks.resize], [_build_tree]. *)
Definition construct (sz : Z) (input_data : list BaseT) : outcome unit :=
  _build_tree recursion_depth 1 0 (wrap (sz - 1)) input_data
    (mkSegmentTree sz
       (replicate (Z.to_nat (_get_segtree_size sz)) None)
       (if LazyPropogation
        then replicate (Z.to_nat (_get_segtree_size sz)) []
        else [])).

(** [SegmentTree(std::size_t size)] *)
Definition SegmentTree_size (sz : Z) : outcome unit :=
  construct sz (replicate (Z.to_nat sz) BaseT_default).

(** [SegmentTree(std::size_t size, BaseT default_value)] *)
Definition SegmentTree_size_value (sz : Z) (default_value : BaseT)
    : outcome unit :=
  construct sz (replicate (Z.to_nat sz) default_value).

(** [SegmentTree(const std::vector<BaseT>& input_data)] *)
Definition SegmentTree_vector (input_data : list BaseT) : outcome unit :=
  construct (len input_data) input_data.

Definition get_size : M Z := fun s => Done (size s) s.

(** [query(std::size_t position)] *)
Definition query (position : Z) : M (option QueryT) :=
  sz <- get_size ;;
  assert ((0 <=? position) && (position <? sz)) ;;
  _query_tree recursion_depth 1 0 (wrap (sz - 1)) position position.

(** [query(std::size_t left, std::size_t right)] *)
Definition query_range (left right : Z) : M (option QueryT) :=
  sz <- get_size ;;
  assert ((0 <=? left) && (left <=? right) && (right <? sz)) ;;
  _query_tree recursion_depth 1 0 (wrap (sz - 1)) left right.

(** [update(UpdaterT&& updater, std::size_t position)] *)
Definition update (u : updater) (position : Z) : M unit :=
  sz <- get_size ;;
  assert ((0 <=? position) && (position <? sz)) ;;
  _update_tree recursion_depth (deduce_from_lvalue (updater_type u)) u
    1 0 (wrap (sz - 1)) position position.

(** [update(RangeUpdaterT&& updater, std::size_t left, std::size_t right)] *)
Definition update_range (u : updater) (left right : Z) : M unit :=
  sz <- get_size ;;
  assert ((0 <=? left) && (left <=? right) && (right <? sz)) ;;
  _update_tree recursion_depth (deduce_from_lvalue (updater_type u)) u
    1 0 (wrap (sz - 1)) left right.

End SegmentTree.

Arguments Done {QueryT A} a s.
Arguments Fault {QueryT A} e.
Arguments point_style {QueryT} f.
Arguments range_style {QueryT} f.
Arguments mkUpdater {QueryT} updater_type updater_call.
Arguments updater_type {QueryT} u.
Arguments updater_call {QueryT} u.
Arguments monostate {QueryT}.
Arguments function_UpdaterT {QueryT} f.
Arguments function_RangeUpdaterT {QueryT} f.
Arguments mkSegmentTree {QueryT} size data lazyTasks.
Arguments size {QueryT} s.
Arguments data {QueryT} s.
Arguments lazyTasks {QueryT} s.
Arguments query {QueryT} plus LazyPropogation position.
Arguments query_range {QueryT} plus LazyPropogation left right.
Arguments update {QueryT} plus LazyPropogation u position.
Arguments update_range {QueryT} plus LazyPropogation u left right.
Arguments SegmentTree_vector {BaseT QueryT} QueryT_of plus LazyPropogation input_data.
Arguments SegmentTree_size {BaseT QueryT} QueryT_of plus BaseT_default LazyPropogation sz.
Arguments SegmentTree_size_value {BaseT QueryT} QueryT_of plus LazyPropogation sz default_value.
Arguments M QueryT A : clear implicits.
Arguments outcome QueryT A : clear implicits.
Arguments ret {QueryT A} a _.
Arguments bind {QueryT A B} m k _.
Arguments fail {QueryT A} e _.
Arguments assert {QueryT} b _.
Arguments get_size {QueryT} _.
Arguments data_at {QueryT} i _.
Arguments data_assign {QueryT} i q _.
Arguments value {QueryT} node o _.
Arguments lazyTasks_at {QueryT} i _.
Arguments lazyTasks_emplace_back {QueryT} i t _.
Arguments lazyTasks_clear {QueryT} i _.
Arguments input_at {BaseT QueryT} input_data i _.
Arguments _merge_childs {QueryT} plus node _.
Arguments _build_tree {BaseT QueryT} QueryT_of plus fuel node tree_left
  tree_right input_data _.
Arguments _update_rebuild_tree {QueryT} plus fuel Updater u node tree_left
  tree_right _.
Arguments forward_task {QueryT} node child t _.
Arguments execute_task {QueryT} node tree_left tree_right t _.
Arguments execute_tasks {QueryT} node tree_left tree_right ts _.
Arguments _execute_lazy_tasks_and_pushdown {QueryT} node tree_left tree_right _.
Arguments _query_tree {QueryT} plus LazyPropogation fuel node tree_left
  tree_right query_left query_right _.
Arguments _update_tree {QueryT} plus LazyPropogation fuel Updater u node
  tree_left tree_right update_left update_right _.
Arguments construct {BaseT QueryT} QueryT_of plus LazyPropogation sz input_data.
Arguments task_of {QueryT} u.
Arguments call_2 {QueryT} u q a _.
Arguments call_3 {QueryT} u q a b _.

(** ** Positions below a node

    In the heap layout the positions below node [v] after [k] halvings are
    [v * 2^k .. (v + 1) * 2^k - 1]. *)

Definition desc (v x : Z) : Prop :=
  exists k : nat, v * 2 ^ Z.of_nat k <= x < (v + 1) * 2 ^ Z.of_nat k.

Definition node_and_children (v : Z) (x : Z) : Prop :=
  x = v \/ x = wrap (2 * v) \/ x = wrap (2 * v + 1).

(** [s'] differs from [s] at most at the positions in [P]. *)
Record modifies {QueryT : Type} (P : Z -> Prop) (s s' : SegmentTree QueryT)
    : Prop := {
  mod_size : size s' = size s;
  mod_data_len : length (data s') = length (data s);
  mod_lazy_len : length (lazyTasks s') = length (lazyTasks s);
  mod_data : forall i : nat, ~ P (Z.of_nat i) -> data s' !! i = data s !! i;
  mod_lazy : forall i : nat,
      ~ P (Z.of_nat i) -> lazyTasks s' !! i = lazyTasks s !! i
}.

(** [t] carries, at every position below [v], what [s] carries there. *)
Definition agree_below {QueryT : Type} (v : Z) (s t : SegmentTree QueryT)
    : Prop :=
  forall i : nat, desc v (Z.of_nat i) ->
    data t !! i = data s !! i /\ lazyTasks t !! i = lazyTasks s !! i.

(** ** Running member functions one after the other *)

Definition and_then {QueryT A B} (o : outcome QueryT A) (m : M QueryT B)
    : outcome QueryT B :=
  match o with
  | Done _ s => m s
  | Fault e => Fault e
  end.

Definition result {QueryT A} (o : outcome QueryT A) : fault + A :=
  match o with
  | Done a _ => inr a
  | Fault e => inl e
  end.

(** [query(i)] for every [i] of [positions], in that order. *)
Fixpoint query_each {QueryT} (plus : QueryT -> QueryT -> QueryT)
    (LazyPropogation : bool) (positions : list Z)
    : M QueryT (list (option QueryT)) :=
  match positions with
  | [] => ret []
  | i :: rest =>
      bind (query plus LazyPropogation i) (fun r =>
      bind (query_each plus LazyPropogation rest) (fun rs =>
      ret (r :: rs)))
  end.

(** The left-to-right combine of a list of results. *)
Definition combine_results {QueryT} (plus : QueryT -> QueryT -> QueryT)
    (rs : list (option QueryT)) : option QueryT :=
  fold_left (fun acc r =>
               match acc, r with
               | Some a, Some b => Some (plus a b)
               | Some a, None => acc
               | None, _ => r
               end) rs None.

(** ** The update without lazy propagation, as the specification words it

    Follows the spec's words (section 4.3, step 3, "Without lazy
    propagation"): the updater is applied to every node of the covered
    subtree, a point-style updater with the node's own [tree_left], a
    range-style updater with the node's own [tree_left] and [tree_right],
    dispatching on the tag of the callable; every internal node is then
    recombined from its children.  It is compared below with
    [_update_tree], which is translated from the source. *)

Fixpoint spec_update_rebuild_tree {QueryT} (plus : QueryT -> QueryT -> QueryT)
    (fuel : nat) (u : callable QueryT) (node tree_left tree_right : Z)
    : M QueryT unit :=
  match fuel with
  | O => fail OutOfFuel
  | S fuel' =>
      bind (data_at node) (fun d =>
      bind (value node d) (fun q =>
      bind (data_assign node
              match u with
              | point_style f => f q tree_left
              | range_style f => f q tree_left tree_right
              end) (fun _ =>
      if negb (tree_left =? tree_right) then
        let mid := (tree_left + tree_right) / 2 in
        bind (spec_update_rebuild_tree plus fuel' u (2 * node) tree_left mid)
          (fun _ =>
        bind (spec_update_rebuild_tree plus fuel' u (2 * node + 1) (mid + 1)
                tree_right) (fun _ =>
        _merge_childs plus node))
      else ret tt)))
  end.

(** Follows the spec's words (section 4.3, steps 2 to 4, without lazy
    propagation). *)
Fixpoint spec_update_tree {QueryT} (plus : QueryT -> QueryT -> QueryT)
    (fuel : nat) (u : callable QueryT)
    (node tree_left tree_right update_left update_right : Z)
    : M QueryT unit :=
  match fuel with
  | O => fail OutOfFuel
  | S fuel' =>
      if (tree_left >? update_right) || (tree_right <? update_left) then
        ret tt
      else if (update_left <=? tree_left) && (tree_right <=? update_right) then
        spec_update_rebuild_tree plus (S fuel') u node tree_left tree_right
      else
        let mid := (tree_left + tree_right) / 2 in
        bind (spec_update_tree plus fuel' u (2 * node) tree_left mid
                update_left update_right) (fun _ =>
        bind (spec_update_tree plus fuel' u (2 * node + 1) (mid + 1)
                tree_right update_left update_right) (fun _ =>
        _merge_childs plus node))
  end.

(** Follows the spec's words (section 6, [update(updater, l, r)] with
    [0 <= l <= r < N]). *)
Definition spec_update_range {QueryT} (plus : QueryT -> QueryT -> QueryT)
    (u : callable QueryT) (left right : Z) : M QueryT unit :=
  bind get_size (fun sz =>
  bind (assert ((0 <=? left) && (left <=? right) && (right <? sz))) (fun _ =>
  spec_update_tree plus recursion_depth u 1 0 (sz - 1) left right)).

(** ** Instances used in the scenarios: sums and minima over [Z] *)

Definition sum_tree (LazyPropogation : bool) (input_data : list Z)
    : outcome Z unit :=
  SegmentTree_vector (fun b : Z => b) Z.add LazyPropogation input_data.

Definition min_tree (LazyPropogation : bool) (input_data : list Z)
    : outcome Z unit :=
  SegmentTree_vector (fun b : Z => b) Z.min LazyPropogation input_data.

(** [[](auto q, std::size_t) { return q + 10; }] *)
Definition add_10 : updater Z :=
  mkUpdater callable_object (point_style (fun q _ => q + 10)).

(** [[](auto, std::size_t) { return 0; }] *)
Definition assign_0 : updater Z :=
  mkUpdater callable_object (point_style (fun _ _ => 0)).

(** [[](auto q, std::size_t l, std::size_t r) { return q + 10 * (r - l + 1); }] *)
Definition add_10_each : updater Z :=
  mkUpdater callable_object
    (range_style (fun q l r => q + 10 * (r - l + 1))).

(** The tree an outcome ends in (the empty tree after a fault). *)
Definition tree_of {A} (o : outcome Z A) : SegmentTree Z :=
  match o with
  | Done _ s => s
  | Fault _ => mkSegmentTree 0 [] []
  end.

(** Sums over [1,2,3,4,5] with lazy propagation, after [update(add 10, 1, 3)]. *)
Definition sum_5_updated : SegmentTree Z :=
  tree_of (and_then (sum_tree true [1; 2; 3; 4; 5])
             (update_range Z.add true add_10 1 3)).

(** The same tree after [query(1, 3)]. *)
Definition sum_5_updated_queried : SegmentTree Z :=
  tree_of (query_range Z.add true 1 3 sum_5_updated).

(** Minima over [5,3,8,1,9] with lazy propagation, after [update(assign 0, 3)]. *)
Definition min_5_updated : SegmentTree Z :=
  tree_of (and_then (min_tree true [5; 3; 8; 1; 9])
             (update Z.min true assign_0 3)).

(** Sums over [1,2,3,4,5,6], with and without lazy propagation. *)
Definition sum_6 (LazyPropogation : bool) : SegmentTree Z :=
  tree_of (sum_tree LazyPropogation [1; 2; 3; 4; 5; 6]).

(** ** The build postcondition

    [built ... s node tree_left tree_right q]: in [s], the subtree rooted at
    [node] over [tree_left .. tree_right] is built and [node] holds [q]:
    every leaf holds the query value made from its element, every internal
    node holds the sum of its two children. *)

Inductive built {BaseT QueryT} (QueryT_of : BaseT -> QueryT)
    (plus : QueryT -> QueryT -> QueryT) (input_data : list BaseT)
    (s : SegmentTree QueryT) : Z -> Z -> Z -> QueryT -> Prop :=
| built_leaf node pos b :
    input_data !! Z.to_nat pos = Some b ->
    data s !! Z.to_nat node = Some (Some (QueryT_of b)) ->
    built QueryT_of plus input_data s node pos pos (QueryT_of b)
| built_node node tree_left tree_right ql qr :
    tree_left < tree_right ->
    built QueryT_of plus input_data s (2 * node) tree_left
      ((tree_left + tree_right) / 2) ql ->
    built QueryT_of plus input_data s (2 * node + 1)
      ((tree_left + tree_right) / 2 + 1) tree_right qr ->
    data s !! Z.to_nat node = Some (Some (plus ql qr)) ->
    built QueryT_of plus input_data s node tree_left tree_right (plus ql qr).

(** The node index is small enough for the node and, while its range can
    still be split, for its children to lie within [4 * N + 1] entries. *)
Definition node_fits (N node tree_left tree_right : Z) : Prop :=
  1 <= node <= 4 * N /\ (tree_right - tree_left) * (node + 1) < 2 * N.

(** ** What a query is expected to return *)

(** The elements at positions [lo .. hi] (none when [hi < lo]). *)
Definition segment {A} (l : list A) (lo hi : Z) : list A :=
  take (Z.to_nat (hi - lo + 1)) (drop (Z.to_nat lo) l).

(** The left-to-right combine of a list of query values. *)
Definition combine_list {QueryT} (plus : QueryT -> QueryT -> QueryT)
    (qs : list QueryT) : option QueryT :=
  match qs with
  | [] => None
  | q :: qs' => Some (fold_left plus qs' q)
  end.

(** How [_query_tree] joins the results of the two children. *)
Definition merge_optional {QueryT} (plus : QueryT -> QueryT -> QueryT)
    (a b : option QueryT) : option QueryT :=
  match a, b with
  | Some x, Some y => Some (plus x y)
  | Some _, None => a
  | None, _ => b
  end.

(** The positions [l, l + 1, ..., r]. *)
Definition positions (l r : Z) : list Z :=
  map (fun k => l + Z.of_nat k) (seq 0 (Z.to_nat (r - l + 1))).

(** No task is queued anywhere. *)
Definition no_pending_task {QueryT} (s : SegmentTree QueryT) : Prop :=
  forall i : nat, (i < length (lazyTasks s))%nat -> lazyTasks s !! i = Some [].

(** ** What a position holds once every pending task has reached it *)

(** What executing a task does to the value of a node over
    [tree_left .. tree_right]. *)
Definition apply_task {QueryT} (t : task QueryT) (q : QueryT)
    (tree_left tree_right : Z) : QueryT :=
  match t with
  | monostate => q
  | function_UpdaterT f => f q tree_left
  | function_RangeUpdaterT f => f q tree_left tree_right
  end.

Definition apply_tasks {QueryT} (ts : list (task QueryT)) (q : QueryT)
    (tree_left tree_right : Z) : QueryT :=
  fold_left (fun q t => apply_task t q tree_left tree_right) ts q.

(** The tasks that the push-down forwards to the children. *)
Definition is_forwarded {QueryT} (t : task QueryT) : bool :=
  match t with
  | monostate => false
  | _ => true
  end.

(** The value of the leaf for position [j] below [node], after the tasks
    [inherited] from above and the tasks queued on the way down have all
    been executed on it, in the order in which push-down delivers them. *)
Fixpoint leaf_value {QueryT} (fuel : nat) (node tree_left tree_right j : Z)
    (inherited : list (task QueryT)) (s : SegmentTree QueryT)
    : option QueryT :=
  match fuel with
  | O => None
  | S fuel' =>
      match lazyTasks s !! Z.to_nat node with
      | None => None
      | Some queue =>
          let pending := filter (fun t => is_forwarded t = true)
                           (queue ++ inherited) in
          if tree_left =? tree_right then
            match data s !! Z.to_nat node with
            | Some (Some q) =>
                Some (apply_tasks pending q tree_left tree_right)
            | _ => None
            end
          else
            let mid := (tree_left + tree_right) / 2 in
            if j <=? mid
            then leaf_value fuel' (2 * node) tree_left mid j pending s
            else leaf_value fuel' (2 * node + 1) (mid + 1) tree_right j
                   pending s
      end
  end.

(** The same, from the root. *)
Definition position_value {QueryT} (s : SegmentTree QueryT) (j : Z)
    : option QueryT :=
  leaf_value recursion_depth 1 0 (size s - 1) j [] s.

(** What the push-down at [v] over [tl .. tr] with queue [ts] turns [s]
    into. *)
Record pushed_down {QueryT} (v tl tr : Z) (ts : list (task QueryT))
    (s s' : SegmentTree QueryT) : Prop := {
  pd_size : size s' = size s;
  pd_data_len : length (data s') = length (data s);
  pd_lazy_len : length (lazyTasks s') = length (lazyTasks s);
  pd_data_node :
    data s' !! Z.to_nat v
    = option_map (fun q => apply_tasks ts q tl tr) <$> data s !! Z.to_nat v;
  pd_data_other :
    forall i : nat, i <> Z.to_nat v -> data s' !! i = data s !! i;
  pd_lazy_node : lazyTasks s' !! Z.to_nat v = lazyTasks s !! Z.to_nat v;
  pd_lazy_left :
    lazyTasks s' !! Z.to_nat (2 * v)
    = (fun q => q ++ filter (fun t => is_forwarded t = true) ts)
        <$> lazyTasks s !! Z.to_nat (2 * v);
  pd_lazy_right :
    lazyTasks s' !! Z.to_nat (2 * v + 1)
    = (fun q => q ++ filter (fun t => is_forwarded t = true) ts)
        <$> lazyTasks s !! Z.to_nat (2 * v + 1);
  pd_lazy_other :
    forall i : nat, i <> Z.to_nat (2 * v) -> i <> Z.to_nat (2 * v + 1) ->
      lazyTasks s' !! i = lazyTasks s !! i
}.

(** What an update over [ul .. ur] makes of what position [j] holds. *)
Definition updated {QueryT} (u : updater QueryT) (ul ur j : Z)
    (o : option QueryT) : option QueryT :=
  if (ul <=? j) && (j <=? ur)
  then option_map (fun x => apply_task (task_of u) x j j) o
  else o.

(** [after_queries plus s s']: [s'] is reached from [s] by completed
    queries alone, on a tree with lazy propagation. *)
Inductive after_queries {QueryT} (plus : QueryT -> QueryT -> QueryT)
    (s : SegmentTree QueryT) : SegmentTree QueryT -> Prop :=
| after_no_query : after_queries plus s s
| after_query s1 s2 position r :
    after_queries plus s s1 ->
    query plus true position s1 = Done r s2 ->
    after_queries plus s s2
| after_query_range s1 s2 left right r :
    after_queries plus s s1 ->
    query_range plus true left right s1 = Done r s2 ->
    after_queries plus s s2.

(** Sums over [1,2,3,4,5] with lazy propagation, just built. *)
Definition sum_5 : SegmentTree Z :=
  tree_of (sum_tree true [1; 2; 3; 4; 5]).

(** ** Fuel

    [OutOfFuel] is the one fault that belongs to the embedding and not to the
    program; [fueled m] says that [m] never ends in it. *)
Definition fueled {QueryT A} (m : M QueryT A) : Prop :=
  forall s, m s <> Fault OutOfFuel.

(** A call [update(updater, left, right)]. *)
Record update_call (QueryT : Type) := mkUpdateCall {
  call_updater : updater QueryT;
  call_left : Z;
  call_right : Z
}.
Arguments mkUpdateCall {QueryT} call_updater call_left call_right.
Arguments call_updater {QueryT} u.
Arguments call_left {QueryT} u.
Arguments call_right {QueryT} u.

(** The calls of [calls], one after the other, on a tree with lazy
    propagation. *)
Fixpoint update_all {QueryT} (plus : QueryT -> QueryT -> QueryT)
    (calls : list (update_call QueryT)) : M QueryT unit :=
  match calls with
  | [] => ret tt
  | c :: rest =>
      bind (update_range plus true (call_updater c) (call_left c)
              (call_right c)) (fun _ =>
      update_all plus rest)
  end.

(** What position [j] holds after the calls of [calls], if it held [o]. *)
Definition after_updates {QueryT} (calls : list (update_call QueryT)) (j : Z)
    (o : option QueryT) : option QueryT :=
  fold_left (fun o c => updated (call_updater c) (call_left c) (call_right c)
                          j o) calls o.

(** ** The shape of a tree: its size and the lengths of its vectors *)

Definition same_shape {QueryT} (s s' : SegmentTree QueryT) : Prop :=
  size s' = size s
  /\ length (data s') = length (data s)
  /\ length (lazyTasks s') = length (lazyTasks s).

(** [s'] has the shape of [s], and a value wherever [s] has one. *)
Definition grows {QueryT} (s s' : SegmentTree QueryT) : Prop :=
  same_shape s s'
  /\ forall (i : nat) q,
       data s !! i = Some (Some q) -> exists q', data s' !! i = Some (Some q').

(** [m] resizes nothing and disengages nothing. *)
Definition growing {QueryT A} (m : M QueryT A) : Prop :=
  forall s a s', m s = Done a s' -> grows s s'.

(** ** Sizes on which the push-down stays inside the vectors

    [layout_fits fuel cap node tl tr]: at every node of the subtree of
    [node] over [tl .. tr], leaves included, both child positions
    [2 * node] and [2 * node + 1] lie below [cap]. *)
Fixpoint layout_fits (fuel : nat) (cap node tl tr : Z) : bool :=
  match fuel with
  | O => false
  | S fuel' =>
      (2 * node + 1 <? cap)
      && (if tl <? tr
          then layout_fits fuel' cap (2 * node) tl ((tl + tr) / 2)
               && layout_fits fuel' cap (2 * node + 1) ((tl + tr) / 2 + 1) tr
          else true)
  end.

(** The same for the whole tree over [N] positions, with vectors of
    [4 * N + 1] entries. *)
Definition pushdown_fits (N : Z) : bool :=
  layout_fits recursion_depth (4 * N + 1) 1 0 (N - 1).

(** Every node of the subtree of [node] over [tl .. tr] holds a value. *)
Inductive engaged {QueryT} (s : SegmentTree QueryT) : Z -> Z -> Z -> Prop :=
| engaged_leaf node pos q :
    data s !! Z.to_nat node = Some (Some q) ->
    engaged s node pos pos
| engaged_node node tl tr q :
    tl < tr ->
    engaged s (2 * node) tl ((tl + tr) / 2) ->
    engaged s (2 * node + 1) ((tl + tr) / 2 + 1) tr ->
    data s !! Z.to_nat node = Some (Some q) ->
    engaged s node tl tr.

(** The invariant of a tree with lazy propagation on which no operation
    with valid arguments faults. *)
Record ready {QueryT} (s : SegmentTree QueryT) : Prop := {
  ready_size : 1 <= size s < 2 ^ 61;
  ready_data : len (data s) = 4 * size s + 1;
  ready_lazyTasks : len (lazyTasks s) = 4 * size s + 1;
  ready_fits : pushdown_fits (size s) = true;
  ready_engaged : engaged s 1 0 (size s - 1)
}.

(** The arguments of every call are valid for a tree of [N] positions. *)
Definition valid_calls {QueryT} (N : Z) (calls : list (update_call QueryT))
    : Prop :=
  Forall (fun c => 0 <= call_left c <= call_right c /\ call_right c < N) calls.

(** ** More scenarios over [1,2,3,4,5] *)

(** [update(add 10, 1, 3)], then [update(add 10, 2, 4)]. *)
Definition add_10_twice : list (update_call Z) :=
  [mkUpdateCall add_10 1 3; mkUpdateCall add_10 2 4].

Definition sum_5_updated_twice : SegmentTree Z :=
  tree_of (update_all Z.add add_10_twice sum_5).

(** [sum_5_updated] after the push-down at node 9, the leaf of position 1. *)
Definition sum_5_pushed : SegmentTree Z :=
  tree_of (_execute_lazy_tasks_and_pushdown 9 1 1 sum_5_updated).

(** [after_operations plus s s']: [s'] is reached from [s] by completed
    queries and updates, on a tree with lazy propagation. *)
Inductive after_operations {QueryT} (plus : QueryT -> QueryT -> QueryT)
    (s : SegmentTree QueryT) : SegmentTree QueryT -> Prop :=
| after_nothing : after_operations plus s s
| after_a_query s1 s2 position r :
    after_operations plus s s1 ->
    query plus true position s1 = Done r s2 ->
    after_operations plus s s2
| after_a_query_range s1 s2 left right r :
    after_operations plus s s1 ->
    query_range plus true left right s1 = Done r s2 ->
    after_operations plus s s2
| after_an_update s1 s2 u position :
    after_operations plus s s1 ->
    update plus true u position s1 = Done tt s2 ->
    after_operations plus s s2
| after_an_update_range s1 s2 u left right :
    after_operations plus s s1 ->
    update_range plus true u left right s1 = Done tt s2 ->
    after_operations plus s s2.

(** [update(add 10, 1, 3)], then [update(add 10 per position, 0, 2)]. *)
Definition add_10_then_each : list (update_call Z) :=
  [mkUpdateCall add_10 1 3; mkUpdateCall add_10_each 0 2].

(** ** Inversion of monadic computations *)

Ltac bind_inv H :=
  unfold bind in H;
  repeat match type of H with
  | context [match ?m with Done _ _ => _ | Fault _ => _ end] =>
      let E := fresh "E" in
      destruct m as [? ?|?] eqn:E; [|discriminate H]
  end.

Ltac units := repeat match goal with a : unit |- _ => destruct a end.

(** ** Arithmetic of heap positions *)

Lemma pow2_pos (k : nat) : 0 < 2 ^ Z.of_nat k.
Proof. apply Z.pow_pos_nonneg; lia. Qed.

Lemma pow2_succ (k : nat) : 2 ^ Z.of_nat (S k) = 2 * 2 ^ Z.of_nat k.
Proof. rewrite Nat2Z.inj_succ, Z.pow_succ_r; lia. Qed.

Lemma pow2_add (j d : nat) : 2 ^ Z.of_nat (j + d) = 2 ^ Z.of_nat j * 2 ^ Z.of_nat d.
Proof. rewrite Nat2Z.inj_add, Z.pow_add_r; lia. Qed.

Lemma desc_self v : desc v v.
Proof. exists 0%nat. simpl. lia. Qed.

Lemma desc_left v x : desc (2 * v) x -> desc v x.
Proof.
  intros [k Hk]. exists (S k). rewrite pow2_succ. lia.
Qed.

Lemma desc_right v x : desc (2 * v + 1) x -> desc v x.
Proof.
  intros [k Hk]. exists (S k). rewrite pow2_succ. pose proof (pow2_pos k). lia.
Qed.

Lemma desc_ge v x : 0 <= v -> desc v x -> v <= x.
Proof. intros Hv [k Hk]. pose proof (pow2_pos k). nia. Qed.

Lemma desc_disjoint v x : 1 <= v -> desc (2 * v) x -> desc (2 * v + 1) x -> False.
Proof.
  intros Hv [j Hj] [k Hk].
  destruct (le_lt_dec j k) as [Hjk|Hjk].
  - replace k with (j + (k - j))%nat in Hk by lia.
    rewrite pow2_add in Hk.
    pose proof (pow2_pos j). pose proof (pow2_pos (k - j)). nia.
  - replace j with (k + S (j - k - 1))%nat in Hj by lia.
    rewrite pow2_add, pow2_succ in Hj.
    pose proof (pow2_pos k). pose proof (pow2_pos (j - k - 1)). nia.
Qed.


Section Properties.

Context {QueryT : Type}.
Local Abbreviation tree := (SegmentTree QueryT).

Lemma modifies_refl P (s : tree) : modifies P s s.
Proof. now constructor. Qed.

Lemma modifies_trans P (s1 s2 s3 : tree) :
  modifies P s1 s2 -> modifies P s2 s3 -> modifies P s1 s3.
Proof.
  intros [A1 A2 A3 A4 A5] [B1 B2 B3 B4 B5]. constructor; try congruence.
  - intros i Hi. rewrite B4, A4; auto.
  - intros i Hi. rewrite B5, A5; auto.
Qed.

Lemma modifies_weaken (P Q : Z -> Prop) (s s' : tree) :
  (forall x, P x -> Q x) -> modifies P s s' -> modifies Q s s'.
Proof.
  intros HPQ [A1 A2 A3 A4 A5]. constructor; auto.
Qed.

Lemma data_assign_modifies i q (s s' : tree) :
  0 <= i -> data_assign i q s = Done tt s' -> modifies (eq i) s s'.
Proof.
  intros Hi H. unfold data_assign in H.
  destruct (data s !! Z.to_nat i) eqn:E; [|discriminate H].
  injection H as <-. constructor; simpl; auto.
  - apply length_insert.
  - intros j Hj. apply list_lookup_insert_ne. lia.
Qed.

Lemma emplace_back_modifies i t (s s' : tree) :
  0 <= i -> lazyTasks_emplace_back i t s = Done tt s' -> modifies (eq i) s s'.
Proof.
  intros Hi H. unfold lazyTasks_emplace_back in H.
  destruct (lazyTasks s !! Z.to_nat i) eqn:E; [|discriminate H].
  injection H as <-. constructor; simpl; auto.
  - apply length_insert.
  - intros j Hj. apply list_lookup_insert_ne. lia.
Qed.

Lemma clear_modifies i (s s' : tree) :
  0 <= i -> lazyTasks_clear i s = Done tt s' -> modifies (eq i) s s'.
Proof.
  intros Hi H. unfold lazyTasks_clear in H.
  destruct (lazyTasks s !! Z.to_nat i) eqn:E; [|discriminate H].
  injection H as <-. constructor; simpl; auto.
  - apply length_insert.
  - intros j Hj. apply list_lookup_insert_ne. lia.
Qed.

Lemma data_at_inv i (s s' : tree) d :
  data_at i s = Done d s' -> s' = s /\ data s !! Z.to_nat i = Some d.
Proof.
  unfold data_at. destruct (data s !! Z.to_nat i); intros H; inversion H; auto.
Qed.

Lemma lazyTasks_at_inv i (s s' : tree) q :
  lazyTasks_at i s = Done q s' -> s' = s /\ lazyTasks s !! Z.to_nat i = Some q.
Proof.
  unfold lazyTasks_at. destruct (lazyTasks s !! Z.to_nat i); intros H; inversion H; auto.
Qed.

Lemma value_inv node o (s s' : tree) q :
  value node o s = Done q s' -> s' = s /\ o = Some q.
Proof.
  destruct o; simpl; unfold ret, fail; intros H; inversion H; auto.
Qed.

(** ** Footprints on a tree with lazy propagation *)

Lemma wrap_nonneg x : 0 <= wrap x.
Proof. unfold wrap. apply Z.mod_pos_bound. lia. Qed.

Lemma forward_task_modifies v c t (s s' : tree) :
  0 <= c -> forward_task v c t s = Done tt s' -> modifies (eq c) s s'.
Proof.
  intros Hc H. unfold forward_task in H.
  destruct (c =? v); [discriminate H|]. now apply emplace_back_modifies in H.
Qed.

Lemma execute_task_modifies v tl tr t (s s' : tree) :
  0 <= v -> execute_task v tl tr t s = Done tt s' ->
  modifies (node_and_children v) s s'.
Proof.
  intros Hv H.
  assert (Hstep : forall q (s0 : tree),
            bind (data_assign v q) (fun _ =>
            bind (forward_task v (wrap (2 * v)) t) (fun _ =>
            forward_task v (wrap (2 * v + 1)) t)) s0 = Done tt s' ->
            modifies (node_and_children v) s0 s').
  { intros q s0 H0. bind_inv H0. units.
    apply data_assign_modifies in E; [|lia].
    apply forward_task_modifies in E0; [|apply wrap_nonneg].
    apply forward_task_modifies in H0; [|apply wrap_nonneg].
    eapply modifies_trans; [|eapply modifies_trans].
    - eapply modifies_weaken; [|exact E]. intros x <-. now left.
    - eapply modifies_weaken; [|exact E0]. intros x <-. right. now left.
    - eapply modifies_weaken; [|exact H0]. intros x <-. right. now right. }
  destruct t; cbn [execute_task] in H.
  - injection H as <-. apply modifies_refl.
  - unfold bind at 1 in H.
    destruct (data_at v s) as [d s1|] eqn:E; [|discriminate H].
    apply data_at_inv in E as [-> _]. unfold bind at 1 in H.
    destruct (value v d s) as [q s1|] eqn:E; [|discriminate H].
    apply value_inv in E as [-> _]. eapply Hstep; exact H.
  - unfold bind at 1 in H.
    destruct (data_at v s) as [d s1|] eqn:E; [|discriminate H].
    apply data_at_inv in E as [-> _]. unfold bind at 1 in H.
    destruct (value v d s) as [q s1|] eqn:E; [|discriminate H].
    apply value_inv in E as [-> _]. eapply Hstep; exact H.
Qed.

Lemma execute_tasks_modifies v tl tr ts : forall (s s' : tree),
  0 <= v -> execute_tasks v tl tr ts s = Done tt s' ->
  modifies (node_and_children v) s s'.
Proof.
  induction ts as [|t ts IH]; intros s s' Hv H; simpl in H.
  - injection H as <-. apply modifies_refl.
  - bind_inv H. destruct a.
    eapply modifies_trans; [eapply execute_task_modifies; eauto|eauto].
Qed.

Lemma pushdown_modifies v tl tr (s s' : tree) :
  0 <= v -> _execute_lazy_tasks_and_pushdown v tl tr s = Done tt s' ->
  modifies (node_and_children v) s s'.
Proof.
  intros Hv H. unfold _execute_lazy_tasks_and_pushdown in H. bind_inv H.
  apply lazyTasks_at_inv in E as [-> _]. destruct a0.
  eapply modifies_trans; [eapply execute_tasks_modifies; eauto|].
  eapply modifies_weaken; [|eapply clear_modifies; eauto].
  unfold node_and_children; intuition.
Qed.


Lemma wrap_small x : 0 <= x < 2 ^ 64 -> wrap x = x.
Proof. intros H. unfold wrap. now apply Z.mod_small. Qed.

Lemma lookup_in_bounds {A} (l : list A) (v : Z) (a : A) :
  0 <= v -> l !! Z.to_nat v = Some a -> v < len l.
Proof.
  intros Hv H. apply lookup_lt_Some in H. unfold len. lia.
Qed.

Lemma node_and_children_desc v x :
  0 <= v < 2 ^ 63 -> node_and_children v x -> desc v x.
Proof.
  intros Hv [->|[->| ->]].
  - apply desc_self.
  - rewrite wrap_small by lia. apply desc_left, desc_self.
  - rewrite wrap_small by lia. apply desc_right, desc_self.
Qed.

Lemma pushdown_in_bounds v tl tr (s s' : tree) :
  0 <= v -> _execute_lazy_tasks_and_pushdown v tl tr s = Done tt s' ->
  v < len (lazyTasks s).
Proof.
  intros Hv H. unfold _execute_lazy_tasks_and_pushdown in H. bind_inv H.
  apply lazyTasks_at_inv in E as [-> E]. eapply lookup_in_bounds; eauto.
Qed.

Lemma pushdown_clears v tl tr (s s' : tree) :
  _execute_lazy_tasks_and_pushdown v tl tr s = Done tt s' ->
  lazyTasks s' !! Z.to_nat v = Some [].
Proof.
  intros H. unfold _execute_lazy_tasks_and_pushdown in H. bind_inv H.
  unfold lazyTasks_clear in H.
  destruct (lazyTasks s1 !! Z.to_nat v) eqn:L; [|discriminate H].
  injection H as <-. simpl. apply list_lookup_insert_eq.
  eapply lookup_lt_Some; eauto.
Qed.

Lemma pushdown_idle v tl tr (t : tree) :
  lazyTasks t !! Z.to_nat v = Some [] ->
  _execute_lazy_tasks_and_pushdown v tl tr t = Done tt t.
Proof.
  intros H. unfold _execute_lazy_tasks_and_pushdown, bind, lazyTasks_at.
  rewrite H. simpl. unfold ret, lazyTasks_clear. rewrite H.
  rewrite list_insert_id by exact H. now destruct t.
Qed.

Context (plus : QueryT -> QueryT -> QueryT).

Lemma _query_tree_modifies fuel :
  forall v tl tr ql qr (s s' : tree) r,
    0 <= v -> len (lazyTasks s) <= 2 ^ 63 ->
    _query_tree plus true fuel v tl tr ql qr s = Done r s' ->
    modifies (desc v) s s'.
Proof.
  induction fuel as [|fuel IH]; intros v tl tr ql qr s s' r Hv Hlen H;
    simpl in H; [discriminate H|].
  unfold bind at 1 in H.
  destruct (_execute_lazy_tasks_and_pushdown v tl tr s) as [[] sa|] eqn:P;
    [|discriminate H].
  pose proof (pushdown_in_bounds _ _ _ _ _ Hv P) as Hb.
  assert (Hsa : modifies (desc v) s sa).
  { eapply modifies_weaken; [|eapply pushdown_modifies; eauto].
    intros x. apply node_and_children_desc. lia. }
  destruct ((tl >? qr) || (tr <? ql)).
  { injection H as _ <-. exact Hsa. }
  destruct ((ql <=? tl) && (tr <=? qr)).
  { apply data_at_inv in H as [-> _]. exact Hsa. }
  bind_inv H.
  assert (Hlen' : len (lazyTasks sa) <= 2 ^ 63).
  { unfold len in *. rewrite (mod_lazy_len _ _ _ Hsa). exact Hlen. }
  apply IH in E; [|apply wrap_nonneg|exact Hlen'].
  assert (Hlen'' : len (lazyTasks s0) <= 2 ^ 63).
  { unfold len in *. rewrite (mod_lazy_len _ _ _ E). exact Hlen'. }
  apply IH in E0; [|apply wrap_nonneg|exact Hlen''].
  rewrite wrap_small in E, E0 by lia.
  assert (s' = s1) as -> by (destruct a, a0; now inversion H).
  eapply modifies_trans; [exact Hsa|].
  eapply modifies_trans.
  - eapply modifies_weaken; [|exact E]. intros x. apply desc_left.
  - eapply modifies_weaken; [|exact E0]. intros x. apply desc_right.
Qed.

Lemma _query_tree_again fuel :
  forall v tl tr ql qr (s s1 : tree) r,
    1 <= v -> len (lazyTasks s) <= 2 ^ 63 ->
    _query_tree plus true fuel v tl tr ql qr s = Done r s1 ->
    forall t, agree_below v s1 t ->
      _query_tree plus true fuel v tl tr ql qr t = Done r t.
Proof.
  induction fuel as [|fuel IH]; intros v tl tr ql qr s s1 r Hv Hlen H t Ht;
    simpl in H; [discriminate H|].
  unfold bind at 1 in H.
  destruct (_execute_lazy_tasks_and_pushdown v tl tr s) as [[] sa|] eqn:P;
    [|discriminate H].
  assert (Hv0 : 0 <= v) by lia.
  pose proof (pushdown_in_bounds _ _ _ _ _ Hv0 P) as Hb.
  pose proof (pushdown_clears _ _ _ _ _ P) as Hclr.
  pose proof (pushdown_modifies _ _ _ _ _ Hv0 P) as Hsa.
  assert (Hlen' : len (lazyTasks sa) <= 2 ^ 63).
  { unfold len in *. rewrite (mod_lazy_len _ _ _ Hsa). exact Hlen. }
  assert (Hvv : desc v (Z.of_nat (Z.to_nat v))).
  { rewrite Z2Nat.id by lia. apply desc_self. }
  simpl. unfold bind at 1.
  destruct ((tl >? qr) || (tr <? ql)).
  { injection H as <- <-.
    rewrite pushdown_idle; [reflexivity|].
    destruct (Ht _ Hvv) as [_ ->]. exact Hclr. }
  destruct ((ql <=? tl) && (tr <=? qr)).
  { apply data_at_inv in H as [-> Hd].
    rewrite pushdown_idle.
    - unfold data_at. destruct (Ht _ Hvv) as [-> _]. now rewrite Hd.
    - destruct (Ht _ Hvv) as [_ ->]. exact Hclr. }
  bind_inv H.
  rename s0 into sb, s2 into sc.
  assert (s1 = sc /\ r = match a, a0 with
                         | Some x, Some y => Some (plus x y)
                         | Some x, None => a
                         | None, _ => a0 end) as [-> ->].
  { destruct a, a0; now inversion H. }
  pose proof (_query_tree_modifies _ _ _ _ _ _ _ _ _ (wrap_nonneg _) Hlen' E) as Ml.
  assert (Hlen'' : len (lazyTasks sb) <= 2 ^ 63).
  { unfold len in *. rewrite (mod_lazy_len _ _ _ Ml). exact Hlen'. }
  pose proof (_query_tree_modifies _ _ _ _ _ _ _ _ _ (wrap_nonneg _) Hlen'' E0) as Mr.
  rewrite wrap_small in * by lia.
  assert (Hnl : ~ desc (2 * v) (Z.of_nat (Z.to_nat v))).
  { rewrite Z2Nat.id by lia. intros D. apply desc_ge in D; lia. }
  assert (Hnr : ~ desc (2 * v + 1) (Z.of_nat (Z.to_nat v))).
  { rewrite Z2Nat.id by lia. intros D. apply desc_ge in D; lia. }
  rewrite pushdown_idle.
  2:{ destruct (Ht _ Hvv) as [_ ->].
      rewrite (mod_lazy _ _ _ Mr _ Hnr), (mod_lazy _ _ _ Ml _ Hnl). exact Hclr. }
  unfold bind.
  erewrite (IH (2 * v)); [| lia | exact Hlen' | exact E |].
  2:{ intros i Hi. destruct (Ht i (desc_left _ _ Hi)) as [Hd Hl].
      assert (Hni : ~ desc (2 * v + 1) (Z.of_nat i)).
      { intros D. eapply desc_disjoint; eauto. }
      rewrite Hd, Hl. split.
      - apply (mod_data _ _ _ Mr _ Hni).
      - apply (mod_lazy _ _ _ Mr _ Hni). }
  cbv beta iota. rewrite (wrap_small (2 * v + 1)) by lia.
  erewrite (IH (2 * v + 1)); [| lia | exact Hlen'' | exact E0 |].
  2:{ intros i Hi. apply Ht. now apply desc_right. }
  now destruct a, a0.
Qed.

(** ** Queries on a tree without lazy propagation *)

Lemma _query_tree_eager_state fuel :
  forall node tl tr ql qr (s s' : tree) r,
    _query_tree plus false fuel node tl tr ql qr s = Done r s' -> s' = s.
Proof.
  induction fuel as [|fuel IH]; intros node tl tr ql qr s s' r H; simpl in H.
  - discriminate H.
  - unfold bind, ret in H.
    destruct ((tl >? qr) || (tr <? ql)).
    + now inversion H.
    + destruct ((ql <=? tl) && (tr <=? qr)).
      * now apply data_at_inv in H as [-> _].
      * destruct (_query_tree plus false fuel (wrap (2 * node)) tl _ ql qr s)
          as [lq s1|] eqn:E1; [|discriminate H].
        destruct (_query_tree plus false fuel (wrap (2 * node + 1)) _ tr ql qr s1)
          as [rq s2|] eqn:E2; [|discriminate H].
        apply IH in E1. apply IH in E2. subst.
        destruct lq, rq; now inversion H.
Qed.

Lemma agree_below_refl v (s : tree) : agree_below v s s.
Proof. intros i _. split; reflexivity. Qed.

(** ** The public queries *)

Lemma query_eager_state (s s' : tree) (pos : Z) (v : option QueryT) :
  query plus false pos s = Done v s' -> s' = s.
Proof.
  intros H. unfold query in H. generalize dependent recursion_depth.
  intros fuel H. unfold bind, get_size, assert in H.
  destruct ((0 <=? pos) && (pos <? size s)); [|discriminate H].
  eapply _query_tree_eager_state; exact H.
Qed.

Lemma query_range_eager_state (s s' : tree) (l r : Z) (v : option QueryT) :
  query_range plus false l r s = Done v s' -> s' = s.
Proof.
  intros H. unfold query_range in H. generalize dependent recursion_depth.
  intros fuel H. unfold bind, get_size, assert in H.
  destruct ((0 <=? l) && (l <=? r) && (r <? size s)); [|discriminate H].
  eapply _query_tree_eager_state; exact H.
Qed.

(** C10.  With lazy propagation disabled, [query(pos)] and [query(l, r)]
    mutate nothing: whenever either returns, the tree (size, node values,
    task queues) is exactly the tree it was called on. *)
Theorem query_eager_no_mutation (s s' : tree) (l r : Z) (v : option QueryT) :
  query plus false l s = Done v s' \/ query_range plus false l r s = Done v s' ->
  s' = s.
Proof.
  intros [H|H].
  - eapply query_eager_state; exact H.
  - eapply query_range_eager_state; exact H.
Qed.

(** X19.  Whatever the state of the tree, if [query(l, r)] returns [v], then
    calling [query(l, r)] again straight away returns [v] as well, and this
    second call leaves the tree as the first one left it.  The first call
    may have pushed tasks down; the second finds every queue it visits
    empty.  (A vector of 2^63 task queues does not fit a 64-bit address
    space, hence the bound on [lazyTasks].)  That the first call returns
    is a hypothesis: on some reachable states it does not. *)
Theorem query_range_twice (LazyPropogation : bool) (s s1 : tree) (l r : Z)
    (v : option QueryT) :
  len (lazyTasks s) <= 2 ^ 63 ->
  query_range plus LazyPropogation l r s = Done v s1 ->
  query_range plus LazyPropogation l r s1 = Done v s1.
Proof.
  intros Hlen H. destruct LazyPropogation.
  - unfold query_range in *. generalize dependent recursion_depth.
    intros fuel H. unfold bind, get_size, assert in *.
    destruct ((0 <=? l) && (l <=? r) && (r <? size s)) eqn:A;
      [|discriminate H].
    cbv beta iota in H. unfold ret in H.
    assert (Hsz : size s1 = size s).
    { eapply mod_size, _query_tree_modifies; [| |exact H]; [lia|exact Hlen]. }
    rewrite Hsz, A. cbv beta iota. unfold ret.
    eapply _query_tree_again; [| |exact H|apply agree_below_refl];
      [lia|exact Hlen].
  - assert (s1 = s) as ->; [|exact H].
    eapply query_range_eager_state; exact H.
Qed.

End Properties.

(** ** Building the tree *)

Section Build.
Context {BaseT QueryT : Type} (QueryT_of : BaseT -> QueryT)
  (plus : QueryT -> QueryT -> QueryT) (input_data : list BaseT).
Local Abbreviation tree := (SegmentTree QueryT).
Local Abbreviation N := (len input_data).

Lemma node_fits_left n v tl tr :
  node_fits n v tl tr -> 0 <= tl < tr ->
  node_fits n (2 * v) tl ((tl + tr) / 2).
Proof.
  intros [Hv Hf] Hr. unfold node_fits.
  assert (tl <= (tl + tr) / 2 < tr) by (split; [apply Z.div_le_lower_bound|apply Z.div_lt_upper_bound]; lia).
  assert (2 * ((tl + tr) / 2) <= tl + tr) by (apply Z.mul_div_le; lia).
  split; nia.
Qed.

Lemma node_fits_right n v tl tr :
  node_fits n v tl tr -> 0 <= tl < tr ->
  node_fits n (2 * v + 1) ((tl + tr) / 2 + 1) tr.
Proof.
  intros [Hv Hf] Hr. unfold node_fits.
  assert (tl <= (tl + tr) / 2 < tr) by (split; [apply Z.div_le_lower_bound|apply Z.div_lt_upper_bound]; lia).
  assert (tl + tr < 2 * ((tl + tr) / 2) + 2).
  { pose proof (Z.mod_pos_bound (tl + tr) 2). pose proof (Z.div_mod (tl + tr) 2). lia. }
  split; nia.
Qed.

Lemma mid_spec tl tr :
  0 <= tl -> tl <= tr -> tr < 2 ^ 63 ->
  Z.shiftr (wrap (tl + tr)) 1 = (tl + tr) / 2.
Proof.
  intros. rewrite wrap_small by lia. rewrite Z.shiftr_div_pow2 by lia. reflexivity.
Qed.

Lemma built_data (s : tree) v tl tr q :
  built QueryT_of plus input_data s v tl tr q ->
  data s !! Z.to_nat v = Some (Some q).
Proof. intros B. destruct B; assumption. Qed.

Lemma built_agree (s t : tree) v tl tr q :
  1 <= v ->
  (forall i : nat, desc v (Z.of_nat i) -> data t !! i = data s !! i) ->
  built QueryT_of plus input_data s v tl tr q ->
  built QueryT_of plus input_data t v tl tr q.
Proof.
  intros Hv Hag B. induction B as [v pos b Hb Hd|v tl tr ql qr Hlt Bl IHl Br IHr Hd].
  - constructor; auto. rewrite Hag; auto. rewrite Z2Nat.id by lia. apply desc_self.
  - constructor; auto.
    + apply IHl; [lia|]. intros i Hi. apply Hag. now apply desc_left.
    + apply IHr; [lia|]. intros i Hi. apply Hag. now apply desc_right.
    + rewrite Hag; auto. rewrite Z2Nat.id by lia. apply desc_self.
Qed.


Lemma in_bounds_lookup {A} (l : list A) (v : Z) :
  0 <= v < len l -> exists a, l !! Z.to_nat v = Some a.
Proof.
  intros H. apply lookup_lt_is_Some. unfold len in H. lia.
Qed.

Lemma data_assign_done v q (s : tree) :
  0 <= v < len (data s) ->
  data_assign v q s
  = Done tt (mkSegmentTree (size s) (<[Z.to_nat v := Some q]> (data s))
               (lazyTasks s)).
Proof.
  intros H. destruct (in_bounds_lookup _ _ H) as [d Hd].
  unfold data_assign. now rewrite Hd.
Qed.

Lemma _merge_childs_done v a b (s : tree) :
  1 <= v -> 2 * v + 1 < len (data s) -> len (data s) <= 2 ^ 64 ->
  data s !! Z.to_nat (2 * v) = Some (Some a) ->
  data s !! Z.to_nat (2 * v + 1) = Some (Some b) ->
  _merge_childs plus v s
  = Done tt (mkSegmentTree (size s) (<[Z.to_nat v := Some (plus a b)]> (data s))
               (lazyTasks s)).
Proof.
  intros Hv Hb Hlen Ha Hb'. unfold _merge_childs, bind.
  rewrite !wrap_small by lia.
  assert ((2 * v + 1 <? len (data s)) = true) as -> by (apply Z.ltb_lt; lia).
  simpl. unfold data_at. rewrite Ha. simpl. rewrite Hb'. simpl.
  apply data_assign_done. lia.
Qed.

Lemma insert_modifies v o (s : tree) :
  0 <= v ->
  modifies (eq v) s
    (mkSegmentTree (size s) (<[Z.to_nat v := o]> (data s)) (lazyTasks s)).
Proof.
  intros Hv. constructor; simpl; auto.
  - apply length_insert.
  - intros j Hj. apply list_lookup_insert_ne. lia.
Qed.

Lemma _build_tree_step fuel v tl tr :
  _build_tree QueryT_of plus (S fuel) v tl tr input_data
  = if negb (tl =? tr) then
      bind (_build_tree QueryT_of plus fuel (wrap (2 * v)) tl
              (Z.shiftr (wrap (tl + tr)) 1) input_data) (fun _ =>
      bind (_build_tree QueryT_of plus fuel (wrap (2 * v + 1))
              (wrap (Z.shiftr (wrap (tl + tr)) 1 + 1)) tr input_data) (fun _ =>
      _merge_childs plus v))
    else
      bind (input_at input_data tl) (fun b => data_assign v (QueryT_of b)).
Proof. reflexivity. Qed.

Lemma _build_tree_spec fuel :
  forall v tl tr (s : tree),
    N < 2 ^ 61 -> len (data s) = 4 * N + 1 ->
    node_fits N v tl tr -> 0 <= tl <= tr -> tr < N ->
    tr - tl < 2 ^ Z.of_nat fuel ->
    exists s' q,
      _build_tree QueryT_of plus (S fuel) v tl tr input_data s = Done tt s'
      /\ built QueryT_of plus input_data s' v tl tr q
      /\ modifies (desc v) s s'
      /\ lazyTasks s' = lazyTasks s.
Proof.
  induction fuel as [|fuel IH]; intros v tl tr s HN Hlen Hfit Hr HtrN Hfuel.
  - assert (tr = tl) as -> by (simpl in Hfuel; lia). clear Hfuel.
    rewrite _build_tree_step. rewrite Z.eqb_refl. cbn [negb].
    assert (Htl : 0 <= tl < N) by lia.
    destruct (in_bounds_lookup input_data tl Htl) as [b Hb].
    unfold bind, input_at. rewrite Hb. unfold ret.
    destruct Hfit as [Hv _].
    rewrite data_assign_done by lia.
    eexists _, _. split; [reflexivity|]. split; [|split].
    + constructor; [exact Hb|]. simpl. apply list_lookup_insert_eq.
      unfold len in *. lia.
    + eapply modifies_weaken; [|apply insert_modifies; lia].
      intros x <-. apply desc_self.
    + reflexivity.
  - rewrite _build_tree_step.
    destruct (Z.eq_dec tl tr) as [->|Hne].
    + rewrite Z.eqb_refl. cbn [negb].
      assert (Htl : 0 <= tr < N) by lia.
      destruct (in_bounds_lookup input_data tr Htl) as [b Hb].
      unfold bind, input_at. rewrite Hb. unfold ret.
      destruct Hfit as [Hv _].
      rewrite data_assign_done by lia.
      eexists _, _. split; [reflexivity|]. split; [|split].
      * constructor; [exact Hb|]. simpl. apply list_lookup_insert_eq.
        unfold len in *. lia.
      * eapply modifies_weaken; [|apply insert_modifies; lia].
        intros x <-. apply desc_self.
      * reflexivity.
    + assert ((tl =? tr) = false) as -> by (apply Z.eqb_neq; exact Hne).
      cbn [negb].
      rewrite mid_spec by lia.
      set (mid := (tl + tr) / 2).
      assert (Hmid : tl <= mid < tr).
      { subst mid. split; [apply Z.div_le_lower_bound|apply Z.div_lt_upper_bound]; lia. }
      assert (Hmid2 : 2 * mid <= tl + tr < 2 * mid + 2).
      { subst mid. pose proof (Z.mod_pos_bound (tl + tr) 2).
        pose proof (Z.div_mod (tl + tr) 2). lia. }
      pose proof (node_fits_left _ _ _ _ Hfit ltac:(lia)) as Hfl.
      pose proof (node_fits_right _ _ _ _ Hfit ltac:(lia)) as Hfr.
      fold mid in Hfl, Hfr.
      destruct Hfit as [Hv Hf].
      assert (Hv2 : 2 * v + 1 < 4 * N + 1) by nia.
      rewrite pow2_succ in Hfuel.
      rewrite !wrap_small by lia.
      destruct (IH (2 * v) tl mid s HN Hlen Hfl ltac:(lia) ltac:(lia) ltac:(lia))
        as (s1 & ql & E1 & B1 & M1 & L1).
      assert (Hlen1 : len (data s1) = 4 * N + 1).
      { unfold len in *. rewrite (mod_data_len _ _ _ M1). exact Hlen. }
      destruct (IH (2 * v + 1) (mid + 1) tr s1 HN Hlen1 Hfr ltac:(lia) ltac:(lia)
                  ltac:(lia)) as (s2 & qr & E2 & B2 & M2 & L2).
      assert (Hlen2 : len (data s2) = 4 * N + 1).
      { unfold len in *. rewrite (mod_data_len _ _ _ M2). exact Hlen1. }
      assert (B1' : built QueryT_of plus input_data s2 (2 * v) tl mid ql).
      { eapply built_agree; [lia| |exact B1].
        intros i Hi. apply (mod_data _ _ _ M2). intros D.
        eapply desc_disjoint; [|exact Hi|exact D]. lia. }
      unfold bind. rewrite E1, E2.
      assert (Dl : data s2 !! Z.to_nat (2 * v) = Some (Some ql)).
      { eapply built_data; exact B1'. }
      assert (Dr : data s2 !! Z.to_nat (2 * v + 1) = Some (Some qr)).
      { eapply built_data; exact B2. }
      rewrite (_merge_childs_done v ql qr) by (auto; lia).
      eexists _, _. split; [reflexivity|]. split; [|split].
      * constructor; [lia| | |].
        -- eapply built_agree; [lia| |exact B1']. intros i Hi. simpl.
           apply list_lookup_insert_ne. intros <-.
           rewrite Z2Nat.id in Hi by lia. apply desc_ge in Hi; lia.
        -- eapply built_agree; [lia| |exact B2]. intros i Hi. simpl.
           apply list_lookup_insert_ne. intros <-.
           rewrite Z2Nat.id in Hi by lia. apply desc_ge in Hi; lia.
        -- simpl. apply list_lookup_insert_eq. unfold len in *. lia.
      * eapply modifies_trans; [|eapply modifies_trans].
        -- eapply modifies_weaken; [|exact M1]. intros x. apply desc_left.
        -- eapply modifies_weaken; [|exact M2]. intros x. apply desc_right.
        -- eapply modifies_weaken; [|apply insert_modifies; lia].
           intros x <-. apply desc_self.
      * simpl. congruence.
Qed.

End Build.

(** ** Queries on a tree that has just been built *)

Section Fresh.
Context {BaseT QueryT : Type} (QueryT_of : BaseT -> QueryT)
  (plus : QueryT -> QueryT -> QueryT) (input_data : list BaseT).
Local Abbreviation tree := (SegmentTree QueryT).
Local Abbreviation N := (len input_data).

Lemma segment_empty {A} (l : list A) lo hi : hi < lo -> segment l lo hi = [].
Proof.
  intros H. unfold segment. replace (Z.to_nat (hi - lo + 1)) with 0%nat by lia.
  apply take_0.
Qed.

Lemma segment_app {A} (l : list A) lo m hi :
  0 <= lo -> lo <= m + 1 -> m <= hi ->
  segment l lo hi = segment l lo m ++ segment l (m + 1) hi.
Proof.
  intros H0 H1 H2. unfold segment.
  replace (Z.to_nat (m + 1)) with (Z.to_nat lo + Z.to_nat (m - lo + 1))%nat by lia.
  rewrite <- drop_drop.
  replace (Z.to_nat (hi - lo + 1))
    with (Z.to_nat (m - lo + 1) + Z.to_nat (hi - (m + 1) + 1))%nat by lia.
  symmetry. apply take_take_drop.
Qed.

Lemma segment_singleton {A} (l : list A) pos b :
  0 <= pos -> l !! Z.to_nat pos = Some b -> segment l pos pos = [b].
Proof.
  intros H0 Hb. unfold segment. replace (Z.to_nat (pos - pos + 1)) with 1%nat by lia.
  rewrite (drop_S _ _ _ Hb). reflexivity.
Qed.

Hypothesis plus_assoc : forall x y z, plus (plus x y) z = plus x (plus y z).

Lemma fold_left_plus qs : forall x y,
  fold_left plus qs (plus x y) = plus x (fold_left plus qs y).
Proof.
  induction qs as [|q qs IH]; intros x y; simpl; [reflexivity|].
  rewrite plus_assoc. apply IH.
Qed.

Lemma combine_list_app xs ys :
  combine_list plus (xs ++ ys)
  = merge_optional plus (combine_list plus xs) (combine_list plus ys).
Proof.
  destruct xs as [|x xs]; simpl; [now destruct (combine_list plus ys)|].
  rewrite fold_left_app. destruct ys as [|y ys]; simpl; [reflexivity|].
  now rewrite fold_left_plus.
Qed.

Lemma built_value (s : tree) v tl tr q :
  0 <= tl ->
  built QueryT_of plus input_data s v tl tr q ->
  combine_list plus (QueryT_of <$> segment input_data tl tr) = Some q.
Proof.
  intros H0 B. induction B as [v pos b Hb Hd|v tl tr ql qr Hlt Bl IHl Br IHr Hd].
  - now rewrite (segment_singleton _ _ _ H0 Hb).
  - assert (Hmid : tl <= (tl + tr) / 2 < tr).
    { split; [apply Z.div_le_lower_bound|apply Z.div_lt_upper_bound]; lia. }
    rewrite (segment_app _ tl ((tl + tr) / 2) tr) by lia.
    rewrite fmap_app, combine_list_app, IHl, IHr by lia. reflexivity.
Qed.


Lemma built_children (s : tree) v tl tr q :
  built QueryT_of plus input_data s v tl tr q -> tl < tr ->
  exists ql qr,
    built QueryT_of plus input_data s (2 * v) tl ((tl + tr) / 2) ql
    /\ built QueryT_of plus input_data s (2 * v + 1) ((tl + tr) / 2 + 1) tr qr
    /\ q = plus ql qr.
Proof.
  intros B Hlt. destruct B as [v pos b Hb Hd|v tl tr ql qr _ Bl Br Hd]; [lia|].
  eauto.
Qed.

Lemma _query_tree_step lazy fuel v tl tr ql qr :
  _query_tree plus lazy (S fuel) v tl tr ql qr
  = bind (if lazy then _execute_lazy_tasks_and_pushdown v tl tr else ret tt)
      (fun _ =>
       if (tl >? qr) || (tr <? ql) then ret None
       else if (ql <=? tl) && (tr <=? qr) then data_at v
       else
         bind (_query_tree plus lazy fuel (wrap (2 * v)) tl
                 (Z.shiftr (wrap (tl + tr)) 1) ql qr) (fun left_query =>
         bind (_query_tree plus lazy fuel (wrap (2 * v + 1))
                 (wrap (Z.shiftr (wrap (tl + tr)) 1 + 1)) tr ql qr)
           (fun right_query =>
            match left_query, right_query with
            | Some a, Some b => ret (Some (plus a b))
            | Some a, None => ret left_query
            | None, _ => ret right_query
            end))).
Proof. reflexivity. Qed.

Lemma pushdown_when_quiet (lazy : bool) v tl tr (s : tree) :
  (lazy = true -> no_pending_task s /\ len (lazyTasks s) = 4 * N + 1) ->
  1 <= v <= 4 * N ->
  (if lazy then _execute_lazy_tasks_and_pushdown v tl tr else ret tt) s
  = Done tt s.
Proof.
  intros Hq Hv. destruct lazy; [|reflexivity].
  destruct (Hq eq_refl) as [Hnone Hlen].
  apply pushdown_idle. apply Hnone. unfold len in *. lia.
Qed.

Lemma _query_tree_built lazy fuel :
  forall v tl tr ql qr (s : tree) q,
    N < 2 ^ 61 -> node_fits N v tl tr -> 0 <= tl <= tr -> tr < N ->
    tr - tl < 2 ^ Z.of_nat fuel ->
    built QueryT_of plus input_data s v tl tr q ->
    (lazy = true -> no_pending_task s /\ len (lazyTasks s) = 4 * N + 1) ->
    _query_tree plus lazy (S fuel) v tl tr ql qr s
    = Done (combine_list plus
              (QueryT_of <$> segment input_data (Z.max tl ql) (Z.min tr qr))) s.
Proof.
  induction fuel as [|fuel IH]; intros v tl tr ql qr s q HN Hfit Hr HtrN Hfuel B Hq;
    rewrite _query_tree_step; unfold bind at 1;
    rewrite (pushdown_when_quiet lazy v tl tr s Hq (proj1 Hfit)).
  - assert (tr = tl) as -> by (simpl in Hfuel; lia). clear Hfuel.
    destruct ((tl >? qr) || (tl <? ql)) eqn:Hout.
    + rewrite segment_empty by lia. reflexivity.
    + assert (((ql <=? tl) && (tl <=? qr)) = true) as -> by lia.
      rewrite Z.max_l, Z.min_l by lia.
      rewrite (built_value _ _ _ _ _ (proj1 Hr) B).
      unfold data_at. now rewrite (built_data _ _ _ _ _ _ _ _ B).
  - destruct ((tl >? qr) || (tr <? ql)) eqn:Hout.
    { rewrite segment_empty by lia. reflexivity. }
    destruct ((ql <=? tl) && (tr <=? qr)) eqn:Hin.
    { rewrite Z.max_l, Z.min_l by lia.
      rewrite (built_value _ _ _ _ _ (proj1 Hr) B).
      unfold data_at. now rewrite (built_data _ _ _ _ _ _ _ _ B). }
    assert (Hlt : tl < tr) by lia.
    destruct (built_children _ _ _ _ _ B Hlt) as (q1 & q2 & B1 & B2 & ->).
    rewrite mid_spec by lia.
    set (mid := (tl + tr) / 2) in *.
    assert (Hmid : tl <= mid < tr).
    { subst mid. split; [apply Z.div_le_lower_bound|apply Z.div_lt_upper_bound]; lia. }
    assert (Hmid2 : 2 * mid <= tl + tr < 2 * mid + 2).
    { subst mid. pose proof (Z.mod_pos_bound (tl + tr) 2).
      pose proof (Z.div_mod (tl + tr) 2). lia. }
    pose proof (node_fits_left _ _ _ _ Hfit ltac:(lia)) as Hfl.
    pose proof (node_fits_right _ _ _ _ Hfit ltac:(lia)) as Hfr.
    fold mid in Hfl, Hfr.
    assert (Hv2 : 2 * v + 1 < 4 * N + 1) by (destruct Hfit; nia).
    destruct Hfit as [Hv _].
    rewrite pow2_succ in Hfuel.
    rewrite !wrap_small by lia.
    unfold bind.
    rewrite (IH (2 * v) tl mid ql qr s q1) by (auto; lia).
    rewrite (IH (2 * v + 1) (mid + 1) tr ql qr s q2) by (auto; lia).
    assert (Hsplit : segment input_data (Z.max tl ql) (Z.min tr qr)
                     = segment input_data (Z.max tl ql) (Z.min mid qr)
                       ++ segment input_data (Z.max (mid + 1) ql) (Z.min tr qr)).
    { destruct (Z_le_gt_dec qr mid) as [C1|C1].
      - rewrite (segment_empty _ (Z.max (mid + 1) ql)) by lia.
        rewrite app_nil_r. f_equal; lia.
      - destruct (Z_le_gt_dec ql mid) as [C2|C2].
        + rewrite (segment_app _ (Z.max tl ql) mid (Z.min tr qr)) by lia.
          f_equal; f_equal; lia.
        + rewrite (segment_empty _ (Z.max tl ql) (Z.min mid qr)) by lia.
          simpl. f_equal; lia. }
    rewrite Hsplit, fmap_app, combine_list_app.
    unfold merge_optional.
    destruct (combine_list plus (QueryT_of <$> segment input_data (Z.max tl ql) (Z.min mid qr))),
      (combine_list plus (QueryT_of <$> segment input_data (Z.max (mid + 1) ql) (Z.min tr qr)));
      reflexivity.
Qed.


Lemma construct_spec (lazy : bool) :
  1 <= N < 2 ^ 61 ->
  exists s q,
    construct QueryT_of plus lazy N input_data = Done tt s
    /\ size s = N
    /\ len (data s) = 4 * N + 1
    /\ lazyTasks s = (if lazy then replicate (Z.to_nat (4 * N + 1)) [] else [])
    /\ built QueryT_of plus input_data s 1 0 (N - 1) q.
Proof.
  intros HN. unfold construct, _get_segtree_size.
  rewrite !wrap_small by lia.
  change recursion_depth with (S 64).
  set (s0 := mkSegmentTree N (replicate (Z.to_nat (4 * N + 1)) None)
               (if lazy then replicate (Z.to_nat (4 * N + 1)) [] else [])).
  assert (Hlen : len (data s0) = 4 * N + 1).
  { unfold len at 1. simpl. rewrite length_replicate. lia. }
  assert (Hfit : node_fits N 1 0 (N - 1)) by (unfold node_fits; lia).
  assert (Hfuel : N - 1 - 0 < 2 ^ Z.of_nat 64).
  { change (2 ^ Z.of_nat 64) with (2 ^ 64). lia. }
  destruct (_build_tree_spec QueryT_of plus input_data 64 1 0 (N - 1) s0
              ltac:(lia) Hlen Hfit ltac:(lia) ltac:(lia) Hfuel)
    as (s & q & E & B & Mo & L).
  exists s, q. split; [exact E|]. split; [|split; [|split]].
  - now rewrite (mod_size _ _ _ Mo).
  - unfold len in *. now rewrite (mod_data_len _ _ _ Mo).
  - rewrite L. reflexivity.
  - exact B.
Qed.

Lemma replicate_no_pending_task (sz : Z) (d : list (option QueryT)) n :
  no_pending_task (mkSegmentTree sz d (replicate n [])).
Proof.
  intros i Hi. simpl in *. rewrite length_replicate in Hi.
  now apply lookup_replicate_2.
Qed.

Lemma constructed_quiet (lazy : bool) (s : tree) :
  lazyTasks s = (if lazy then replicate (Z.to_nat (4 * N + 1)) [] else []) ->
  0 <= N ->
  lazy = true -> no_pending_task s /\ len (lazyTasks s) = 4 * N + 1.
Proof.
  intros L HN ->. split.
  - intros i Hi. rewrite L in *. rewrite length_replicate in Hi.
    now apply lookup_replicate_2.
  - unfold len at 1. rewrite L, length_replicate. lia.
Qed.


Lemma SegmentTree_vector_unfold (lazy : bool) :
  SegmentTree_vector QueryT_of plus lazy input_data
  = construct QueryT_of plus lazy N input_data.
Proof. reflexivity. Qed.

Lemma fresh_tree (lazy : bool) (s : tree) :
  1 <= N < 2 ^ 61 ->
  SegmentTree_vector QueryT_of plus lazy input_data = Done tt s ->
  size s = N
  /\ (lazy = true -> no_pending_task s /\ len (lazyTasks s) = 4 * N + 1)
  /\ exists q, built QueryT_of plus input_data s 1 0 (N - 1) q.
Proof.
  intros HN E. rewrite SegmentTree_vector_unfold in E.
  destruct (construct_spec lazy HN) as (s' & q & E' & Hsz & _ & L & B).
  assert (Heq : Done tt s' = Done tt s) by (rewrite <- E', <- E; reflexivity).
  injection Heq as <-.
  split; [exact Hsz|]. split; [|eauto].
  apply constructed_quiet; [exact L|lia].
Qed.

Lemma _query_tree_fresh (lazy : bool) (s : tree) l r :
  1 <= N < 2 ^ 61 ->
  SegmentTree_vector QueryT_of plus lazy input_data = Done tt s ->
  0 <= l <= r -> r < N ->
  _query_tree plus lazy recursion_depth 1 0 (wrap (size s - 1)) l r s
  = Done (combine_list plus (QueryT_of <$> segment input_data l r)) s.
Proof.
  intros HN E Hl Hr.
  destruct (fresh_tree lazy s HN E) as (Hsz & Hq & q & B).
  rewrite Hsz, wrap_small by lia. change recursion_depth with (S 64).
  rewrite (_query_tree_built lazy 64 1 0 (N - 1) l r s q); auto; try lia.
  - rewrite Z.max_r, Z.min_r by lia. reflexivity.
  - unfold node_fits. lia.
Qed.

(** On a tree that has just been built, [query(l, r)] returns the
    left-to-right combine of the elements at [l .. r], and leaves the tree
    as it is. *)
Theorem fresh_query_range (lazy : bool) (s : tree) l r :
  1 <= N < 2 ^ 61 ->
  SegmentTree_vector QueryT_of plus lazy input_data = Done tt s ->
  0 <= l <= r -> r < N ->
  query_range plus lazy l r s
  = Done (combine_list plus (QueryT_of <$> segment input_data l r)) s.
Proof.
  intros HN E Hl Hr. unfold query_range, bind, get_size, assert.
  destruct (fresh_tree lazy s HN E) as (Hsz & _).
  assert (((0 <=? l) && (l <=? r) && (r <? size s)) = true) as -> by lia.
  cbv beta iota. unfold ret. now apply _query_tree_fresh.
Qed.

(** On a tree that has just been built, [query(i)] returns the query value
    made from the [i]-th element. *)
Theorem fresh_query (lazy : bool) (s : tree) i :
  1 <= N < 2 ^ 61 ->
  SegmentTree_vector QueryT_of plus lazy input_data = Done tt s ->
  0 <= i < N ->
  query plus lazy i s = Done (QueryT_of <$> input_data !! Z.to_nat i) s.
Proof.
  intros HN E Hi. unfold query, bind, get_size, assert.
  destruct (fresh_tree lazy s HN E) as (Hsz & _).
  assert (((0 <=? i) && (i <? size s)) = true) as -> by lia.
  cbv beta iota. unfold ret.
  rewrite _query_tree_fresh by (auto; lia).
  assert (Hi' : 0 <= i < len input_data) by lia.
  destruct (in_bounds_lookup input_data i Hi') as [b Hb].
  rewrite (segment_singleton _ _ _ (proj1 Hi) Hb), Hb. reflexivity.
Qed.


Lemma fresh_query_each (lazy : bool) (s : tree) ps :
  1 <= N < 2 ^ 61 ->
  SegmentTree_vector QueryT_of plus lazy input_data = Done tt s ->
  Forall (fun i => 0 <= i < N) ps ->
  query_each plus lazy ps s
  = Done ((fun i => QueryT_of <$> input_data !! Z.to_nat i) <$> ps) s.
Proof.
  intros HN E Hps. induction Hps as [|i ps Hi _ IH]; [reflexivity|].
  cbn [query_each]. unfold bind. rewrite fresh_query by auto.
  rewrite IH. reflexivity.
Qed.

Lemma combine_results_from acc qs :
  fold_left (fun acc r =>
               match acc, r with
               | Some a, Some b => Some (plus a b)
               | Some a, None => acc
               | None, _ => r
               end) (Some <$> qs) (Some acc)
  = Some (fold_left plus qs acc).
Proof.
  revert acc. induction qs as [|q qs IH]; intros acc; simpl; [reflexivity|].
  apply IH.
Qed.

Lemma combine_results_Some qs :
  combine_results plus (Some <$> qs) = combine_list plus qs.
Proof.
  destruct qs as [|q qs]; [reflexivity|].
  unfold combine_results. simpl. apply combine_results_from.
Qed.

Lemma lookup_seq_take (l : list BaseT) n : forall j,
  (j + n <= length l)%nat ->
  (fun k => QueryT_of <$> l !! k) <$> seq j n
  = Some <$> (QueryT_of <$> take n (drop j l)).
Proof.
  induction n as [|n IH]; intros j Hj; [reflexivity|].
  destruct (lookup_lt_is_Some_2 l j ltac:(lia)) as [b Hb].
  rewrite (drop_S _ _ _ Hb). cbn [seq take fmap list_fmap].
  rewrite Hb. f_equal. apply IH. lia.
Qed.

Lemma positions_lookup l r :
  0 <= l <= r -> r < N ->
  (fun i => QueryT_of <$> input_data !! Z.to_nat i) <$> positions l r
  = Some <$> (QueryT_of <$> segment input_data l r).
Proof.
  intros Hl Hr. unfold positions, segment.
  rewrite <- (lookup_seq_take input_data _ (Z.to_nat l)) by (unfold len in *; lia).
  replace (seq (Z.to_nat l) (Z.to_nat (r - l + 1)))
    with (Nat.add (Z.to_nat l) <$> seq 0 (Z.to_nat (r - l + 1)))
    by (rewrite fmap_add_seq; f_equal; lia).
  change (map ?f ?x) with (f <$> x).
  rewrite <- !list_fmap_compose. apply list_fmap_ext.
  intros _ k _. simpl. f_equal. f_equal. lia.
Qed.

Lemma positions_in_range l r :
  0 <= l -> r < N -> Forall (fun i => 0 <= i < N) (positions l r).
Proof.
  intros Hl Hr. unfold positions. apply Forall_forall. intros i Hi.
  apply list_elem_of_In, in_map_iff in Hi as (k & <- & Hk).
  apply in_seq in Hk. lia.
Qed.

(** X7.  On a tree that has just been built, [query(l, r)] equals the
    left-to-right combine of [query(l)], [query(l + 1)], ..., [query(r)]. *)
Theorem fresh_query_range_is_combine_of_positions (lazy : bool) (s : tree) l r :
  1 <= N < 2 ^ 61 ->
  SegmentTree_vector QueryT_of plus lazy input_data = Done tt s ->
  0 <= l <= r -> r < N ->
  exists rs,
    query_each plus lazy (positions l r) s = Done rs s
    /\ query_range plus lazy l r s = Done (combine_results plus rs) s.
Proof.
  intros HN E Hl Hr. eexists. split.
  - apply fresh_query_each; auto. apply positions_in_range; lia.
  - rewrite positions_lookup, combine_results_Some by lia.
    now apply fresh_query_range.
Qed.

End Fresh.

Lemma construct_replicate_built {BaseT QueryT} (QueryT_of : BaseT -> QueryT)
    (plus : QueryT -> QueryT -> QueryT) (lazy : bool) (n : Z) (b : BaseT) :
  1 <= n < 2 ^ 61 ->
  exists s q,
    construct QueryT_of plus lazy n (replicate (Z.to_nat n) b) = Done tt s
    /\ size s = n
    /\ len (data s) = 4 * n + 1
    /\ lazyTasks s = (if lazy then replicate (Z.to_nat (4 * n + 1)) [] else [])
    /\ built QueryT_of plus (replicate (Z.to_nat n) b) s 1 0 (n - 1) q.
Proof.
  intros Hn.
  assert (Hlen : len (replicate (Z.to_nat n) b) = n).
  { unfold len. rewrite length_replicate. lia. }
  pose proof (construct_spec QueryT_of plus (replicate (Z.to_nat n) b) lazy) as H.
  rewrite Hlen in H. exact (H Hn).
Qed.

(** X2.  [SegmentTree(std::size_t size, BaseT default_value)] for a size of at
    least one: the constructor completes and the build postcondition holds
    for the whole tree. *)
Theorem SegmentTree_size_value_built {BaseT QueryT} (QueryT_of : BaseT -> QueryT)
    (plus : QueryT -> QueryT -> QueryT) (lazy : bool) (n : Z) (b : BaseT) :
  1 <= n < 2 ^ 61 ->
  exists s q,
    SegmentTree_size_value QueryT_of plus lazy n b = Done tt s
    /\ size s = n
    /\ len (data s) = 4 * n + 1
    /\ lazyTasks s = (if lazy then replicate (Z.to_nat (4 * n + 1)) [] else [])
    /\ built QueryT_of plus (replicate (Z.to_nat n) b) s 1 0 (n - 1) q.
Proof.
  intros Hn. unfold SegmentTree_size_value.
  exact (construct_replicate_built QueryT_of plus lazy n b Hn).
Qed.

(** X3.  [SegmentTree(std::size_t size)] for a size of at least one: the
    constructor completes, every element is [BaseT{}] and the build
    postcondition holds for the whole tree. *)
Theorem SegmentTree_size_built {BaseT QueryT} (QueryT_of : BaseT -> QueryT)
    (plus : QueryT -> QueryT -> QueryT) (BaseT_default : BaseT) (lazy : bool)
    (n : Z) :
  1 <= n < 2 ^ 61 ->
  exists s q,
    SegmentTree_size QueryT_of plus BaseT_default lazy n = Done tt s
    /\ size s = n
    /\ len (data s) = 4 * n + 1
    /\ lazyTasks s = (if lazy then replicate (Z.to_nat (4 * n + 1)) [] else [])
    /\ built QueryT_of plus (replicate (Z.to_nat n) BaseT_default) s 1 0
         (n - 1) q.
Proof.
  intros Hn. unfold SegmentTree_size.
  exact (construct_replicate_built QueryT_of plus lazy n BaseT_default Hn).
Qed.

(** ** Single positions of a tree that has just been built

    No property of [operator+] is needed here: a query for one position
    adds nothing up. *)

Section FreshPosition.
Context {BaseT QueryT : Type} (QueryT_of : BaseT -> QueryT)
  (plus : QueryT -> QueryT -> QueryT) (input_data : list BaseT).
Local Abbreviation tree := (SegmentTree QueryT).
Local Abbreviation N := (len input_data).

Lemma _query_tree_quiet_outside (lazy : bool) fuel v tl tr ql qr (s : tree) :
  (lazy = true -> no_pending_task s /\ len (lazyTasks s) = 4 * N + 1) ->
  1 <= v <= 4 * N ->
  (tl >? qr) || (tr <? ql) = true ->
  _query_tree plus lazy (S fuel) v tl tr ql qr s = Done None s.
Proof.
  intros Hq Hv Hout. rewrite _query_tree_step. unfold bind at 1.
  rewrite (pushdown_when_quiet input_data lazy v tl tr s Hq Hv), Hout.
  reflexivity.
Qed.

Lemma built_leaf_data (s : tree) v pos q :
  built QueryT_of plus input_data s v pos pos q ->
  data s !! Z.to_nat v = Some (QueryT_of <$> input_data !! Z.to_nat pos).
Proof.
  intros B. inversion B as [v' pos' b Hb Hd|v' tl' tr' q1 q2 Hlt]; subst.
  - now rewrite Hb.
  - lia.
Qed.

Lemma _query_tree_built_position (lazy : bool) fuel :
  forall v tl tr j (s : tree) q,
    N < 2 ^ 61 -> node_fits N v tl tr -> 0 <= tl <= tr -> tr < N ->
    tr - tl < 2 ^ Z.of_nat fuel ->
    built QueryT_of plus input_data s v tl tr q ->
    (lazy = true -> no_pending_task s /\ len (lazyTasks s) = 4 * N + 1) ->
    tl <= j <= tr ->
    _query_tree plus lazy (S fuel) v tl tr j j s
    = Done (QueryT_of <$> input_data !! Z.to_nat j) s.
Proof.
  induction fuel as [|fuel IH]; intros v tl tr j s q HN Hfit Hr HtrN Hfuel B Hq Hj;
    rewrite _query_tree_step; unfold bind at 1;
    rewrite (pushdown_when_quiet input_data lazy v tl tr s Hq (proj1 Hfit)).
  - assert (tr = tl) as -> by (simpl in Hfuel; lia).
    assert (j = tl) as -> by lia.
    assert (((tl >? tl) || (tl <? tl)) = false) as -> by lia.
    assert (((tl <=? tl) && (tl <=? tl)) = true) as -> by lia.
    unfold data_at. now rewrite (built_leaf_data _ _ _ _ B).
  - assert (((tl >? j) || (tr <? j)) = false) as -> by lia.
    destruct (Z.eq_dec tl tr) as [->|Hne].
    { assert (j = tr) as -> by lia.
      assert (((tr <=? tr) && (tr <=? tr)) = true) as -> by lia.
      unfold data_at. now rewrite (built_leaf_data _ _ _ _ B). }
    assert (((j <=? tl) && (tr <=? j)) = false) as -> by lia.
    assert (Hlt : tl < tr) by lia.
    destruct (built_children _ _ _ _ _ _ _ _ B Hlt) as (q1 & q2 & B1 & B2 & ->).
    rewrite mid_spec by lia.
    set (mid := (tl + tr) / 2) in *.
    assert (Hmid : tl <= mid < tr).
    { subst mid. split; [apply Z.div_le_lower_bound|apply Z.div_lt_upper_bound]; lia. }
    assert (Hlr : 0 <= tl /\ tl < tr) by lia.
    pose proof (node_fits_left _ _ _ _ Hfit Hlr) as Hfl.
    pose proof (node_fits_right _ _ _ _ Hfit Hlr) as Hfr.
    fold mid in Hfl, Hfr.
    assert (Hmid2 : 2 * mid <= tl + tr < 2 * mid + 2).
    { subst mid. pose proof (Z.mod_pos_bound (tl + tr) 2).
      pose proof (Z.div_mod (tl + tr) 2). lia. }
    assert (Hv2 : 2 * v + 1 < 4 * N + 1) by (destruct Hfit; nia).
    destruct Hfit as [Hv _].
    rewrite pow2_succ in Hfuel.
    rewrite !wrap_small by lia.
    assert (Hj' : 0 <= j < N) by lia.
    destruct (in_bounds_lookup input_data j Hj') as [b Hb].
    unfold bind.
    destruct (Z_le_gt_dec j mid) as [C|C].
    + rewrite (IH (2 * v) tl mid j s q1) by (auto; lia).
      rewrite (_query_tree_quiet_outside lazy fuel (2 * v + 1) (mid + 1) tr j j s Hq
                 (proj1 Hfr)) by lia.
      rewrite Hb. reflexivity.
    + rewrite (_query_tree_quiet_outside lazy fuel (2 * v) tl mid j j s Hq
                 (proj1 Hfl)) by lia.
      rewrite (IH (2 * v + 1) (mid + 1) tr j s q2) by (auto; lia).
      reflexivity.
Qed.

Lemma query_fresh_position (lazy : bool) (s : tree) i :
  1 <= N < 2 ^ 61 ->
  SegmentTree_vector QueryT_of plus lazy input_data = Done tt s ->
  0 <= i < N ->
  query plus lazy i s = Done (QueryT_of <$> input_data !! Z.to_nat i) s.
Proof.
  intros HN E Hi. unfold query, bind, get_size, assert.
  destruct (fresh_tree QueryT_of plus input_data lazy s HN E) as (Hsz & Hq & q & B).
  assert (((0 <=? i) && (i <? size s)) = true) as -> by lia.
  cbv beta iota. unfold ret.
  rewrite Hsz, wrap_small by lia. change recursion_depth with (S 64).
  apply (_query_tree_built_position lazy 64 1 0 (N - 1) i s q); auto; try lia.
  unfold node_fits. lia.
Qed.

End FreshPosition.

(** ** What the positions hold on a tree with lazy propagation *)

Section Pending.
Context {QueryT : Type}.
Local Abbreviation tree := (SegmentTree QueryT).
Local Abbreviation forwarded := (filter (fun t : task QueryT => is_forwarded t = true)).

Lemma apply_tasks_app (ts1 ts2 : list (task QueryT)) q tl tr :
  apply_tasks (ts1 ++ ts2) q tl tr = apply_tasks ts2 (apply_tasks ts1 q tl tr) tl tr.
Proof. unfold apply_tasks. apply fold_left_app. Qed.

Lemma apply_tasks_forwarded (ts : list (task QueryT)) : forall q tl tr,
  apply_tasks (forwarded ts) q tl tr = apply_tasks ts q tl tr.
Proof.
  induction ts as [|t ts IH]; intros q tl tr; [reflexivity|].
  destruct t.
  - rewrite filter_cons_False by (simpl; discriminate). rewrite IH. reflexivity.
  - rewrite filter_cons_True by reflexivity.
    change (apply_tasks (?t :: ?l) q tl tr)
      with (apply_tasks l (apply_task t q tl tr) tl tr).
    apply IH.
  - rewrite filter_cons_True by reflexivity.
    change (apply_tasks (?t :: ?l) q tl tr)
      with (apply_tasks l (apply_task t q tl tr) tl tr).
    apply IH.
Qed.

Lemma forwarded_idemp (ts : list (task QueryT)) :
  forwarded (forwarded ts) = forwarded ts.
Proof.
  induction ts as [|t ts IH]; [reflexivity|].
  destruct t.
  - rewrite filter_cons_False by (simpl; discriminate). exact IH.
  - rewrite !filter_cons_True by reflexivity. now rewrite IH.
  - rewrite !filter_cons_True by reflexivity. now rewrite IH.
Qed.

Lemma pushed_down_nil v tl tr (s : tree) : pushed_down v tl tr [] s s.
Proof.
  constructor; auto.
  - now destruct (data s !! Z.to_nat v) as [[|]|].
  - destruct (lazyTasks s !! Z.to_nat (2 * v)); simpl; [|reflexivity].
    now rewrite app_nil_r.
  - destruct (lazyTasks s !! Z.to_nat (2 * v + 1)); simpl; [|reflexivity].
    now rewrite app_nil_r.
Qed.

Lemma pushed_down_app v tl tr ts1 ts2 (s s1 s2 : tree) :
  1 <= v ->
  pushed_down v tl tr ts1 s s1 -> pushed_down v tl tr ts2 s1 s2 ->
  pushed_down v tl tr (ts1 ++ ts2) s s2.
Proof.
  intros Hv [A1 A2 A3 A4 A5 A6 A7 A8 A9] [B1 B2 B3 B4 B5 B6 B7 B8 B9].
  constructor; try congruence.
  - rewrite B4, A4. destruct (data s !! Z.to_nat v) as [[q|]|]; simpl; auto.
    now rewrite apply_tasks_app.
  - intros i Hi. rewrite B5, A5; auto.
  - rewrite B7, A7. destruct (lazyTasks s !! Z.to_nat (2 * v)); simpl; auto.
    now rewrite filter_app, app_assoc.
  - rewrite B8, A8. destruct (lazyTasks s !! Z.to_nat (2 * v + 1)); simpl; auto.
    now rewrite filter_app, app_assoc.
  - intros i H1 H2. rewrite B9, A9; auto.
Qed.


Lemma forward_task_inv v c t (s s' : tree) :
  forward_task v c t s = Done tt s' ->
  exists q, lazyTasks s !! Z.to_nat c = Some q
    /\ s' = mkSegmentTree (size s) (data s)
              (<[Z.to_nat c := q ++ [t]]> (lazyTasks s)).
Proof.
  unfold forward_task, lazyTasks_emplace_back. destruct (c =? v); [discriminate|].
  destruct (lazyTasks s !! Z.to_nat c) as [q|]; [|discriminate].
  intros H. injection H as <-. eauto.
Qed.

Lemma data_assign_inv v q (s s' : tree) :
  data_assign v q s = Done tt s' ->
  (Z.to_nat v < length (data s))%nat
  /\ s' = mkSegmentTree (size s) (<[Z.to_nat v := Some q]> (data s))
            (lazyTasks s).
Proof.
  unfold data_assign. destruct (data s !! Z.to_nat v) eqn:E; [|discriminate].
  intros H. injection H as <-. split; [|reflexivity].
  eapply lookup_lt_Some; eauto.
Qed.

Lemma execute_live_task v tl tr t (s s' : tree) q0 q1 :
  1 <= v -> 2 * v + 1 < 2 ^ 64 ->
  is_forwarded t = true ->
  apply_task t q0 tl tr = q1 ->
  data s !! Z.to_nat v = Some (Some q0) ->
  bind (data_assign v q1) (fun _ =>
  bind (forward_task v (wrap (2 * v)) t) (fun _ =>
  forward_task v (wrap (2 * v + 1)) t)) s = Done tt s' ->
  pushed_down v tl tr [t] s s'.
Proof.
  intros Hv Hw Hlive Happ Hd H. rewrite !wrap_small in H by lia.
  bind_inv H. units.
  apply data_assign_inv in E as [Hlt ->].
  apply forward_task_inv in E0 as (ql & Hql & ->). simpl in Hql.
  apply forward_task_inv in H as (qr & Hqr & ->). simpl in Hqr.
  assert (Hfw : filter (fun t : task QueryT => is_forwarded t = true) [t] = [t]).
  { rewrite filter_cons_True by exact Hlive. reflexivity. }
  constructor; simpl.
  - reflexivity.
  - apply length_insert.
  - now rewrite !length_insert.
  - rewrite Hd. simpl. rewrite list_lookup_insert_eq by exact Hlt.
    unfold apply_tasks. simpl. now rewrite Happ.
  - intros i Hi. apply list_lookup_insert_ne. auto.
  - rewrite !list_lookup_insert_ne by lia. reflexivity.
  - rewrite list_lookup_insert_ne by lia.
    rewrite list_lookup_insert_eq by (eapply lookup_lt_Some; eauto).
    rewrite Hql, Hfw. reflexivity.
  - rewrite list_lookup_insert_ne in Hqr by lia.
    rewrite list_lookup_insert_eq.
    + rewrite Hqr, Hfw. reflexivity.
    + rewrite length_insert. eapply lookup_lt_Some; eauto.
  - intros i H1 H2. rewrite !list_lookup_insert_ne by auto. reflexivity.
Qed.

Lemma execute_task_pushed_down v tl tr t (s s' : tree) :
  1 <= v -> 2 * v + 1 < 2 ^ 64 ->
  execute_task v tl tr t s = Done tt s' ->
  pushed_down v tl tr [t] s s'.
Proof.
  intros Hv Hw H. destruct t as [|f|f]; cbn [execute_task] in H.
  - injection H as <-.
    assert (Hnil : pushed_down v tl tr ([] ++ [monostate]) s s).
    { constructor; auto.
      - now destruct (data s !! Z.to_nat v) as [[|]|].
      - destruct (lazyTasks s !! Z.to_nat (2 * v)); simpl; [|reflexivity].
        rewrite filter_cons_False by (simpl; discriminate).
        now rewrite app_nil_r.
      - destruct (lazyTasks s !! Z.to_nat (2 * v + 1)); simpl; [|reflexivity].
        rewrite filter_cons_False by (simpl; discriminate).
        now rewrite app_nil_r. }
    exact Hnil.
  - unfold bind at 1 in H.
    destruct (data_at v s) as [d s1|] eqn:E; [|discriminate H].
    apply data_at_inv in E as [-> Hd].
    unfold bind at 1 in H.
    destruct (value v d s) as [q s1|] eqn:E; [|discriminate H].
    apply value_inv in E as [-> ->].
    eapply execute_live_task; eauto; reflexivity.
  - unfold bind at 1 in H.
    destruct (data_at v s) as [d s1|] eqn:E; [|discriminate H].
    apply data_at_inv in E as [-> Hd].
    unfold bind at 1 in H.
    destruct (value v d s) as [q s1|] eqn:E; [|discriminate H].
    apply value_inv in E as [-> ->].
    eapply execute_live_task; eauto; reflexivity.
Qed.

Lemma execute_tasks_pushed_down v tl tr ts : forall (s s' : tree),
  1 <= v -> 2 * v + 1 < 2 ^ 64 ->
  execute_tasks v tl tr ts s = Done tt s' ->
  pushed_down v tl tr ts s s'.
Proof.
  induction ts as [|t ts IH]; intros s s' Hv Hw H; cbn [execute_tasks] in H.
  - injection H as <-. apply pushed_down_nil.
  - unfold bind in H.
    destruct (execute_task v tl tr t s) as [[] s1|] eqn:E; [|discriminate H].
    change (t :: ts) with ([t] ++ ts).
    eapply pushed_down_app; eauto using execute_task_pushed_down.
Qed.

(** What a completed push-down at [v] did. *)
Lemma pushdown_spec v tl tr (s s' : tree) :
  1 <= v -> len (lazyTasks s) <= 2 ^ 63 ->
  _execute_lazy_tasks_and_pushdown v tl tr s = Done tt s' ->
  exists ts s1,
    lazyTasks s !! Z.to_nat v = Some ts
    /\ pushed_down v tl tr ts s s1
    /\ s' = mkSegmentTree (size s1) (data s1)
              (<[Z.to_nat v := []]> (lazyTasks s1)).
Proof.
  intros Hv Hlen H.
  assert (Hv0 : 0 <= v) by lia.
  pose proof (pushdown_in_bounds _ _ _ _ _ Hv0 H) as Hb.
  unfold _execute_lazy_tasks_and_pushdown in H.
  unfold bind at 1 in H.
  destruct (lazyTasks_at v s) as [ts s0|] eqn:E; [|discriminate H].
  apply lazyTasks_at_inv in E as [-> Hts].
  unfold bind in H.
  destruct (execute_tasks v tl tr ts s) as [[] s1|] eqn:E; [|discriminate H].
  apply execute_tasks_pushed_down in E; [|lia|lia].
  unfold lazyTasks_clear in H.
  destruct (lazyTasks s1 !! Z.to_nat v); [|discriminate H].
  injection H as <-. eauto.
Qed.


(** The push-down does not look at the range of its node: whether or not
    [tl = tr], a completed push-down has appended the node's tasks (all but
    [monostate]) to the queues at [2 * v] and [2 * v + 1]. *)
Lemma pushdown_forwards_at_every_node v tl tr ts (s s' : tree) :
  1 <= v -> len (lazyTasks s) <= 2 ^ 63 ->
  lazyTasks s !! Z.to_nat v = Some ts ->
  _execute_lazy_tasks_and_pushdown v tl tr s = Done tt s' ->
  lazyTasks s' !! Z.to_nat (2 * v)
  = (fun q => q ++ forwarded ts) <$> lazyTasks s !! Z.to_nat (2 * v)
  /\ lazyTasks s' !! Z.to_nat (2 * v + 1)
     = (fun q => q ++ forwarded ts) <$> lazyTasks s !! Z.to_nat (2 * v + 1).
Proof.
  intros Hv Hlen Hts H.
  destruct (pushdown_spec _ _ _ _ _ Hv Hlen H) as (ts' & s1 & Hts' & P & ->).
  assert (ts' = ts) as -> by congruence.
  cbn [lazyTasks]. rewrite !list_lookup_insert_ne by lia.
  split; [apply (pd_lazy_left _ _ _ _ _ _ P)|apply (pd_lazy_right _ _ _ _ _ _ P)].
Qed.

Lemma leaf_value_step fuel v tl tr j inh (s : tree) :
  leaf_value (S fuel) v tl tr j inh s
  = match lazyTasks s !! Z.to_nat v with
    | None => None
    | Some queue =>
        if tl =? tr then
          match data s !! Z.to_nat v with
          | Some (Some q) =>
              Some (apply_tasks (forwarded (queue ++ inh)) q tl tr)
          | _ => None
          end
        else if j <=? (tl + tr) / 2
        then leaf_value fuel (2 * v) tl ((tl + tr) / 2) j
               (forwarded (queue ++ inh)) s
        else leaf_value fuel (2 * v + 1) ((tl + tr) / 2 + 1) tr j
               (forwarded (queue ++ inh)) s
    end.
Proof. reflexivity. Qed.

Lemma agree_below_left v (s t : tree) : agree_below v s t -> agree_below (2 * v) s t.
Proof. intros H i Hi. apply H. now apply desc_left. Qed.

Lemma agree_below_right v (s t : tree) :
  agree_below v s t -> agree_below (2 * v + 1) s t.
Proof. intros H i Hi. apply H. now apply desc_right. Qed.

Lemma agree_below_node v (s t : tree) :
  0 <= v -> agree_below v s t ->
  data t !! Z.to_nat v = data s !! Z.to_nat v
  /\ lazyTasks t !! Z.to_nat v = lazyTasks s !! Z.to_nat v.
Proof.
  intros Hv H. apply H. rewrite Z2Nat.id by lia. apply desc_self.
Qed.

Lemma leaf_value_agree fuel : forall v tl tr j inh (s t : tree),
  0 <= v -> agree_below v s t ->
  leaf_value fuel v tl tr j inh t = leaf_value fuel v tl tr j inh s.
Proof.
  induction fuel as [|fuel IH]; intros v tl tr j inh s t Hv H; [reflexivity|].
  rewrite !leaf_value_step.
  destruct (agree_below_node _ _ _ Hv H) as [-> ->].
  destruct (lazyTasks s !! Z.to_nat v) as [q|]; [|reflexivity].
  destruct (tl =? tr); [reflexivity|].
  destruct (j <=? (tl + tr) / 2).
  - apply IH; [lia|]. now apply agree_below_left.
  - apply IH; [lia|]. now apply agree_below_right.
Qed.

Lemma leaf_value_cong fuel v tl tr j inh_s inh_t (s t : tree) :
  0 <= v ->
  (fun q => forwarded (q ++ inh_t)) <$> lazyTasks t !! Z.to_nat v
  = (fun q => forwarded (q ++ inh_s)) <$> lazyTasks s !! Z.to_nat v ->
  (tl = tr -> data t !! Z.to_nat v = data s !! Z.to_nat v) ->
  agree_below (2 * v) s t -> agree_below (2 * v + 1) s t ->
  leaf_value fuel v tl tr j inh_t t = leaf_value fuel v tl tr j inh_s s.
Proof.
  intros Hv Hq Hd Hl Hr. destruct fuel as [|fuel]; [reflexivity|].
  rewrite !leaf_value_step.
  destruct (lazyTasks t !! Z.to_nat v) as [qt|],
    (lazyTasks s !! Z.to_nat v) as [qs|]; simpl in Hq; try discriminate;
    [|reflexivity].
  injection Hq as Hq. rewrite Hq.
  destruct (Z.eqb_spec tl tr) as [Heq|Hne].
  - now rewrite (Hd Heq).
  - destruct (j <=? (tl + tr) / 2); apply leaf_value_agree; auto; lia.
Qed.

Lemma option_map_id {A} (o : option A) : option_map (fun x => x) o = o.
Proof. now destruct o. Qed.

Lemma leaf_value_snoc fuel t : forall v tl tr j inh (s : tree),
  tl <= j <= tr ->
  leaf_value fuel v tl tr j (inh ++ [t]) s
  = option_map (fun x => apply_task t x j j) (leaf_value fuel v tl tr j inh s).
Proof.
  induction fuel as [|fuel IH]; intros v tl tr j inh s Hj; [reflexivity|].
  rewrite !leaf_value_step.
  destruct (lazyTasks s !! Z.to_nat v) as [q|]; [|reflexivity].
  rewrite app_assoc, filter_app.
  assert (Hmid : tl < tr -> tl <= (tl + tr) / 2 < tr).
  { intros. split; [apply Z.div_le_lower_bound|apply Z.div_lt_upper_bound]; lia. }
  destruct (is_forwarded t) eqn:Ht.
  - rewrite (filter_cons_True _ t []) by exact Ht. rewrite filter_nil.
    destruct (Z.eqb_spec tl tr) as [Heq|Hne].
    + destruct (data s !! Z.to_nat v) as [[x|]|]; try reflexivity.
      simpl. rewrite apply_tasks_app. f_equal.
      assert (tl = j /\ tr = j) as [-> ->] by lia. reflexivity.
    + destruct (Z.leb_spec j ((tl + tr) / 2)); apply IH; lia.
  - rewrite (filter_cons_False _ t []) by (rewrite Ht; discriminate).
    rewrite filter_nil, app_nil_r.
    assert (Hid : forall o : option QueryT,
               option_map (fun x => apply_task t x j j) o = o).
    { intros [x|]; [|reflexivity]. destruct t; try discriminate Ht. reflexivity. }
    now rewrite Hid.
Qed.


(** After a push-down at [v], a position below [v] holds what it held. *)
Lemma pushdown_leaf_value v tl tr (s s' : tree) :
  1 <= v -> len (lazyTasks s) <= 2 ^ 63 ->
  _execute_lazy_tasks_and_pushdown v tl tr s = Done tt s' ->
  forall fuel j,
    leaf_value fuel v tl tr j [] s' = leaf_value fuel v tl tr j [] s.
Proof.
  intros Hv Hlen H fuel j.
  destruct (pushdown_spec _ _ _ _ _ Hv Hlen H) as (ts & s1 & Hts & P & ->).
  destruct P as [P1 P2 P3 P4 P5 P6 P7 P8 P9].
  assert (Hvlt : (Z.to_nat v < length (lazyTasks s1))%nat).
  { rewrite P3. eapply lookup_lt_Some; eauto. }
  destruct fuel as [|fuel]; [reflexivity|].
  rewrite !leaf_value_step. cbn [lazyTasks data].
  rewrite list_lookup_insert_eq by exact Hvlt. rewrite Hts.
  rewrite !app_nil_r. rewrite filter_nil.
  destruct (tl =? tr).
  { rewrite P4. destruct (data s !! Z.to_nat v) as [[x|]|]; try reflexivity.
    simpl. now rewrite apply_tasks_forwarded. }
  assert (Hbelow : forall c, (c = 2 * v \/ c = 2 * v + 1) ->
            agree_below (2 * c) s
              (mkSegmentTree (size s1) (data s1)
                 (<[Z.to_nat v := []]> (lazyTasks s1)))
            /\ agree_below (2 * c + 1) s
                 (mkSegmentTree (size s1) (data s1)
                    (<[Z.to_nat v := []]> (lazyTasks s1)))).
  { intros c Hc. split; intros i Hi; apply desc_ge in Hi; try lia; cbn [data lazyTasks];
      (split; [apply P5; lia|]);
      (rewrite list_lookup_insert_ne by lia; apply P9; lia). }
  assert (Hchild : forall c tl' tr', (c = 2 * v \/ c = 2 * v + 1) ->
            leaf_value fuel c tl' tr' j []
              (mkSegmentTree (size s1) (data s1)
                 (<[Z.to_nat v := []]> (lazyTasks s1)))
            = leaf_value fuel c tl' tr' j (forwarded ts) s).
  { intros c tl' tr' Hc. destruct (Hbelow c Hc) as [Bl Br].
    apply leaf_value_cong; auto; try lia; cbn [data lazyTasks].
    - rewrite list_lookup_insert_ne by lia.
      destruct Hc as [-> | ->]; [rewrite P7|rewrite P8];
        (match goal with |- context [lazyTasks s !! ?i] =>
           destruct (lazyTasks s !! i) as [q|] end; [|reflexivity]);
        simpl; now rewrite app_nil_r, filter_app, forwarded_idemp, <- filter_app.
    - intros _. apply P5. lia. }
  destruct (j <=? (tl + tr) / 2); apply Hchild; auto.
Qed.


Lemma modifies_left_agree_right v (s s' : tree) :
  1 <= v -> modifies (desc (2 * v)) s s' -> agree_below (2 * v + 1) s s'.
Proof.
  intros Hv Mo i Hi.
  assert (Hn : ~ desc (2 * v) (Z.of_nat i)).
  { intros D. eapply desc_disjoint; eauto. }
  split; [apply (mod_data _ _ _ Mo _ Hn)|apply (mod_lazy _ _ _ Mo _ Hn)].
Qed.

Lemma modifies_right_agree_left v (s s' : tree) :
  1 <= v -> modifies (desc (2 * v + 1)) s s' -> agree_below (2 * v) s s'.
Proof.
  intros Hv Mo i Hi.
  assert (Hn : ~ desc (2 * v + 1) (Z.of_nat i)).
  { intros D. eapply desc_disjoint; eauto. }
  split; [apply (mod_data _ _ _ Mo _ Hn)|apply (mod_lazy _ _ _ Mo _ Hn)].
Qed.

Lemma modifies_child_node c v (s s' : tree) :
  1 <= v -> c = 2 * v \/ c = 2 * v + 1 -> modifies (desc c) s s' ->
  data s' !! Z.to_nat v = data s !! Z.to_nat v
  /\ lazyTasks s' !! Z.to_nat v = lazyTasks s !! Z.to_nat v.
Proof.
  intros Hv Hc Mo.
  assert (Hn : ~ desc c (Z.of_nat (Z.to_nat v))).
  { rewrite Z2Nat.id by lia. intros D. apply desc_ge in D; lia. }
  split; [apply (mod_data _ _ _ Mo _ Hn)|apply (mod_lazy _ _ _ Mo _ Hn)].
Qed.

Lemma modifies_lazy_len P (s s' : tree) b :
  modifies P s s' -> len (lazyTasks s) <= b -> len (lazyTasks s') <= b.
Proof. intros Mo H. unfold len in *. now rewrite (mod_lazy_len _ _ _ Mo). Qed.

Lemma mid_bounds tl tr :
  tl < tr -> tl <= (tl + tr) / 2 < tr.
Proof.
  intros. split; [apply Z.div_le_lower_bound|apply Z.div_lt_upper_bound]; lia.
Qed.

Context (plus : QueryT -> QueryT -> QueryT).

(** A query leaves every position holding what it held. *)
Lemma _query_tree_leaf_values fuel :
  forall v tl tr ql qr (s s' : tree) r,
    1 <= v -> len (lazyTasks s) <= 2 ^ 63 -> 0 <= tl <= tr -> tr < 2 ^ 63 ->
    _query_tree plus true fuel v tl tr ql qr s = Done r s' ->
    forall f j, leaf_value f v tl tr j [] s' = leaf_value f v tl tr j [] s.
Proof.
  induction fuel as [|fuel IH]; intros v tl tr ql qr s s' r Hv Hlen Hr Htr H f j;
    [discriminate H|].
  rewrite _query_tree_step in H. unfold bind at 1 in H.
  destruct (_execute_lazy_tasks_and_pushdown v tl tr s) as [[] sa|] eqn:P;
    [|discriminate H].
  rewrite <- (pushdown_leaf_value _ _ _ _ _ Hv Hlen P f j).
  assert (Hv0 : 0 <= v) by lia.
  pose proof (pushdown_in_bounds _ _ _ _ _ Hv0 P) as Hb.
  pose proof (pushdown_clears _ _ _ _ _ P) as Hclr.
  pose proof (pushdown_modifies _ _ _ _ _ Hv0 P) as Hsa.
  pose proof (modifies_lazy_len _ _ _ _ Hsa Hlen) as Hlen'.
  destruct ((tl >? qr) || (tr <? ql)) eqn:Hout.
  { injection H as _ <-. reflexivity. }
  destruct ((ql <=? tl) && (tr <=? qr)) eqn:Hin.
  { apply data_at_inv in H as [-> _]. reflexivity. }
  assert (Hlt : tl < tr) by lia.
  pose proof (mid_bounds _ _ Hlt) as Hmid.
  rewrite mid_spec in H by lia. rewrite !wrap_small in H by lia.
  unfold bind at 1 in H.
  destruct (_query_tree plus true fuel (2 * v) tl ((tl + tr) / 2) ql qr sa)
    as [rl sb|] eqn:E1; [|discriminate H].
  unfold bind at 1 in H.
  destruct (_query_tree plus true fuel (2 * v + 1) ((tl + tr) / 2 + 1) tr ql qr sb)
    as [rr sc|] eqn:E2; [|discriminate H].
  assert (s' = sc) as -> by (destruct rl, rr; now inversion H).
  assert (Hv2 : 0 <= 2 * v) by lia. assert (Hv3 : 0 <= 2 * v + 1) by lia.
  pose proof (_query_tree_modifies plus _ _ _ _ _ _ _ _ _ Hv2 Hlen' E1) as M1.
  pose proof (modifies_lazy_len _ _ _ _ M1 Hlen') as Hlen''.
  pose proof (_query_tree_modifies plus _ _ _ _ _ _ _ _ _ Hv3 Hlen'' E2) as M2.
  destruct f as [|f]; [reflexivity|].
  rewrite !leaf_value_step.
  destruct (modifies_child_node _ _ _ _ Hv (or_introl eq_refl) M1) as [_ L1].
  destruct (modifies_child_node _ _ _ _ Hv (or_intror eq_refl) M2) as [_ L2].
  rewrite L2, L1, Hclr.
  assert ((tl =? tr) = false) as -> by lia.
  rewrite app_nil_r, filter_nil.
  destruct (j <=? (tl + tr) / 2).
  - rewrite (leaf_value_agree f (2 * v) _ _ _ _ sb sc Hv2
               (modifies_right_agree_left _ _ _ Hv M2)).
    eapply IH; [| | | |exact E1]; lia.
  - assert (Hv3' : 1 <= 2 * v + 1) by lia.
    assert (Hr' : 0 <= (tl + tr) / 2 + 1 <= tr) by lia.
    rewrite (IH _ _ _ _ _ _ _ _ Hv3' Hlen'' Hr' Htr E2).
    apply leaf_value_agree; [lia|].
    now apply modifies_left_agree_right.
Qed.


Lemma _query_tree_outside lazy fuel v tl tr ql qr (s s' : tree) r :
  tl > qr \/ tr < ql ->
  _query_tree plus lazy fuel v tl tr ql qr s = Done r s' -> r = None.
Proof.
  intros Hout H. destruct fuel as [|fuel]; [discriminate H|].
  rewrite _query_tree_step in H. unfold bind at 1 in H.
  destruct (if lazy then _ else _) as [[] sa|]; [|discriminate H].
  assert (((tl >? qr) || (tr <? ql)) = true) as Hc by lia.
  rewrite Hc in H. now injection H as <- _.
Qed.

(** A query for the single position [j] returns what that position holds. *)
Lemma _query_tree_position fuel :
  forall v tl tr j (s s' : tree) r,
    1 <= v -> len (lazyTasks s) <= 2 ^ 63 -> 0 <= tl <= tr -> tr < 2 ^ 63 ->
    tl <= j <= tr ->
    _query_tree plus true fuel v tl tr j j s = Done r s' ->
    r = leaf_value fuel v tl tr j [] s.
Proof.
  induction fuel as [|fuel IH]; intros v tl tr j s s' r Hv Hlen Hr Htr Hj H;
    [discriminate H|].
  rewrite _query_tree_step in H. unfold bind at 1 in H.
  destruct (_execute_lazy_tasks_and_pushdown v tl tr s) as [[] sa|] eqn:P;
    [|discriminate H].
  rewrite <- (pushdown_leaf_value _ _ _ _ _ Hv Hlen P (S fuel) j).
  assert (Hv0 : 0 <= v) by lia.
  pose proof (pushdown_clears _ _ _ _ _ P) as Hclr.
  pose proof (pushdown_modifies _ _ _ _ _ Hv0 P) as Hsa.
  pose proof (modifies_lazy_len _ _ _ _ Hsa Hlen) as Hlen'.
  pose proof (pushdown_in_bounds _ _ _ _ _ Hv0 P) as Hb.
  rewrite leaf_value_step, Hclr, app_nil_r, filter_nil.
  assert (((tl >? j) || (tr <? j)) = false) as Hc by lia. rewrite Hc in H.
  destruct (Z.eqb_spec tl tr) as [Heq|Hne].
  - assert (((j <=? tl) && (tr <=? j)) = true) as Hc' by lia. rewrite Hc' in H.
    apply data_at_inv in H as [_ Hd]. rewrite Hd. now destruct r.
  - assert (((j <=? tl) && (tr <=? j)) = false) as Hc' by lia. rewrite Hc' in H.
    assert (Hlt : tl < tr) by lia.
    pose proof (mid_bounds _ _ Hlt) as Hmid.
    rewrite mid_spec in H by lia. rewrite !wrap_small in H by lia.
    unfold bind at 1 in H.
    destruct (_query_tree plus true fuel (2 * v) tl ((tl + tr) / 2) j j sa)
      as [rl sb|] eqn:E1; [|discriminate H].
    unfold bind at 1 in H.
    destruct (_query_tree plus true fuel (2 * v + 1) ((tl + tr) / 2 + 1) tr j j sb)
      as [rr sc|] eqn:E2; [|discriminate H].
    assert (Hv2 : 0 <= 2 * v) by lia.
    pose proof (_query_tree_modifies plus _ _ _ _ _ _ _ _ _ Hv2 Hlen' E1) as M1.
    pose proof (modifies_lazy_len _ _ _ _ M1 Hlen') as Hlen''.
    destruct (Z.leb_spec j ((tl + tr) / 2)) as [Hle|Hgt].
    + assert (rr = None) as ->.
      { eapply _query_tree_outside; [|exact E2]. lia. }
      assert (Hv2' : 1 <= 2 * v) by lia.
      assert (Hr' : 0 <= tl <= (tl + tr) / 2) by lia.
      assert (Htr' : (tl + tr) / 2 < 2 ^ 63) by lia.
      assert (Hj' : tl <= j <= (tl + tr) / 2) by lia.
      rewrite <- (IH _ _ _ _ _ _ _ Hv2' Hlen' Hr' Htr' Hj' E1).
      destruct rl; now inversion H.
    + assert (rl = None) as ->.
      { eapply _query_tree_outside; [|exact E1]. lia. }
      assert (Hv3' : 1 <= 2 * v + 1) by lia.
      assert (Hr' : 0 <= (tl + tr) / 2 + 1 <= tr) by lia.
      assert (Hj' : (tl + tr) / 2 + 1 <= j <= tr) by lia.
      rewrite <- (leaf_value_agree fuel (2 * v + 1) _ _ _ _ sa sb ltac:(lia)
                    (modifies_left_agree_right _ _ _ Hv M1)).
      rewrite <- (IH _ _ _ _ _ _ _ Hv3' Hlen'' Hr' Htr Hj' E2).
      now inversion H.
Qed.


Lemma _update_tree_step fuel U u v tl tr ul ur :
  _update_tree plus true (S fuel) U u v tl tr ul ur
  = bind (_execute_lazy_tasks_and_pushdown v tl tr) (fun _ =>
      if (tl >? ur) || (tr <? ul) then ret tt
      else if (ul <=? tl) && (tr <=? ur) then
        lazyTasks_emplace_back v (task_of u)
      else
        bind (_update_tree plus true fuel (deduce_from_lvalue U) u (wrap (2 * v))
                tl (Z.shiftr (wrap (tl + tr)) 1) ul ur) (fun _ =>
        bind (_update_tree plus true fuel (deduce_from_lvalue U) u
                (wrap (2 * v + 1)) (wrap (Z.shiftr (wrap (tl + tr)) 1 + 1)) tr
                ul ur) (fun _ =>
        _merge_childs plus v))).
Proof. reflexivity. Qed.

Lemma _merge_childs_modifies v (s s' : tree) :
  0 <= v -> _merge_childs plus v s = Done tt s' -> modifies (eq v) s s'.
Proof.
  intros Hv H. unfold _merge_childs in H. unfold bind at 1 in H.
  unfold bind at 1 in H.
  destruct (assert _ s) as [[] s0|] eqn:A; [|discriminate H].
  assert (s0 = s) as ->.
  { unfold assert in A. destruct (_ <? _); [now inversion A|discriminate A]. }
  bind_inv H.
  apply data_at_inv in E as [-> _]. apply value_inv in E0 as [-> _].
  apply data_at_inv in E1 as [-> _]. apply value_inv in E2 as [-> _].
  now apply data_assign_modifies in H.
Qed.

Lemma _merge_childs_lazyTasks v (s s' : tree) :
  _merge_childs plus v s = Done tt s' -> lazyTasks s' = lazyTasks s.
Proof.
  intros H. unfold _merge_childs in H. unfold bind at 1 in H.
  unfold bind at 1 in H.
  destruct (assert _ s) as [[] s0|] eqn:A; [|discriminate H].
  assert (s0 = s) as ->.
  { unfold assert in A. destruct (_ <? _); [now inversion A|discriminate A]. }
  bind_inv H.
  apply data_at_inv in E as [-> _]. apply value_inv in E0 as [-> _].
  apply data_at_inv in E1 as [-> _]. apply value_inv in E2 as [-> _].
  apply data_assign_inv in H as [_ ->]. reflexivity.
Qed.

Lemma _update_tree_modifies fuel :
  forall U u v tl tr ul ur (s s' : tree),
    0 <= v -> len (lazyTasks s) <= 2 ^ 63 ->
    _update_tree plus true fuel U u v tl tr ul ur s = Done tt s' ->
    modifies (desc v) s s'.
Proof.
  induction fuel as [|fuel IH]; intros U u v tl tr ul ur s s' Hv Hlen H;
    [discriminate H|].
  rewrite _update_tree_step in H. unfold bind at 1 in H.
  destruct (_execute_lazy_tasks_and_pushdown v tl tr s) as [[] sa|] eqn:P;
    [|discriminate H].
  pose proof (pushdown_in_bounds _ _ _ _ _ Hv P) as Hb.
  assert (Hsa : modifies (desc v) s sa).
  { eapply modifies_weaken; [|eapply pushdown_modifies; eauto].
    intros x. apply node_and_children_desc. lia. }
  pose proof (modifies_lazy_len _ _ _ _ Hsa Hlen) as Hlen'.
  destruct ((tl >? ur) || (tr <? ul)).
  { injection H as <-. exact Hsa. }
  destruct ((ul <=? tl) && (tr <=? ur)).
  { eapply modifies_trans; [exact Hsa|].
    eapply modifies_weaken; [|eapply emplace_back_modifies; eauto].
    intros x <-. apply desc_self. }
  unfold bind at 1 in H. rewrite (wrap_small (2 * v)) in H by lia.
  destruct (_update_tree plus true fuel _ u (2 * v) tl _ ul ur sa)
    as [[] sb|] eqn:E1; [|discriminate H].
  unfold bind at 1 in H. rewrite (wrap_small (2 * v + 1)) in H by lia.
  destruct (_update_tree plus true fuel _ u (2 * v + 1) _ tr ul ur sb)
    as [[] sc|] eqn:E2; [|discriminate H].
  apply IH in E1; [|lia|exact Hlen'].
  pose proof (modifies_lazy_len _ _ _ _ E1 Hlen') as Hlen''.
  apply IH in E2; [|lia|exact Hlen''].
  apply _merge_childs_modifies in H; [|exact Hv].
  eapply modifies_trans; [exact Hsa|].
  eapply modifies_trans; [|eapply modifies_trans].
  - eapply modifies_weaken; [|exact E1]. intros x. apply desc_left.
  - eapply modifies_weaken; [|exact E2]. intros x. apply desc_right.
  - eapply modifies_weaken; [|exact H]. intros x <-. apply desc_self.
Qed.


Lemma emplace_back_leaf_value v t (s s' : tree) tl tr :
  1 <= v ->
  lazyTasks s !! Z.to_nat v = Some [] ->
  lazyTasks_emplace_back v t s = Done tt s' ->
  forall f j, tl <= j <= tr ->
    leaf_value f v tl tr j [] s'
    = option_map (fun x => apply_task t x j j) (leaf_value f v tl tr j [] s).
Proof.
  intros Hv Hq H f j Hj.
  unfold lazyTasks_emplace_back in H. rewrite Hq in H. injection H as <-.
  rewrite <- (leaf_value_snoc f t v tl tr j [] s Hj).
  apply leaf_value_cong; cbn [data lazyTasks]; auto; try lia.
  - rewrite list_lookup_insert_eq by (eapply lookup_lt_Some; eauto).
    rewrite Hq. reflexivity.
  - intros i Hi. apply desc_ge in Hi; [|lia].
    split; [reflexivity|]. apply list_lookup_insert_ne. lia.
  - intros i Hi. apply desc_ge in Hi; [|lia].
    split; [reflexivity|]. apply list_lookup_insert_ne. lia.
Qed.

Lemma _update_tree_leaf_values fuel :
  forall U u v tl tr ul ur (s s' : tree),
    1 <= v -> len (lazyTasks s) <= 2 ^ 63 -> 0 <= tl <= tr -> tr < 2 ^ 63 ->
    _update_tree plus true fuel U u v tl tr ul ur s = Done tt s' ->
    forall f j, tl <= j <= tr ->
      leaf_value f v tl tr j [] s'
      = updated u ul ur j (leaf_value f v tl tr j [] s).
Proof.
  induction fuel as [|fuel IH]; intros U u v tl tr ul ur s s' Hv Hlen Hr Htr H f j Hj;
    [discriminate H|].
  rewrite _update_tree_step in H. unfold bind at 1 in H.
  destruct (_execute_lazy_tasks_and_pushdown v tl tr s) as [[] sa|] eqn:P;
    [|discriminate H].
  rewrite <- (pushdown_leaf_value _ _ _ _ _ Hv Hlen P f j).
  assert (Hv0 : 0 <= v) by lia.
  pose proof (pushdown_in_bounds _ _ _ _ _ Hv0 P) as Hb.
  pose proof (pushdown_clears _ _ _ _ _ P) as Hclr.
  pose proof (pushdown_modifies _ _ _ _ _ Hv0 P) as Hsa.
  pose proof (modifies_lazy_len _ _ _ _ Hsa Hlen) as Hlen'.
  unfold updated.
  destruct ((tl >? ur) || (tr <? ul)) eqn:Hout.
  { injection H as <-.
    assert (((ul <=? j) && (j <=? ur)) = false) as -> by lia. reflexivity. }
  destruct ((ul <=? tl) && (tr <=? ur)) eqn:Hin.
  { assert (((ul <=? j) && (j <=? ur)) = true) as -> by lia.
    eapply emplace_back_leaf_value; eauto. }
  assert (Hlt : tl < tr) by lia.
  pose proof (mid_bounds _ _ Hlt) as Hmid.
  rewrite mid_spec in H by lia.
  unfold bind at 1 in H. rewrite (wrap_small (2 * v)) in H by lia.
  destruct (_update_tree plus true fuel _ u (2 * v) tl _ ul ur sa)
    as [[] sb|] eqn:E1; [|discriminate H].
  unfold bind at 1 in H. rewrite (wrap_small (2 * v + 1)) in H by lia.
  rewrite (wrap_small ((tl + tr) / 2 + 1)) in H by lia.
  destruct (_update_tree plus true fuel _ u (2 * v + 1) _ tr ul ur sb)
    as [[] sc|] eqn:E2; [|discriminate H].
  assert (Hv2 : 0 <= 2 * v) by lia. assert (Hv3 : 0 <= 2 * v + 1) by lia.
  pose proof (_update_tree_modifies _ _ _ _ _ _ _ _ _ _ Hv2 Hlen' E1) as M1.
  pose proof (modifies_lazy_len _ _ _ _ M1 Hlen') as Hlen''.
  pose proof (_update_tree_modifies _ _ _ _ _ _ _ _ _ _ Hv3 Hlen'' E2) as M2.
  pose proof (_merge_childs_modifies _ _ _ Hv0 H) as M3.
  destruct f as [|f]; [now destruct ((ul <=? j) && (j <=? ur))|].
  rewrite !leaf_value_step.
  destruct (modifies_child_node _ _ _ _ Hv (or_introl eq_refl) M1) as [_ L1].
  destruct (modifies_child_node _ _ _ _ Hv (or_intror eq_refl) M2) as [_ L2].
  assert (L3 : lazyTasks s' !! Z.to_nat v = lazyTasks sc !! Z.to_nat v)
    by now rewrite (_merge_childs_lazyTasks _ _ _ H).
  rewrite L3, L2, L1, Hclr.
  assert ((tl =? tr) = false) as -> by lia.
  rewrite app_nil_r, filter_nil.
  assert (A3l : agree_below (2 * v) sc s').
  { intros i Hi. apply desc_ge in Hi; [|lia].
    split; [apply (mod_data _ _ _ M3)|apply (mod_lazy _ _ _ M3)]; lia. }
  assert (A3r : agree_below (2 * v + 1) sc s').
  { intros i Hi. apply desc_ge in Hi; [|lia].
    split; [apply (mod_data _ _ _ M3)|apply (mod_lazy _ _ _ M3)]; lia. }
  destruct (Z.leb_spec j ((tl + tr) / 2)) as [Hle|Hgt].
  - rewrite (leaf_value_agree f (2 * v) _ _ _ _ sc s' Hv2 A3l).
    rewrite (leaf_value_agree f (2 * v) _ _ _ _ sb sc Hv2
               (modifies_right_agree_left _ _ _ Hv M2)).
    assert (Hv2' : 1 <= 2 * v) by lia.
    assert (Hr' : 0 <= tl <= (tl + tr) / 2) by lia.
    assert (Htr' : (tl + tr) / 2 < 2 ^ 63) by lia.
    assert (Hj' : tl <= j <= (tl + tr) / 2) by lia.
    exact (IH _ _ _ _ _ _ _ _ _ Hv2' Hlen' Hr' Htr' E1 f j Hj').
  - rewrite (leaf_value_agree f (2 * v + 1) _ _ _ _ sc s' Hv3 A3r).
    assert (Hv3' : 1 <= 2 * v + 1) by lia.
    assert (Hr' : 0 <= (tl + tr) / 2 + 1 <= tr) by lia.
    assert (Hj' : (tl + tr) / 2 + 1 <= j <= tr) by lia.
    rewrite (IH _ _ _ _ _ _ _ _ _ Hv3' Hlen'' Hr' Htr E2 f j Hj').
    rewrite (leaf_value_agree f (2 * v + 1) _ _ _ _ sa sb Hv3
               (modifies_left_agree_right _ _ _ Hv M1)).
    reflexivity.
Qed.


(** ** The public operations on a tree with lazy propagation *)

(** [query(j)] returns what position [j] holds. *)
Theorem query_position_value (s s' : tree) j r :
  size s <= 2 ^ 63 -> len (lazyTasks s) <= 2 ^ 63 ->
  query plus true j s = Done r s' ->
  r = position_value s j.
Proof.
  intros Hsz Hlen H. unfold query, position_value in *.
  generalize dependent recursion_depth. intros fuel H.
  unfold bind, get_size, assert in H.
  destruct ((0 <=? j) && (j <? size s)) eqn:A; [|discriminate H].
  cbv beta iota in H. unfold ret in H. rewrite wrap_small in H by lia.
  eapply _query_tree_position; [| | | | |exact H]; lia.
Qed.

Lemma _query_tree_size fuel v tl tr ql qr (s s' : tree) r :
  0 <= v -> len (lazyTasks s) <= 2 ^ 63 ->
  _query_tree plus true fuel v tl tr ql qr s = Done r s' ->
  size s' = size s /\ len (lazyTasks s') <= 2 ^ 63.
Proof.
  intros Hv Hlen H. pose proof (_query_tree_modifies plus _ _ _ _ _ _ _ _ _ Hv Hlen H) as Mo.
  split; [apply (mod_size _ _ _ Mo)|eapply modifies_lazy_len; eauto].
Qed.

(** A query leaves every position holding what it held. *)
Theorem query_preserves_position_values (s s' : tree) l r v :
  size s <= 2 ^ 63 -> len (lazyTasks s) <= 2 ^ 63 ->
  query plus true l s = Done v s' \/ query_range plus true l r s = Done v s' ->
  size s' = size s /\ len (lazyTasks s') <= 2 ^ 63
  /\ forall j, position_value s' j = position_value s j.
Proof.
  intros Hsz Hlen H. unfold query, query_range, position_value in *.
  generalize dependent recursion_depth. intros fuel H.
  unfold bind, get_size, assert in H.
  assert (Hv : 0 <= 1) by lia.
  destruct H as [H|H].
  - destruct ((0 <=? l) && (l <? size s)) eqn:A; [|discriminate H].
    cbv beta iota in H. unfold ret in H. rewrite wrap_small in H by lia.
    destruct (_query_tree_size _ _ _ _ _ _ _ _ _ Hv Hlen H) as [E Hl].
    split; [exact E|]. split; [exact Hl|]. intros j. rewrite E.
    eapply _query_tree_leaf_values; [| | | |exact H]; lia.
  - destruct ((0 <=? l) && (l <=? r) && (r <? size s)) eqn:A; [|discriminate H].
    cbv beta iota in H. unfold ret in H. rewrite wrap_small in H by lia.
    destruct (_query_tree_size _ _ _ _ _ _ _ _ _ Hv Hlen H) as [E Hl].
    split; [exact E|]. split; [exact Hl|]. intros j. rewrite E.
    eapply _query_tree_leaf_values; [| | | |exact H]; lia.
Qed.

(** An update that completes applies the updater, with the position as
    both boundaries, to what each position of [l .. r] holds, and leaves
    what the other positions hold. *)
Theorem update_position_values (u : updater QueryT) (s s' : tree) l r :
  size s <= 2 ^ 63 -> len (lazyTasks s) <= 2 ^ 63 ->
  update plus true u l s = Done tt s' /\ r = l
  \/ update_range plus true u l r s = Done tt s' ->
  size s' = size s /\ len (lazyTasks s') <= 2 ^ 63
  /\ forall j, 0 <= j < size s ->
       position_value s' j = updated u l r j (position_value s j).
Proof.
  intros Hsz Hlen H. unfold update, update_range, position_value in *.
  generalize dependent recursion_depth. intros fuel H.
  unfold bind, get_size, assert in H.
  assert (Hv : 0 <= 1) by lia.
  assert (Hmain : forall U,
            0 < size s ->
            _update_tree plus true fuel U u 1 0 (size s - 1) l r s = Done tt s' ->
            size s' = size s /\ len (lazyTasks s') <= 2 ^ 63
            /\ forall j, 0 <= j < size s ->
                 leaf_value fuel 1 0 (size s' - 1) j [] s'
                 = updated u l r j (leaf_value fuel 1 0 (size s - 1) j [] s)).
  { intros U Hpos H0.
    pose proof (_update_tree_modifies _ _ _ _ _ _ _ _ _ _ Hv Hlen H0) as Mo.
    split; [apply (mod_size _ _ _ Mo)|]. split; [eapply modifies_lazy_len; eauto|].
    intros j Hj. rewrite (mod_size _ _ _ Mo).
    eapply _update_tree_leaf_values; [| | | |exact H0|]; lia. }
  destruct H as [[H ->]|H].
  - destruct ((0 <=? l) && (l <? size s)) eqn:A; [|discriminate H].
    cbv beta iota in H. unfold ret in H. rewrite wrap_small in H by lia.
    eapply Hmain; [lia|exact H].
  - destruct ((0 <=? l) && (l <=? r) && (r <? size s)) eqn:A; [|discriminate H].
    cbv beta iota in H. unfold ret in H. rewrite wrap_small in H by lia.
    eapply Hmain; [lia|exact H].
Qed.

Lemma after_queries_position_values (s s' : tree) :
  size s <= 2 ^ 63 -> len (lazyTasks s) <= 2 ^ 63 ->
  after_queries plus s s' ->
  size s' = size s /\ len (lazyTasks s') <= 2 ^ 63
  /\ forall j, position_value s' j = position_value s j.
Proof.
  intros Hsz Hlen A. induction A as [|s1 s2 p r A IH Q|s1 s2 l r v A IH Q].
  - auto.
  - destruct IH as (E1 & L1 & V1).
    assert (Hsz1 : size s1 <= 2 ^ 63) by lia.
    destruct (query_preserves_position_values s1 s2 p p r Hsz1 L1
                (or_introl Q)) as (E2 & L2 & V2).
    split; [congruence|]. split; [exact L2|]. intros j. now rewrite V2, V1.
  - destruct IH as (E1 & L1 & V1).
    assert (Hsz1 : size s1 <= 2 ^ 63) by lia.
    destruct (query_preserves_position_values s1 s2 l r v Hsz1 L1
                (or_intror Q)) as (E2 & L2 & V2).
    split; [congruence|]. split; [exact L2|]. intros j. now rewrite V2, V1.
Qed.

(** The frame property of an update, for as long as nothing faults: if
    [update(u, l, r)] completes, and after any number of completed queries
    [query(j)] for a position [j] outside [l .. r] completes, it returns
    what [query(j)] returned on the tree before the update. *)
Theorem update_frame (u : updater QueryT) (s s0 s1 s2 s3 : tree) l r j v0 v1 :
  size s <= 2 ^ 63 -> len (lazyTasks s) <= 2 ^ 63 ->
  j < l \/ r < j ->
  query plus true j s = Done v0 s0 ->
  update_range plus true u l r s = Done tt s1 ->
  after_queries plus s1 s2 ->
  query plus true j s2 = Done v1 s3 ->
  v1 = v0.
Proof.
  intros Hsz Hlen Hout Q0 U A Q1.
  rewrite (query_position_value _ _ _ _ Hsz Hlen Q0).
  destruct (update_position_values u s s1 l r Hsz Hlen (or_intror U))
    as (E1 & L1 & V1).
  assert (Hsz1 : size s1 <= 2 ^ 63) by lia.
  destruct (after_queries_position_values s1 s2 Hsz1 L1 A)
    as (E2 & L2 & V2).
  assert (Hsz2 : size s2 <= 2 ^ 63) by lia.
  rewrite (query_position_value _ _ _ _ Hsz2 L2 Q1).
  assert (Hj : 0 <= j < size s).
  { unfold query, bind, get_size, assert in Q0.
    destruct ((0 <=? j) && (j <? size s)) eqn:C; [lia|discriminate Q0]. }
  rewrite V2, (V1 j Hj). unfold updated.
  assert (((l <=? j) && (j <=? r)) = false) as -> by lia. reflexivity.
Qed.

End Pending.

(** ** Single positions after a sequence of updates *)

Section Updates.
Context {BaseT QueryT : Type} (QueryT_of : BaseT -> QueryT)
  (plus : QueryT -> QueryT -> QueryT).
Local Abbreviation tree := (SegmentTree QueryT).

Lemma after_updates_nil j (o : option QueryT) : after_updates [] j o = o.
Proof. reflexivity. Qed.

Lemma after_updates_cons c calls j (o : option QueryT) :
  after_updates (c :: calls) j o
  = after_updates calls j
      (updated (call_updater c) (call_left c) (call_right c) j o).
Proof. reflexivity. Qed.

Lemma update_all_position_values calls : forall (s0 s : tree),
  size s0 <= 2 ^ 63 -> len (lazyTasks s0) <= 2 ^ 63 ->
  update_all plus calls s0 = Done tt s ->
  size s = size s0 /\ len (lazyTasks s) <= 2 ^ 63
  /\ forall j, 0 <= j < size s0 ->
       position_value s j = after_updates calls j (position_value s0 j).
Proof.
  induction calls as [|c calls IH]; intros s0 s Hsz Hlen H; cbn [update_all] in H.
  - injection H as <-. split; [reflexivity|]. split; [exact Hlen|].
    intros j _. now rewrite after_updates_nil.
  - unfold bind in H.
    destruct (update_range plus true (call_updater c) (call_left c)
                (call_right c) s0) as [[] s1|] eqn:U; [|discriminate H].
    destruct (update_position_values plus (call_updater c) s0 s1 (call_left c)
                (call_right c) Hsz Hlen (or_intror U)) as (E1 & L1 & V1).
    assert (Hsz1 : size s1 <= 2 ^ 63) by lia.
    destruct (IH s1 s Hsz1 L1 H) as (E2 & L2 & V2).
    split; [congruence|]. split; [exact L2|].
    intros j Hj. rewrite V2 by lia. rewrite after_updates_cons.
    now rewrite V1.
Qed.

(** X15.  On a tree with lazy propagation, for as long as nothing faults,
    [query(j)] after any number of updates returns the [j]-th element's
    query value with the updaters of the calls that cover [j] applied to
    it in call order, each with [(j)] or [(j, j)] as its boundaries. *)
Theorem lazy_query_after_updates (input_data : list BaseT)
    (calls : list (update_call QueryT)) (s0 s s' : tree) j r :
  1 <= len input_data < 2 ^ 61 ->
  SegmentTree_vector QueryT_of plus true input_data = Done tt s0 ->
  update_all plus calls s0 = Done tt s ->
  query plus true j s = Done r s' ->
  r = after_updates calls j (QueryT_of <$> input_data !! Z.to_nat j).
Proof.
  intros HN HT HU HQ.
  destruct (fresh_tree QueryT_of plus input_data true s0 HN HT)
    as (Hsz & Hq & _).
  destruct (Hq eq_refl) as [_ Hlen].
  assert (Hsz0 : size s0 <= 2 ^ 63) by lia.
  assert (Hlen0 : len (lazyTasks s0) <= 2 ^ 63) by lia.
  destruct (update_all_position_values calls s0 s Hsz0 Hlen0 HU)
    as (E & L & V).
  assert (Hsz1 : size s <= 2 ^ 63) by lia.
  rewrite (query_position_value plus _ _ _ _ Hsz1 L HQ).
  assert (Hj : 0 <= j < size s0).
  { unfold query, bind, get_size, assert in HQ.
    destruct ((0 <=? j) && (j <? size s)) eqn:C; [lia|discriminate HQ]. }
  rewrite (V j Hj). f_equal.
  assert (Hj' : 0 <= j < len input_data) by lia.
  pose proof (query_fresh_position QueryT_of plus input_data true s0 j HN HT Hj')
    as HF.
  symmetry. exact (query_position_value plus _ _ _ _ Hsz0 Hlen0 HF).
Qed.

End Updates.

(** ** The dispatch on the updater's shape *)

(** Line 55 compares the function type [UpdaterT] with the deduced [Updater],
    a reference type; line 57 compares the two aliases [RangeUpdaterT] and
    [UpdaterT] with each other.  Neither holds, whatever the updater, so
    the [static_assert(false)] branch is the one selected. *)
Lemma _update_rebuild_tree_rejects {QueryT} (plus : QueryT -> QueryT -> QueryT)
    fuel Updater u node tl tr (s : SegmentTree QueryT) :
  _update_rebuild_tree plus (S fuel) (deduce_from_lvalue Updater) u node tl tr s
  = Fault InvalidUpdaterType.
Proof. reflexivity. Qed.

(** ** The recursion depth is enough *)

Section Fuel.
Context {QueryT : Type}.
Local Abbreviation tree := (SegmentTree QueryT).

Lemma fueled_ret {A} (a : A) : fueled (ret (QueryT := QueryT) a).
Proof. intros s. discriminate. Qed.

Lemma fueled_fail {A} (e : fault) :
  e <> OutOfFuel -> fueled (fail (QueryT := QueryT) (A := A) e).
Proof. intros He s H. injection H as H. contradiction. Qed.

Lemma fueled_bind {A B} (m : M QueryT A) (k : A -> M QueryT B) :
  fueled m -> (forall a, fueled (k a)) -> fueled (bind m k).
Proof.
  intros Hm Hk s. unfold bind. destruct (m s) as [a s'|e] eqn:E.
  - apply (Hk a s').
  - intros H. apply (Hm s). rewrite E. injection H as ->. reflexivity.
Qed.

Lemma fueled_assert b : fueled (assert (QueryT := QueryT) b).
Proof. destruct b; [apply fueled_ret|apply fueled_fail; discriminate]. Qed.

Lemma fueled_get_size : fueled (get_size (QueryT := QueryT)).
Proof. intros s. discriminate. Qed.

Lemma fueled_data_at i : fueled (data_at (QueryT := QueryT) i).
Proof. intros s. unfold data_at. destruct (data s !! Z.to_nat i); discriminate. Qed.

Lemma fueled_data_assign i q : fueled (data_assign (QueryT := QueryT) i q).
Proof. intros s. unfold data_assign. destruct (data s !! Z.to_nat i); discriminate. Qed.

Lemma fueled_value node o : fueled (value (QueryT := QueryT) node o).
Proof. destruct o; [apply fueled_ret|apply fueled_fail; discriminate]. Qed.

Lemma fueled_lazyTasks_at i : fueled (lazyTasks_at (QueryT := QueryT) i).
Proof.
  intros s. unfold lazyTasks_at. destruct (lazyTasks s !! Z.to_nat i); discriminate.
Qed.

Lemma fueled_emplace_back i t : fueled (lazyTasks_emplace_back (QueryT := QueryT) i t).
Proof.
  intros s. unfold lazyTasks_emplace_back.
  destruct (lazyTasks s !! Z.to_nat i); discriminate.
Qed.

Lemma fueled_clear i : fueled (lazyTasks_clear (QueryT := QueryT) i).
Proof.
  intros s. unfold lazyTasks_clear.
  destruct (lazyTasks s !! Z.to_nat i); discriminate.
Qed.

Lemma fueled_input_at {BaseT} (input_data : list BaseT) i :
  fueled (input_at (QueryT := QueryT) input_data i).
Proof.
  unfold input_at. destruct (input_data !! Z.to_nat i);
    [apply fueled_ret|apply fueled_fail; discriminate].
Qed.

Create HintDb fueled.
#[local] Hint Resolve fueled_ret fueled_bind fueled_assert fueled_get_size
  fueled_data_at fueled_data_assign fueled_value fueled_lazyTasks_at
  fueled_emplace_back fueled_clear fueled_input_at : fueled.

Lemma fueled_forward_task v c t : fueled (forward_task (QueryT := QueryT) v c t).
Proof.
  unfold forward_task. destruct (c =? v); [apply fueled_fail; discriminate|].
  auto with fueled.
Qed.

Lemma fueled_execute_task v tl tr t : fueled (execute_task (QueryT := QueryT) v tl tr t).
Proof.
  destruct t; cbn [execute_task]; auto 10 using fueled_forward_task with fueled.
Qed.

Lemma fueled_execute_tasks v tl tr ts :
  fueled (execute_tasks (QueryT := QueryT) v tl tr ts).
Proof.
  induction ts as [|t ts IH]; cbn [execute_tasks];
    auto using fueled_execute_task with fueled.
Qed.

Lemma fueled_pushdown v tl tr :
  fueled (_execute_lazy_tasks_and_pushdown (QueryT := QueryT) v tl tr).
Proof.
  unfold _execute_lazy_tasks_and_pushdown.
  auto using fueled_execute_tasks with fueled.
Qed.

Context (plus : QueryT -> QueryT -> QueryT).

Lemma fueled_merge_childs v : fueled (_merge_childs plus v).
Proof.
  unfold _merge_childs. apply fueled_bind; [intros s; discriminate|].
  intros n. auto 10 with fueled.
Qed.


Lemma fueled_if_lazy (lazy : bool) v tl tr :
  fueled (if lazy then _execute_lazy_tasks_and_pushdown (QueryT := QueryT) v tl tr
          else ret tt).
Proof. destruct lazy; [apply fueled_pushdown|apply fueled_ret]. Qed.

Lemma fueled_query_tree lazy fuel :
  forall v tl tr ql qr,
    0 <= tl <= tr -> tr < 2 ^ 63 -> tr - tl < 2 ^ Z.of_nat fuel ->
    fueled (_query_tree plus lazy (S fuel) v tl tr ql qr).
Proof.
  induction fuel as [|fuel IH]; intros v tl tr ql qr Hr Htr Hfuel;
    rewrite _query_tree_step; apply fueled_bind; try apply fueled_if_lazy;
    intros _.
  - assert (tr = tl) as -> by (simpl in Hfuel; lia).
    destruct ((tl >? qr) || (tl <? ql)) eqn:Hout; [apply fueled_ret|].
    assert (((ql <=? tl) && (tl <=? qr)) = true) as -> by lia.
    apply fueled_data_at.
  - destruct ((tl >? qr) || (tr <? ql)) eqn:Hout; [apply fueled_ret|].
    destruct ((ql <=? tl) && (tr <=? qr)) eqn:Hin; [apply fueled_data_at|].
    assert (Hlt : tl < tr) by lia.
    pose proof (mid_bounds _ _ Hlt) as Hmid.
    assert (Hmid2 : 2 * ((tl + tr) / 2) <= tl + tr < 2 * ((tl + tr) / 2) + 2).
    { pose proof (Z.mod_pos_bound (tl + tr) 2).
      pose proof (Z.div_mod (tl + tr) 2). lia. }
    rewrite pow2_succ in Hfuel.
    rewrite mid_spec by lia. rewrite (wrap_small ((tl + tr) / 2 + 1)) by lia.
    apply fueled_bind; [apply IH; lia|]. intros rl.
    apply fueled_bind; [apply IH; lia|]. intros rr.
    destruct rl, rr; apply fueled_ret.
Qed.

Lemma _update_tree_any_step lazy fuel U u v tl tr ul ur :
  _update_tree plus lazy (S fuel) U u v tl tr ul ur
  = bind (if lazy then _execute_lazy_tasks_and_pushdown v tl tr else ret tt)
      (fun _ =>
      if (tl >? ur) || (tr <? ul) then ret tt
      else if (ul <=? tl) && (tr <=? ur) then
        if lazy then lazyTasks_emplace_back v (task_of u)
        else _update_rebuild_tree plus (S fuel) (deduce_from_lvalue U) u v tl tr
      else
        bind (_update_tree plus lazy fuel (deduce_from_lvalue U) u (wrap (2 * v))
                tl (Z.shiftr (wrap (tl + tr)) 1) ul ur) (fun _ =>
        bind (_update_tree plus lazy fuel (deduce_from_lvalue U) u
                (wrap (2 * v + 1)) (wrap (Z.shiftr (wrap (tl + tr)) 1 + 1)) tr
                ul ur) (fun _ =>
        _merge_childs plus v))).
Proof. reflexivity. Qed.

Lemma fueled_update_tree lazy fuel :
  forall U u v tl tr ul ur,
    0 <= tl <= tr -> tr < 2 ^ 63 -> tr - tl < 2 ^ Z.of_nat fuel ->
    fueled (_update_tree plus lazy (S fuel) U u v tl tr ul ur).
Proof.
  assert (Hin : forall f U u v tl tr,
            fueled (if lazy then lazyTasks_emplace_back v (task_of u)
                    else _update_rebuild_tree plus (S f) (deduce_from_lvalue U)
                           u v tl tr)).
  { intros f U u v tl tr. destruct lazy; [apply fueled_emplace_back|].
    intros s. rewrite _update_rebuild_tree_rejects. discriminate. }
  induction fuel as [|fuel IH]; intros U u v tl tr ul ur Hr Htr Hfuel;
    rewrite _update_tree_any_step; apply fueled_bind; try apply fueled_if_lazy;
    intros _.
  - assert (tr = tl) as -> by (simpl in Hfuel; lia).
    destruct ((tl >? ur) || (tl <? ul)) eqn:Hout; [apply fueled_ret|].
    assert (((ul <=? tl) && (tl <=? ur)) = true) as -> by lia.
    apply Hin.
  - destruct ((tl >? ur) || (tr <? ul)) eqn:Hout; [apply fueled_ret|].
    destruct ((ul <=? tl) && (tr <=? ur)) eqn:Hi; [apply Hin|].
    assert (Hlt : tl < tr) by lia.
    pose proof (mid_bounds _ _ Hlt) as Hmid.
    assert (Hmid2 : 2 * ((tl + tr) / 2) <= tl + tr < 2 * ((tl + tr) / 2) + 2).
    { pose proof (Z.mod_pos_bound (tl + tr) 2).
      pose proof (Z.div_mod (tl + tr) 2). lia. }
    rewrite pow2_succ in Hfuel.
    rewrite mid_spec by lia. rewrite (wrap_small ((tl + tr) / 2 + 1)) by lia.
    apply fueled_bind; [apply IH; lia|]. intros _.
    apply fueled_bind; [apply IH; lia|]. intros _.
    apply fueled_merge_childs.
Qed.

Lemma fueled_build_tree {BaseT} (QueryT_of : BaseT -> QueryT)
    (input_data : list BaseT) fuel :
  forall v tl tr,
    0 <= tl <= tr -> tr < 2 ^ 63 -> tr - tl < 2 ^ Z.of_nat fuel ->
    fueled (_build_tree QueryT_of plus (S fuel) v tl tr input_data).
Proof.
  induction fuel as [|fuel IH]; intros v tl tr Hr Htr Hfuel;
    rewrite _build_tree_step.
  - assert (tr = tl) as -> by (simpl in Hfuel; lia).
    rewrite Z.eqb_refl. cbn [negb]. auto with fueled.
  - destruct (Z.eqb_spec tl tr) as [Heq|Hne]; cbn [negb]; [auto with fueled|].
    assert (Hlt : tl < tr) by lia.
    pose proof (mid_bounds _ _ Hlt) as Hmid.
    assert (Hmid2 : 2 * ((tl + tr) / 2) <= tl + tr < 2 * ((tl + tr) / 2) + 2).
    { pose proof (Z.mod_pos_bound (tl + tr) 2).
      pose proof (Z.div_mod (tl + tr) 2). lia. }
    rewrite pow2_succ in Hfuel.
    rewrite mid_spec by lia. rewrite (wrap_small ((tl + tr) / 2 + 1)) by lia.
    apply fueled_bind; [apply IH; lia|]. intros _.
    apply fueled_bind; [apply IH; lia|]. intros _.
    apply fueled_merge_childs.
Qed.

(** X16.  The recursion depth of the public member functions is enough: on a tree
    of at most 2^63 positions none of them ends for want of fuel, so every
    fault they end in is a fault of the program. *)
Theorem recursion_depth_suffices (lazy : bool) (s : tree) :
  size s <= 2 ^ 63 ->
  (forall pos, query plus lazy pos s <> Fault OutOfFuel)
  /\ (forall l r, query_range plus lazy l r s <> Fault OutOfFuel)
  /\ (forall u pos, update plus lazy u pos s <> Fault OutOfFuel)
  /\ (forall u l r, update_range plus lazy u l r s <> Fault OutOfFuel).
Proof.
  intros Hsz.
  assert (Hfuel : size s - 1 - 0 < 2 ^ Z.of_nat 64).
  { change (2 ^ Z.of_nat 64) with (2 ^ 64). lia. }
  unfold query, query_range, update, update_range.
  change recursion_depth with (S 64).
  repeat split; intros; unfold bind, get_size, assert.
  - destruct ((0 <=? pos) && (pos <? size s)) eqn:A; [|discriminate].
    cbv beta iota. unfold ret. rewrite wrap_small by lia.
    apply fueled_query_tree; lia.
  - destruct ((0 <=? l) && (l <=? r) && (r <? size s)) eqn:A; [|discriminate].
    cbv beta iota. unfold ret. rewrite wrap_small by lia.
    apply fueled_query_tree; lia.
  - destruct ((0 <=? pos) && (pos <? size s)) eqn:A; [|discriminate].
    cbv beta iota. unfold ret. rewrite wrap_small by lia.
    apply fueled_update_tree; lia.
  - destruct ((0 <=? l) && (l <=? r) && (r <? size s)) eqn:A; [|discriminate].
    cbv beta iota. unfold ret. rewrite wrap_small by lia.
    apply fueled_update_tree; lia.
Qed.

(** The same for the constructors. *)
Theorem construct_fueled {BaseT} (QueryT_of : BaseT -> QueryT) (lazy : bool)
    (sz : Z) (input_data : list BaseT) :
  1 <= sz <= 2 ^ 63 ->
  construct QueryT_of plus lazy sz input_data <> Fault OutOfFuel.
Proof.
  intros Hsz. unfold construct. change recursion_depth with (S 64).
  rewrite (wrap_small (sz - 1)) by lia.
  apply fueled_build_tree; lia.
Qed.

End Fuel.

(** ** The vectors are never resized, and no value is lost *)

Section Growing.
Context {QueryT : Type}.
Local Abbreviation tree := (SegmentTree QueryT).

Lemma same_shape_refl (s : tree) : same_shape s s.
Proof. repeat split. Qed.

Lemma same_shape_trans (s1 s2 s3 : tree) :
  same_shape s1 s2 -> same_shape s2 s3 -> same_shape s1 s3.
Proof. unfold same_shape. intuition congruence. Qed.

Lemma grows_refl (s : tree) : grows s s.
Proof. split; [apply same_shape_refl|eauto]. Qed.

Lemma grows_trans (s1 s2 s3 : tree) : grows s1 s2 -> grows s2 s3 -> grows s1 s3.
Proof.
  intros [S1 G1] [S2 G2]. split; [eapply same_shape_trans; eauto|].
  intros i q H. destruct (G1 i q H) as [q' H']. eauto.
Qed.

Lemma grows_data_only (s s' : tree) :
  size s' = size s -> lazyTasks s' = lazyTasks s ->
  length (data s') = length (data s) ->
  (forall (i : nat) q,
     data s !! i = Some (Some q) -> exists q', data s' !! i = Some (Some q')) ->
  grows s s'.
Proof. intros H1 H2 H3 H4. split; [|exact H4]. repeat split; congruence. Qed.

Lemma grows_lazyTasks_only (s : tree) (i : nat) (q : list (task QueryT)) :
  grows s (mkSegmentTree (size s) (data s) (<[i := q]> (lazyTasks s))).
Proof.
  split; [|eauto]. repeat split. simpl. apply length_insert.
Qed.

Lemma growing_ret {A} (a : A) : growing (ret (QueryT := QueryT) a).
Proof. intros s b s' H. injection H as _ <-. apply grows_refl. Qed.

Lemma growing_fail {A} e : growing (fail (QueryT := QueryT) (A := A) e).
Proof. intros s b s' H. discriminate H. Qed.

Lemma growing_bind {A B} (m : M QueryT A) (k : A -> M QueryT B) :
  growing m -> (forall a, growing (k a)) -> growing (bind m k).
Proof.
  intros Hm Hk s b s' H. unfold bind in H.
  destruct (m s) as [a s1|] eqn:E; [|discriminate H].
  eapply grows_trans; [eapply Hm|eapply Hk]; eauto.
Qed.

Lemma growing_assert b : growing (assert (QueryT := QueryT) b).
Proof. destruct b; [apply growing_ret|apply growing_fail]. Qed.

Lemma growing_get_size : growing (get_size (QueryT := QueryT)).
Proof. intros s a s' H. injection H as _ <-. apply grows_refl. Qed.

Lemma growing_data_at i : growing (data_at (QueryT := QueryT) i).
Proof.
  intros s a s' H. apply data_at_inv in H as [-> _]. apply grows_refl.
Qed.

Lemma growing_value node o : growing (value (QueryT := QueryT) node o).
Proof. destruct o; [apply growing_ret|apply growing_fail]. Qed.

Lemma growing_data_assign i (q : QueryT) : growing (data_assign i q).
Proof.
  intros s [] s' H. apply data_assign_inv in H as [Hi ->].
  apply grows_data_only; simpl; auto using length_insert.
  intros j x Hj. destruct (decide (j = Z.to_nat i)) as [->|Hne].
  - exists q. now apply list_lookup_insert_eq.
  - exists x. now rewrite list_lookup_insert_ne.
Qed.

Lemma growing_lazyTasks_at i : growing (lazyTasks_at (QueryT := QueryT) i).
Proof.
  intros s a s' H. apply lazyTasks_at_inv in H as [-> _]. apply grows_refl.
Qed.

Lemma growing_emplace_back i (t : task QueryT) :
  growing (lazyTasks_emplace_back i t).
Proof.
  intros s a s' H. unfold lazyTasks_emplace_back in H.
  destruct (lazyTasks s !! Z.to_nat i); [|discriminate H].
  injection H as _ <-. apply grows_lazyTasks_only.
Qed.

Lemma growing_clear i : growing (lazyTasks_clear (QueryT := QueryT) i).
Proof.
  intros s a s' H. unfold lazyTasks_clear in H.
  destruct (lazyTasks s !! Z.to_nat i); [|discriminate H].
  injection H as _ <-. apply grows_lazyTasks_only.
Qed.

Create HintDb growing discriminated.
#[local] Hint Resolve growing_ret growing_fail growing_assert growing_get_size
  growing_data_at growing_value growing_data_assign growing_lazyTasks_at
  growing_emplace_back growing_clear : growing.

Ltac growing := repeat (apply growing_bind; [|intros ?]); auto with growing.

Lemma growing_forward_task v c (t : task QueryT) : growing (forward_task v c t).
Proof. unfold forward_task. destruct (c =? v); auto with growing. Qed.

Lemma growing_execute_task v tl tr (t : task QueryT) :
  growing (execute_task v tl tr t).
Proof.
  destruct t; cbn [execute_task]; growing; apply growing_forward_task.
Qed.

Lemma growing_execute_tasks v tl tr (ts : list (task QueryT)) :
  growing (execute_tasks v tl tr ts).
Proof.
  induction ts as [|t ts IH]; cbn [execute_tasks]; [apply growing_ret|].
  apply growing_bind; [apply growing_execute_task|intros _; exact IH].
Qed.

Lemma growing_pushdown v tl tr :
  growing (_execute_lazy_tasks_and_pushdown (QueryT := QueryT) v tl tr).
Proof.
  unfold _execute_lazy_tasks_and_pushdown.
  apply growing_bind; [apply growing_lazyTasks_at|intros ts].
  apply growing_bind; [apply growing_execute_tasks|intros _; apply growing_clear].
Qed.

Context (plus : QueryT -> QueryT -> QueryT).

Lemma growing_merge_childs v : growing (_merge_childs plus v).
Proof.
  unfold _merge_childs.
  apply growing_bind; [|intros data_size; growing].
  intros s a s' H. injection H as _ <-. apply grows_refl.
Qed.

Lemma growing_if_lazy (lazy : bool) v tl tr :
  growing (if lazy
           then _execute_lazy_tasks_and_pushdown (QueryT := QueryT) v tl tr
           else ret tt).
Proof. destruct lazy; [apply growing_pushdown|apply growing_ret]. Qed.

Lemma growing_query_tree (lazy : bool) fuel : forall v tl tr ql qr,
  growing (_query_tree plus lazy fuel v tl tr ql qr).
Proof.
  induction fuel as [|fuel IH]; intros v tl tr ql qr; [apply growing_fail|].
  rewrite _query_tree_step.
  apply growing_bind; [apply growing_if_lazy|intros _].
  destruct ((tl >? qr) || (tr <? ql)); [apply growing_ret|].
  destruct ((ql <=? tl) && (tr <=? qr)); [apply growing_data_at|].
  apply growing_bind; [apply IH|intros a].
  apply growing_bind; [apply IH|intros b].
  destruct a, b; apply growing_ret.
Qed.

Lemma growing_update_tree (lazy : bool) u fuel : forall U v tl tr ul ur,
  growing (_update_tree plus lazy fuel U u v tl tr ul ur).
Proof.
  induction fuel as [|fuel IH]; intros U v tl tr ul ur; [apply growing_fail|].
  rewrite _update_tree_any_step.
  apply growing_bind; [apply growing_if_lazy|intros _].
  destruct ((tl >? ur) || (tr <? ul)); [apply growing_ret|].
  destruct ((ul <=? tl) && (tr <=? ur)).
  - destruct lazy; [apply growing_emplace_back|].
    intros s a s' H. rewrite _update_rebuild_tree_rejects in H. discriminate H.
  - apply growing_bind; [apply IH|intros _].
    apply growing_bind; [apply IH|intros _].
    apply growing_merge_childs.
Qed.

Lemma growing_query (lazy : bool) pos : growing (query plus lazy pos).
Proof.
  unfold query. generalize recursion_depth. intros fuel.
  apply growing_bind; [apply growing_get_size|intros sz].
  apply growing_bind; [apply growing_assert|intros _; apply growing_query_tree].
Qed.

Lemma growing_query_range (lazy : bool) l r : growing (query_range plus lazy l r).
Proof.
  unfold query_range. generalize recursion_depth. intros fuel.
  apply growing_bind; [apply growing_get_size|intros sz].
  apply growing_bind; [apply growing_assert|intros _; apply growing_query_tree].
Qed.

Lemma growing_update (lazy : bool) u pos : growing (update plus lazy u pos).
Proof.
  unfold update. generalize recursion_depth. intros fuel.
  apply growing_bind; [apply growing_get_size|intros sz].
  apply growing_bind; [apply growing_assert|intros _; apply growing_update_tree].
Qed.

Lemma growing_update_range (lazy : bool) u l r :
  growing (update_range plus lazy u l r).
Proof.
  unfold update_range. generalize recursion_depth. intros fuel.
  apply growing_bind; [apply growing_get_size|intros sz].
  apply growing_bind; [apply growing_assert|intros _; apply growing_update_tree].
Qed.

(** X11.  No member function resizes a vector after construction: whenever
    [query(pos)], [query(l, r)], [update(u, pos)] or [update(u, l, r)]
    returns, [size], [data.size()] and [lazyTasks.size()] are what they
    were, and every entry of [data] that held a value still holds one;
    with or without lazy propagation, from any state. *)
Theorem operations_keep_the_shape (lazy : bool) (u : updater QueryT)
    (s s' : tree) pos l r v :
  query plus lazy pos s = Done v s'
  \/ query_range plus lazy l r s = Done v s'
  \/ update plus lazy u pos s = Done tt s'
  \/ update_range plus lazy u l r s = Done tt s' ->
  size s' = size s
  /\ length (data s') = length (data s)
  /\ length (lazyTasks s') = length (lazyTasks s)
  /\ forall (i : nat) q,
       data s !! i = Some (Some q) -> exists q', data s' !! i = Some (Some q').
Proof.
  intros H.
  assert (G : grows s s').
  { destruct H as [H|[H|[H|H]]].
    - exact (growing_query lazy pos s v s' H).
    - exact (growing_query_range lazy l r s v s' H).
    - exact (growing_update lazy u pos s tt s' H).
    - exact (growing_update_range lazy u l r s tt s' H). }
  destruct G as [(H1 & H2 & H3) H4]. auto.
Qed.

End Growing.

(** ** Updates on a tree without lazy propagation *)

Section Eager.
Context {QueryT : Type} (plus : QueryT -> QueryT -> QueryT).
Local Abbreviation tree := (SegmentTree QueryT).

Lemma _update_tree_eager_outside fuel U u v tl tr ul ur (s : tree) :
  (tl >? ur) || (tr <? ul) = true ->
  _update_tree plus false (S fuel) U u v tl tr ul ur s = Done tt s.
Proof.
  intros Hout. rewrite _update_tree_any_step. unfold bind, ret. now rewrite Hout.
Qed.

(** The depth-first descent reaches a node that the update range covers
    before it reaches any [_merge_childs]. *)
Lemma _update_tree_eager_rejects u ul ur fuel : forall U v tl tr (s : tree),
  0 <= tl <= tr -> tr < 2 ^ 63 -> tr - tl < 2 ^ Z.of_nat fuel ->
  ul <= ur -> tl <= ur -> ul <= tr ->
  _update_tree plus false (S fuel) U u v tl tr ul ur s = Fault InvalidUpdaterType.
Proof.
  induction fuel as [|fuel IH]; intros U v tl tr s Hr Htr Hfuel Hu H1 H2;
    rewrite _update_tree_any_step; unfold bind at 1, ret at 1;
    (assert (((tl >? ur) || (tr <? ul)) = false) as -> by lia).
  - assert (tr = tl) as -> by (simpl in Hfuel; lia).
    assert (((ul <=? tl) && (tl <=? ur)) = true) as -> by lia.
    apply _update_rebuild_tree_rejects.
  - destruct ((ul <=? tl) && (tr <=? ur)) eqn:Hin;
      [apply _update_rebuild_tree_rejects|].
    assert (Hlt : tl < tr) by lia.
    pose proof (mid_bounds _ _ Hlt) as Hmid.
    rewrite pow2_succ in Hfuel.
    assert (Hmid2 : 2 * ((tl + tr) / 2) <= tl + tr < 2 * ((tl + tr) / 2) + 2).
    { pose proof (Z.mod_pos_bound (tl + tr) 2).
      pose proof (Z.div_mod (tl + tr) 2). lia. }
    rewrite mid_spec by lia. rewrite (wrap_small ((tl + tr) / 2 + 1)) by lia.
    unfold bind.
    destruct (Z_le_gt_dec ul ((tl + tr) / 2)) as [C|C].
    + rewrite IH by lia. reflexivity.
    + rewrite _update_tree_eager_outside by lia.
      rewrite IH by lia. reflexivity.
Qed.

(** X12.  Without lazy propagation no update with valid arguments runs: whatever
    the tree and the updater, [update(updater, left, right)] and
    [update(updater, position)] end in the
    [static_assert(false, "Invalid updater type")] branch of
    [_update_rebuild_tree], at the first node that the range covers. *)
Theorem eager_update_never_runs (u : updater QueryT) (s : tree) l r :
  size s <= 2 ^ 63 -> 0 <= l <= r -> r < size s ->
  update_range plus false u l r s = Fault InvalidUpdaterType
  /\ update plus false u l s = Fault InvalidUpdaterType.
Proof.
  intros Hsz Hl Hr. unfold update_range, update, bind, get_size, assert.
  assert (((0 <=? l) && (l <=? r) && (r <? size s)) = true) as -> by lia.
  assert (((0 <=? l) && (l <? size s)) = true) as -> by lia.
  cbv beta iota. unfold ret. rewrite wrap_small by lia.
  change recursion_depth with (S 64).
  assert (Hfuel : size s - 1 - 0 < 2 ^ Z.of_nat 64).
  { change (2 ^ Z.of_nat 64) with (2 ^ 64). lia. }
  split; apply _update_tree_eager_rejects; lia.
Qed.

End Eager.

(** ** The push-down as a whole *)

Section Pushdown.
Context {QueryT : Type}.
Local Abbreviation tree := (SegmentTree QueryT).

(** X8.  What a completed [_execute_lazy_tasks_and_pushdown(node, tree_left,
    tree_right)] has done: the tasks queued at [node] have been executed on
    [data[node]] in queue order, each with [tree_left] (and [tree_right]);
    those that hold a function have been appended, in the same order, to
    the queues of [2 * node] and [2 * node + 1]; the queue of [node] is
    empty; no other entry of [data] or [lazyTasks] has changed. *)
Theorem pushdown_effect v tl tr (s s' : tree) :
  1 <= v -> len (lazyTasks s) <= 2 ^ 63 ->
  _execute_lazy_tasks_and_pushdown v tl tr s = Done tt s' ->
  exists ts,
    lazyTasks s !! Z.to_nat v = Some ts
    /\ lazyTasks s' !! Z.to_nat v = Some []
    /\ data s' !! Z.to_nat v
       = option_map (fun q => apply_tasks ts q tl tr) <$> data s !! Z.to_nat v
    /\ (forall i : nat, i <> Z.to_nat v -> data s' !! i = data s !! i)
    /\ lazyTasks s' !! Z.to_nat (2 * v)
       = (fun q => q ++ filter (fun t => is_forwarded t = true) ts)
           <$> lazyTasks s !! Z.to_nat (2 * v)
    /\ lazyTasks s' !! Z.to_nat (2 * v + 1)
       = (fun q => q ++ filter (fun t => is_forwarded t = true) ts)
           <$> lazyTasks s !! Z.to_nat (2 * v + 1)
    /\ (forall i : nat,
          i <> Z.to_nat v -> i <> Z.to_nat (2 * v) -> i <> Z.to_nat (2 * v + 1) ->
          lazyTasks s' !! i = lazyTasks s !! i).
Proof.
  intros Hv Hlen H.
  pose proof (pushdown_clears _ _ _ _ _ H) as Hc.
  destruct (pushdown_spec v tl tr s s' Hv Hlen H) as (ts & s1 & Hts & P & ->).
  destruct P as [_ _ _ Pd Po _ Pl Pr Plo].
  exists ts. simpl in *. repeat split; auto.
  - rewrite list_lookup_insert_ne by lia. exact Pl.
  - rewrite list_lookup_insert_ne by lia. exact Pr.
  - intros i H1 H2 H3. rewrite list_lookup_insert_ne by lia. now apply Plo.
Qed.

(** X9.  A push-down that has completed has nothing left to do: run again at the
    same node, with whatever boundaries, it returns and changes nothing. *)
Theorem pushdown_twice v tl tr tl' tr' (s s' : tree) :
  _execute_lazy_tasks_and_pushdown v tl tr s = Done tt s' ->
  _execute_lazy_tasks_and_pushdown v tl' tr' s' = Done tt s'.
Proof.
  intros H. apply pushdown_idle. exact (pushdown_clears _ _ _ _ _ H).
Qed.

End Pushdown.

(** ** The public member functions, one after the other *)

Section Public.
Context {QueryT : Type} (plus : QueryT -> QueryT -> QueryT).
Local Abbreviation tree := (SegmentTree QueryT).

(** X10.  The overloads for one position are the overloads for a range of one
    position: [query(pos)] is [query(pos, pos)] and [update(u, pos)] is
    [update(u, pos, pos)], assertion included, in every state. *)
Theorem position_is_range_of_one (lazy : bool) (u : updater QueryT) pos
    (s : tree) :
  query plus lazy pos s = query_range plus lazy pos pos s
  /\ update plus lazy u pos s = update_range plus lazy u pos pos s.
Proof.
  unfold query, query_range, update, update_range.
  generalize recursion_depth. intros fuel.
  unfold bind, get_size.
  rewrite Z.leb_refl, andb_true_r. split; reflexivity.
Qed.

(** X13.  On a tree with lazy propagation, for as long as nothing faults: if
    [query(j)] returned [v0], then after [update(u, l, r)] (or
    [update(u, l)], with [r = l]) and any number of completed queries,
    [query(j)] returns [u] applied to [v0] with [j] as its boundaries when
    [l <= j <= r], and [v0] itself otherwise. *)
Theorem update_then_query (u : updater QueryT) (s s0 s1 s2 s3 : tree)
    l r j v0 v1 :
  size s <= 2 ^ 63 -> len (lazyTasks s) <= 2 ^ 63 ->
  query plus true j s = Done v0 s0 ->
  update plus true u l s = Done tt s1 /\ r = l
  \/ update_range plus true u l r s = Done tt s1 ->
  after_queries plus s1 s2 ->
  query plus true j s2 = Done v1 s3 ->
  v1 = if (l <=? j) && (j <=? r)
       then option_map (fun x => apply_task (task_of u) x j j) v0
       else v0.
Proof.
  intros Hsz Hlen Q0 U A Q1.
  rewrite (query_position_value plus _ _ _ _ Hsz Hlen Q0).
  destruct (update_position_values plus u s s1 l r Hsz Hlen U)
    as (E1 & L1 & V1).
  assert (Hsz1 : size s1 <= 2 ^ 63) by lia.
  destruct (after_queries_position_values plus s1 s2 Hsz1 L1 A)
    as (E2 & L2 & V2).
  assert (Hsz2 : size s2 <= 2 ^ 63) by lia.
  rewrite (query_position_value plus _ _ _ _ Hsz2 L2 Q1).
  assert (Hj : 0 <= j < size s).
  { unfold query, bind, get_size, assert in Q0.
    destruct ((0 <=? j) && (j <? size s)) eqn:C; [lia|discriminate Q0]. }
  rewrite V2, (V1 j Hj). reflexivity.
Qed.

(** X14.  On a tree with lazy propagation, completed queries, however many and
    whatever their arguments, do not change what [query(j)] returns. *)
Theorem queries_keep_answers (s s' t t' : tree) j v v' :
  size s <= 2 ^ 63 -> len (lazyTasks s) <= 2 ^ 63 ->
  query plus true j s = Done v t ->
  after_queries plus s s' ->
  query plus true j s' = Done v' t' ->
  v' = v.
Proof.
  intros Hsz Hlen Q0 A Q1.
  destruct (after_queries_position_values plus s s' Hsz Hlen A) as (E & L & V).
  assert (Hsz' : size s' <= 2 ^ 63) by lia.
  rewrite (query_position_value plus _ _ _ _ Hsz Hlen Q0).
  rewrite (query_position_value plus _ _ _ _ Hsz' L Q1).
  apply V.
Qed.

End Public.

(** ** The constructors and the first queries, end to end *)

Section EndToEnd.
Context {BaseT QueryT : Type} (QueryT_of : BaseT -> QueryT)
  (plus : QueryT -> QueryT -> QueryT) (input_data : list BaseT).
Local Abbreviation N := (len input_data).

(** X1.  [SegmentTree(input_data)] for 1 to 2^61 - 1 elements: the constructor
    completes; [size] is the number of elements; [data] has [4 * size + 1]
    entries; [lazyTasks] has as many empty queues (none without lazy
    propagation); every leaf holds the query value made from its element
    and every internal node the sum of its two children. *)
Theorem SegmentTree_vector_built (lazy : bool) :
  1 <= N < 2 ^ 61 ->
  exists s q,
    SegmentTree_vector QueryT_of plus lazy input_data = Done tt s
    /\ size s = N
    /\ len (data s) = 4 * N + 1
    /\ lazyTasks s = (if lazy then replicate (Z.to_nat (4 * N + 1)) [] else [])
    /\ built QueryT_of plus input_data s 1 0 (N - 1) q.
Proof.
  intros HN. rewrite SegmentTree_vector_unfold.
  exact (construct_spec QueryT_of plus input_data lazy HN).
Qed.

(** X5.  Build, then ask for single positions: the constructor completes and, on
    the tree it leaves, [query(i)] returns the query value made from the
    [i]-th element, and changes nothing; whatever [operator+] is. *)
Theorem built_tree_answers_position_queries (lazy : bool) :
  1 <= N < 2 ^ 61 ->
  exists s,
    SegmentTree_vector QueryT_of plus lazy input_data = Done tt s
    /\ forall i, 0 <= i < N ->
         query plus lazy i s
         = Done (QueryT_of <$> input_data !! Z.to_nat i) s.
Proof.
  intros HN.
  destruct (construct_spec QueryT_of plus input_data lazy HN) as (s & q & E & _).
  rewrite <- SegmentTree_vector_unfold in E.
  exists s. split; [exact E|]. intros i Hi.
  now apply query_fresh_position.
Qed.

(** X6.  Build, then ask for ranges: when [operator+] is associative, the
    constructor completes and, on the tree it leaves, [query(l, r)] returns
    the left-to-right sum of the query values made from the elements at
    [l .. r], and changes nothing. *)
Theorem built_tree_answers_range_queries (lazy : bool) :
  (forall x y z, plus (plus x y) z = plus x (plus y z)) ->
  1 <= N < 2 ^ 61 ->
  exists s,
    SegmentTree_vector QueryT_of plus lazy input_data = Done tt s
    /\ forall l r, 0 <= l <= r -> r < N ->
         query_range plus lazy l r s
         = Done (combine_list plus (QueryT_of <$> segment input_data l r)) s.
Proof.
  intros HA HN.
  destruct (construct_spec QueryT_of plus input_data lazy HN) as (s & q & E & _).
  rewrite <- SegmentTree_vector_unfold in E.
  exists s. split; [exact E|]. intros l r Hl Hr.
  now apply fresh_query_range.
Qed.

End EndToEnd.

(** X4.  The constructors on no element.  [SegmentTree(std::vector<BaseT>{})]
    and [SegmentTree(0, default_value)] do not complete, whatever the
    types: [size - 1] wraps to 2^64 - 1 and the build reads
    [input_data[0]] of an empty vector. *)
Theorem construct_from_nothing_faults {BaseT QueryT}
    (QueryT_of : BaseT -> QueryT) (plus : QueryT -> QueryT -> QueryT)
    (lazy : bool) (default_value : BaseT) :
  SegmentTree_vector QueryT_of plus lazy []
  = Fault (OutOfBounds vec_input_data 0 0)
  /\ SegmentTree_size_value QueryT_of plus lazy 0 default_value
     = Fault (OutOfBounds vec_input_data 0 0).
Proof. destruct lazy; split; vm_compute; reflexivity. Qed.

(** ** Sizes on which no operation faults *)

Section Total.
Context {QueryT : Type}.
Local Abbreviation tree := (SegmentTree QueryT).

Lemma layout_fits_step fuel cap v tl tr :
  layout_fits (S fuel) cap v tl tr
  = (2 * v + 1 <? cap)
    && (if tl <? tr
        then layout_fits fuel cap (2 * v) tl ((tl + tr) / 2)
             && layout_fits fuel cap (2 * v + 1) ((tl + tr) / 2 + 1) tr
        else true).
Proof. reflexivity. Qed.

Lemma layout_fits_node fuel cap v tl tr :
  layout_fits fuel cap v tl tr = true -> 2 * v + 1 < cap.
Proof.
  destruct fuel as [|fuel]; [discriminate|]. rewrite layout_fits_step.
  intros H. apply andb_true_iff in H as [H _]. lia.
Qed.

Lemma layout_fits_children fuel cap v tl tr :
  layout_fits (S fuel) cap v tl tr = true -> tl < tr ->
  exists fuel', fuel = S fuel'
    /\ layout_fits fuel cap (2 * v) tl ((tl + tr) / 2) = true
    /\ layout_fits fuel cap (2 * v + 1) ((tl + tr) / 2 + 1) tr = true.
Proof.
  rewrite layout_fits_step. intros H Hlt.
  apply andb_true_iff in H as [_ H].
  assert ((tl <? tr) = true) as E by lia. rewrite E in H.
  apply andb_true_iff in H as [H1 H2].
  destruct fuel as [|fuel']; [discriminate H1|]. eauto.
Qed.

Lemma engaged_data (s : tree) v tl tr :
  engaged s v tl tr -> exists q, data s !! Z.to_nat v = Some (Some q).
Proof. intros E. destruct E; eauto. Qed.

Lemma engaged_children (s : tree) v tl tr :
  engaged s v tl tr -> tl < tr ->
  engaged s (2 * v) tl ((tl + tr) / 2)
  /\ engaged s (2 * v + 1) ((tl + tr) / 2 + 1) tr.
Proof. intros E Hlt. destruct E; [lia|auto]. Qed.

Lemma engaged_grows (s s' : tree) v tl tr :
  grows s s' -> engaged s v tl tr -> engaged s' v tl tr.
Proof.
  intros [_ G] E. induction E as [v pos q Hq|v tl tr q Hlt _ IH1 _ IH2 Hq];
    destruct (G _ _ Hq) as [q' Hq'].
  - eapply engaged_leaf; eauto.
  - eapply engaged_node; eauto.
Qed.

Lemma built_engaged {BaseT} (QueryT_of : BaseT -> QueryT) plus input_data
    (s : tree) v tl tr q :
  built QueryT_of plus input_data s v tl tr q -> engaged s v tl tr.
Proof.
  intros B. induction B; [eapply engaged_leaf|eapply engaged_node]; eauto.
Qed.

Lemma grows_len (s s' : tree) :
  grows s s' ->
  size s' = size s /\ len (data s') = len (data s)
  /\ len (lazyTasks s') = len (lazyTasks s).
Proof. intros [(H1 & H2 & H3) _]. unfold len. rewrite H2, H3. auto. Qed.

Lemma ready_grows (s s' : tree) : ready s -> grows s s' -> ready s'.
Proof.
  intros [R1 R2 R3 R4 R5] G. destruct (grows_len _ _ G) as (E1 & E2 & E3).
  split; rewrite ?E1, ?E2, ?E3; auto.
  eapply engaged_grows; eauto.
Qed.

Lemma forward_task_completes v c (t : task QueryT) (s : tree) :
  c <> v -> 0 <= c < len (lazyTasks s) ->
  exists s', forward_task v c t s = Done tt s'.
Proof.
  intros Hne Hc. unfold forward_task.
  assert ((c =? v) = false) as -> by lia.
  unfold lazyTasks_emplace_back.
  destruct (in_bounds_lookup (lazyTasks s) c Hc) as [q ->]. eauto.
Qed.

Lemma execute_task_completes v tl tr (t : task QueryT) (s : tree) q :
  1 <= v -> 2 * v + 1 < len (lazyTasks s) -> len (lazyTasks s) <= 2 ^ 63 ->
  data s !! Z.to_nat v = Some (Some q) ->
  exists s', execute_task v tl tr t s = Done tt s'.
Proof.
  intros Hv Hb Hlen Hq.
  assert (H : forall x : QueryT,
            exists s',
              bind (data_assign v x) (fun _ =>
              bind (forward_task v (wrap (2 * v)) t) (fun _ =>
              forward_task v (wrap (2 * v + 1)) t)) s = Done tt s').
  { intros x. unfold bind at 1. unfold data_assign. rewrite Hq.
    rewrite !wrap_small by lia.
    set (s1 := mkSegmentTree _ _ _).
    destruct (forward_task_completes v (2 * v) t s1) as [s2 E2];
      [lia|simpl; lia|].
    unfold bind. rewrite E2.
    destruct (grows_len _ _ (growing_forward_task _ _ _ _ _ _ E2))
      as (_ & _ & L).
    apply forward_task_completes; [lia|]. rewrite L. simpl. lia. }
  destruct t as [|f|f]; cbn [execute_task].
  - eexists. reflexivity.
  - unfold bind at 1. unfold data_at. rewrite Hq.
    unfold bind at 1. unfold value, ret. apply H.
  - unfold bind at 1. unfold data_at. rewrite Hq.
    unfold bind at 1. unfold value, ret. apply H.
Qed.

Lemma execute_tasks_completes v tl tr (ts : list (task QueryT)) :
  forall (s : tree) q,
    1 <= v -> 2 * v + 1 < len (lazyTasks s) -> len (lazyTasks s) <= 2 ^ 63 ->
    data s !! Z.to_nat v = Some (Some q) ->
    exists s', execute_tasks v tl tr ts s = Done tt s'.
Proof.
  induction ts as [|t ts IH]; intros s q Hv Hb Hlen Hq; cbn [execute_tasks].
  - eexists. reflexivity.
  - destruct (execute_task_completes v tl tr t s q Hv Hb Hlen Hq) as [s1 E1].
    unfold bind. rewrite E1.
    pose proof (growing_execute_task _ _ _ _ _ _ _ E1) as G.
    destruct (grows_len _ _ G) as (_ & _ & L).
    destruct (proj2 G _ _ Hq) as [q' Hq'].
    apply (IH s1 q'); auto; rewrite L; auto.
Qed.

Lemma pushdown_completes v tl tr (s : tree) q :
  1 <= v -> 2 * v + 1 < len (lazyTasks s) -> len (lazyTasks s) <= 2 ^ 63 ->
  data s !! Z.to_nat v = Some (Some q) ->
  exists s', _execute_lazy_tasks_and_pushdown v tl tr s = Done tt s'.
Proof.
  intros Hv Hb Hlen Hq. unfold _execute_lazy_tasks_and_pushdown.
  assert (Hin : 0 <= v < len (lazyTasks s)) by lia.
  destruct (in_bounds_lookup (lazyTasks s) v Hin) as [ts Hts].
  unfold bind at 1. unfold lazyTasks_at. rewrite Hts.
  destruct (execute_tasks_completes v tl tr ts s q Hv Hb Hlen Hq) as [s1 E1].
  unfold bind. rewrite E1.
  destruct (grows_len _ _ (growing_execute_tasks _ _ _ _ _ _ _ E1))
    as (_ & _ & L).
  assert (Hin1 : 0 <= v < len (lazyTasks s1)) by lia.
  destruct (in_bounds_lookup (lazyTasks s1) v Hin1) as [ts1 Hts1].
  unfold lazyTasks_clear. rewrite Hts1. eauto.
Qed.

Context (plus : QueryT -> QueryT -> QueryT).

Lemma _merge_childs_completes v (s : tree) a b :
  1 <= v -> 2 * v + 1 < len (data s) -> len (data s) <= 2 ^ 63 ->
  data s !! Z.to_nat (2 * v) = Some (Some a) ->
  data s !! Z.to_nat (2 * v + 1) = Some (Some b) ->
  exists s', _merge_childs plus v s = Done tt s'.
Proof.
  intros Hv Hb Hlen Ha Hb'. eexists.
  apply (_merge_childs_done plus v a b s); auto. lia.
Qed.

Lemma _query_tree_completes cap fuel : forall v tl tr ql qr (s : tree),
  1 <= v -> 0 <= tl <= tr -> tr < 2 ^ 63 -> cap <= 2 ^ 63 ->
  len (data s) = cap -> len (lazyTasks s) = cap ->
  layout_fits (S fuel) cap v tl tr = true ->
  engaged s v tl tr ->
  exists r s', _query_tree plus true (S fuel) v tl tr ql qr s = Done r s'.
Proof.
  induction fuel as [|fuel IH]; intros v tl tr ql qr s Hv Hr Htr Hcap Hd Hl L E;
    rewrite _query_tree_step;
    pose proof (layout_fits_node _ _ _ _ _ L) as Hnode;
    destruct (engaged_data _ _ _ _ E) as [q Hq];
    (destruct (pushdown_completes v tl tr s q) as [s1 E1]; [lia..|auto|]);
    unfold bind at 1; rewrite E1;
    pose proof (growing_pushdown _ _ _ _ _ _ E1) as G1;
    destruct (grows_len _ _ G1) as (_ & Ld1 & Ll1);
    (destruct ((tl >? qr) || (tr <? ql)) eqn:Hout; [eexists _, _; reflexivity|]);
    (destruct ((ql <=? tl) && (tr <=? qr)) eqn:Hin;
      [assert (Hb : 0 <= v < len (data s1)) by lia;
       destruct (in_bounds_lookup (data s1) v Hb) as [d Hdv];
       unfold data_at; rewrite Hdv; eauto|]);
    assert (Hlt : tl < tr) by lia;
    destruct (layout_fits_children _ _ _ _ _ L Hlt) as (fuel' & Ef & L1 & L2);
    [discriminate Ef|].
  injection Ef as <-.
  destruct (engaged_children _ _ _ _ E Hlt) as [En1 En2].
  pose proof (mid_bounds _ _ Hlt) as Hmid.
  rewrite mid_spec by lia.
  rewrite !wrap_small by lia.
  destruct (IH (2 * v) tl ((tl + tr) / 2) ql qr s1) as (r1 & s2 & E2);
    try lia; auto.
  { eapply engaged_grows; eauto. }
  pose proof (growing_query_tree plus true _ _ _ _ _ _ _ _ _ E2) as G2.
  destruct (grows_len _ _ G2) as (_ & Ld2 & Ll2).
  destruct (IH (2 * v + 1) ((tl + tr) / 2 + 1) tr ql qr s2) as (r2 & s3 & E3);
    try lia; auto.
  { eapply engaged_grows; [exact G2|]. eapply engaged_grows; eauto. }
  unfold bind. rewrite E2, E3. destruct r1, r2; eexists _, _; reflexivity.
Qed.

Lemma _update_tree_completes u cap fuel : forall U v tl tr ul ur (s : tree),
  1 <= v -> 0 <= tl <= tr -> tr < 2 ^ 63 -> cap <= 2 ^ 63 ->
  len (data s) = cap -> len (lazyTasks s) = cap ->
  layout_fits (S fuel) cap v tl tr = true ->
  engaged s v tl tr ->
  exists s', _update_tree plus true (S fuel) U u v tl tr ul ur s = Done tt s'.
Proof.
  induction fuel as [|fuel IH]; intros U v tl tr ul ur s Hv Hr Htr Hcap Hd Hl L E;
    rewrite _update_tree_step;
    pose proof (layout_fits_node _ _ _ _ _ L) as Hnode;
    destruct (engaged_data _ _ _ _ E) as [q Hq];
    (destruct (pushdown_completes v tl tr s q) as [s1 E1]; [lia..|auto|]);
    unfold bind at 1; rewrite E1;
    pose proof (growing_pushdown _ _ _ _ _ _ E1) as G1;
    destruct (grows_len _ _ G1) as (_ & Ld1 & Ll1);
    (destruct ((tl >? ur) || (tr <? ul)) eqn:Hout; [eexists; reflexivity|]);
    (destruct ((ul <=? tl) && (tr <=? ur)) eqn:Hin;
      [assert (Hb : 0 <= v < len (lazyTasks s1)) by lia;
       destruct (in_bounds_lookup (lazyTasks s1) v Hb) as [d Hdv];
       unfold lazyTasks_emplace_back; rewrite Hdv; eauto|]);
    assert (Hlt : tl < tr) by lia;
    destruct (layout_fits_children _ _ _ _ _ L Hlt) as (fuel' & Ef & L1 & L2);
    [discriminate Ef|].
  injection Ef as <-.
  destruct (engaged_children _ _ _ _ E Hlt) as [En1 En2].
  pose proof (mid_bounds _ _ Hlt) as Hmid.
  rewrite mid_spec by lia.
  rewrite !wrap_small by lia.
  destruct (IH (deduce_from_lvalue U) (2 * v) tl ((tl + tr) / 2) ul ur s1)
    as (s2 & E2); try lia; auto.
  { eapply engaged_grows; eauto. }
  pose proof (growing_update_tree plus true _ _ _ _ _ _ _ _ _ _ _ E2) as G2.
  destruct (grows_len _ _ G2) as (_ & Ld2 & Ll2).
  destruct (IH (deduce_from_lvalue U) (2 * v + 1) ((tl + tr) / 2 + 1) tr ul ur s2)
    as (s3 & E3); try lia; auto.
  { eapply engaged_grows; [exact G2|]. eapply engaged_grows; eauto. }
  pose proof (growing_update_tree plus true _ _ _ _ _ _ _ _ _ _ _ E3) as G3.
  destruct (grows_len _ _ G3) as (_ & Ld3 & Ll3).
  unfold bind. rewrite E2, E3.
  pose proof (grows_trans _ _ _ G1 (grows_trans _ _ _ G2 G3)) as G.
  destruct (engaged_data _ _ _ _ (engaged_grows _ _ _ _ _ G En1)) as [a Ha].
  destruct (engaged_data _ _ _ _ (engaged_grows _ _ _ _ _ G En2)) as [b Hb].
  apply (_merge_childs_completes v s3 a b); auto; lia.
Qed.

Lemma recursion_depth_eq : recursion_depth = S 64.
Proof. reflexivity. Qed.

Lemma pushdown_fits_unfold N :
  pushdown_fits N = layout_fits recursion_depth (4 * N + 1) 1 0 (N - 1).
Proof. reflexivity. Qed.

Lemma ready_root (s : tree) :
  ready s ->
  layout_fits (S 64) (4 * size s + 1) 1 0 (size s - 1) = true.
Proof.
  intros R. pose proof (ready_fits _ R) as H.
  rewrite pushdown_fits_unfold, recursion_depth_eq in H. exact H.
Qed.

(** On a tree with lazy propagation that satisfies [ready], every query and
    every update with valid arguments returns, and leaves a tree that
    satisfies [ready]. *)
Lemma ready_operations_complete (s : tree) :
  ready s ->
  (forall pos, 0 <= pos < size s ->
     exists v s', query plus true pos s = Done v s' /\ ready s')
  /\ (forall l r, 0 <= l <= r -> r < size s ->
        exists v s', query_range plus true l r s = Done v s' /\ ready s')
  /\ (forall u pos, 0 <= pos < size s ->
        exists s', update plus true u pos s = Done tt s' /\ ready s')
  /\ (forall u l r, 0 <= l <= r -> r < size s ->
        exists s', update_range plus true u l r s = Done tt s' /\ ready s').
Proof.
  intros R. pose proof (ready_root s R) as L.
  pose proof (ready_size _ R) as Hsz. pose proof (ready_data _ R) as Hd.
  pose proof (ready_lazyTasks _ R) as Hl. pose proof (ready_engaged _ R) as E.
  assert (Hq : forall ql qr, exists r s',
             _query_tree plus true (S 64) 1 0 (size s - 1) ql qr s = Done r s').
  { intros ql qr.
    apply (_query_tree_completes (4 * size s + 1) 64); auto; lia. }
  assert (Hu : forall U u ul ur, exists s',
             _update_tree plus true (S 64) U u 1 0 (size s - 1) ul ur s
             = Done tt s').
  { intros U u ul ur.
    apply (_update_tree_completes u (4 * size s + 1) 64); auto; lia. }
  repeat split.
  - intros pos Hpos. destruct (Hq pos pos) as (r & s' & Q).
    assert (Q' : query plus true pos s = Done r s').
    { unfold query, bind, get_size, assert.
      assert (((0 <=? pos) && (pos <? size s)) = true) as -> by lia.
      cbv beta iota. unfold ret. rewrite wrap_small by lia.
      rewrite recursion_depth_eq. exact Q. }
    exists r, s'. split; [exact Q'|].
    exact (ready_grows _ _ R (growing_query plus true pos _ _ _ Q')).
  - intros l r Hl' Hr. destruct (Hq l r) as (v & s' & Q).
    assert (Q' : query_range plus true l r s = Done v s').
    { unfold query_range, bind, get_size, assert.
      assert (((0 <=? l) && (l <=? r) && (r <? size s)) = true) as -> by lia.
      cbv beta iota. unfold ret. rewrite wrap_small by lia.
      rewrite recursion_depth_eq. exact Q. }
    exists v, s'. split; [exact Q'|].
    exact (ready_grows _ _ R (growing_query_range plus true l r _ _ _ Q')).
  - intros u pos Hpos.
    destruct (Hu (deduce_from_lvalue (updater_type u)) u pos pos) as (s' & Q).
    assert (Q' : update plus true u pos s = Done tt s').
    { unfold update, bind, get_size, assert.
      assert (((0 <=? pos) && (pos <? size s)) = true) as -> by lia.
      cbv beta iota. unfold ret. rewrite wrap_small by lia.
      rewrite recursion_depth_eq. exact Q. }
    exists s'. split; [exact Q'|].
    exact (ready_grows _ _ R (growing_update plus true u pos _ _ _ Q')).
  - intros u l r Hl' Hr.
    destruct (Hu (deduce_from_lvalue (updater_type u)) u l r) as (s' & Q).
    assert (Q' : update_range plus true u l r s = Done tt s').
    { unfold update_range, bind, get_size, assert.
      assert (((0 <=? l) && (l <=? r) && (r <? size s)) = true) as -> by lia.
      cbv beta iota. unfold ret. rewrite wrap_small by lia.
      rewrite recursion_depth_eq. exact Q. }
    exists s'. split; [exact Q'|].
    exact (ready_grows _ _ R (growing_update_range plus true u l r _ _ _ Q')).
Qed.

End Total.

Section TotalBuilt.
Context {BaseT QueryT : Type} (QueryT_of : BaseT -> QueryT)
  (plus : QueryT -> QueryT -> QueryT).
Local Abbreviation tree := (SegmentTree QueryT).

Lemma constructed_ready (input_data : list BaseT) (s : tree) :
  1 <= len input_data < 2 ^ 61 ->
  pushdown_fits (len input_data) = true ->
  SegmentTree_vector QueryT_of plus true input_data = Done tt s ->
  ready s.
Proof.
  intros HN Hfit E. rewrite SegmentTree_vector_unfold in E.
  destruct (construct_spec QueryT_of plus input_data true HN)
    as (s' & q & E' & Hsz & Hd & Hl & B).
  assert (Heq : Done tt s' = Done tt s) by (rewrite <- E', <- E; reflexivity).
  injection Heq as <-.
  split; rewrite ?Hsz; auto.
  - unfold len at 1. rewrite Hl, length_replicate. lia.
  - rewrite <- Hsz. eapply built_engaged. rewrite Hsz. exact B.
Qed.

Lemma update_all_completes (calls : list (update_call QueryT)) :
  forall s : tree,
    ready s -> valid_calls (size s) calls ->
    exists s', update_all plus calls s = Done tt s' /\ ready s'
               /\ size s' = size s.
Proof.
  induction calls as [|c calls IH]; intros s R V; cbn [update_all].
  - exists s. auto.
  - inversion V as [|c' calls' [Hc1 Hc2] V']; subst.
    destruct (ready_operations_complete plus s R) as (_ & _ & _ & Hu).
    destruct (Hu (call_updater c) (call_left c) (call_right c) Hc1 Hc2)
      as (s1 & E1 & R1).
    destruct (grows_len _ _ (growing_update_range plus true _ _ _ _ _ _ E1))
      as (Hsz & _).
    destruct (IH s1 R1) as (s' & E' & R' & Hsz'); [now rewrite Hsz|].
    exists s'. unfold bind. rewrite E1. split; [exact E'|].
    split; [exact R'|congruence].
Qed.

(** Build, update, then ask for a single position, on a size on which
    the push-down stays inside the vectors: everything completes, and
    [query(j)] returns the [j]-th element's query value with the updaters
    of the calls that cover [j] applied to it in call order. *)
Lemma fitting_size_total (input_data : list BaseT)
    (calls : list (update_call QueryT)) j :
  1 <= len input_data < 2 ^ 61 ->
  pushdown_fits (len input_data) = true ->
  valid_calls (len input_data) calls ->
  0 <= j < len input_data ->
  exists s0 s s',
    SegmentTree_vector QueryT_of plus true input_data = Done tt s0
    /\ update_all plus calls s0 = Done tt s
    /\ query plus true j s
       = Done (after_updates calls j (QueryT_of <$> input_data !! Z.to_nat j)) s'.
Proof.
  intros HN Hfit V Hj.
  destruct (construct_spec QueryT_of plus input_data true HN)
    as (s0 & q & E0 & Hsz0 & _).
  rewrite <- SegmentTree_vector_unfold in E0.
  pose proof (constructed_ready input_data s0 HN Hfit E0) as R0.
  destruct (update_all_completes calls s0 R0) as (s & E & R & Hsz);
    [now rewrite Hsz0|].
  destruct (ready_operations_complete plus s R) as (Hq & _).
  destruct (Hq j) as (r & s' & Q & _); [lia|].
  exists s0, s, s'. split; [exact E0|]. split; [exact E|].
  rewrite Q. f_equal.
  pose proof (ready_size _ R0) as B0. pose proof (ready_lazyTasks _ R0) as L0.
  assert (Hs0 : size s0 <= 2 ^ 63) by lia.
  assert (Hl0 : len (lazyTasks s0) <= 2 ^ 63) by lia.
  destruct (update_all_position_values plus calls s0 s Hs0 Hl0 E)
    as (_ & L & Val).
  assert (Hs : size s <= 2 ^ 63) by lia.
  rewrite (query_position_value plus _ _ _ _ Hs L Q).
  rewrite Val by lia. f_equal.
  pose proof (query_fresh_position QueryT_of plus input_data true s0 j HN E0 Hj)
    as HF.
  symmetry. exact (query_position_value plus _ _ _ _ Hs0 Hl0 HF).
Qed.

End TotalBuilt.

Section NeverFaults.
Context {BaseT QueryT : Type} (QueryT_of : BaseT -> QueryT)
  (plus : QueryT -> QueryT -> QueryT).
Local Abbreviation tree := (SegmentTree QueryT).

Lemma after_operations_grows (s s' : tree) :
  after_operations plus s s' -> grows s s'.
Proof.
  intros A. induction A as [|s1 s2 p r _ IH Q|s1 s2 l r v _ IH Q
                            |s1 s2 u p _ IH Q|s1 s2 u l r _ IH Q].
  - apply grows_refl.
  - exact (grows_trans _ _ _ IH (growing_query plus true _ _ _ _ Q)).
  - exact (grows_trans _ _ _ IH (growing_query_range plus true _ _ _ _ _ Q)).
  - exact (grows_trans _ _ _ IH (growing_update plus true _ _ _ _ _ Q)).
  - exact (grows_trans _ _ _ IH (growing_update_range plus true _ _ _ _ _ _ Q)).
Qed.

(** X17.  On a size on which the push-down stays inside the vectors, a tree with
    lazy propagation never faults: the constructor completes and, whatever
    queries and updates have completed since, every query and every update
    with valid arguments completes. *)
Theorem fitting_size_never_faults (input_data : list BaseT) :
  1 <= len input_data < 2 ^ 61 ->
  pushdown_fits (len input_data) = true ->
  exists s0,
    SegmentTree_vector QueryT_of plus true input_data = Done tt s0
    /\ forall s, after_operations plus s0 s ->
         size s = len input_data
         /\ (forall pos, 0 <= pos < len input_data ->
               exists v s', query plus true pos s = Done v s')
         /\ (forall l r, 0 <= l <= r -> r < len input_data ->
               exists v s', query_range plus true l r s = Done v s')
         /\ (forall u pos, 0 <= pos < len input_data ->
               exists s', update plus true u pos s = Done tt s')
         /\ (forall u l r, 0 <= l <= r -> r < len input_data ->
               exists s', update_range plus true u l r s = Done tt s').
Proof.
  intros HN Hfit.
  destruct (construct_spec QueryT_of plus input_data true HN)
    as (s0 & q & E0 & Hsz0 & _).
  rewrite <- SegmentTree_vector_unfold in E0.
  pose proof (constructed_ready QueryT_of plus input_data s0 HN Hfit E0) as R0.
  exists s0. split; [exact E0|]. intros s A.
  pose proof (after_operations_grows _ _ A) as G.
  pose proof (ready_grows _ _ R0 G) as R.
  destruct (grows_len _ _ G) as (Hsz & _).
  destruct (ready_operations_complete plus s R) as (H1 & H2 & H3 & H4).
  rewrite <- Hsz0, <- Hsz. split; [reflexivity|]. repeat split.
  - intros pos Hp. destruct (H1 pos Hp) as (v & s' & E & _). eauto.
  - intros l r Hl Hr. destruct (H2 l r Hl Hr) as (v & s' & E & _). eauto.
  - intros u pos Hp. destruct (H3 u pos Hp) as (s' & E & _). eauto.
  - intros u l r Hl Hr. destruct (H4 u l r Hl Hr) as (s' & E & _). eauto.
Qed.

End NeverFaults.

(** ** Powers of two *)

Lemma layout_fits_power_of_two cap (k : nat) : forall (fuel : nat) v tl,
  (k < fuel)%nat -> 1 <= v -> 0 <= tl ->
  (v + 1) * 2 ^ Z.of_nat (S k) < cap ->
  layout_fits fuel cap v tl (tl + 2 ^ Z.of_nat k - 1) = true.
Proof.
  induction k as [|k IH]; intros fuel v tl Hk Hv Htl Hcap;
    (destruct fuel as [|fuel]; [lia|]); rewrite layout_fits_step;
    rewrite pow2_succ in Hcap.
  - change (2 ^ Z.of_nat 0) with 1 in *.
    assert ((2 * v + 1 <? cap) = true) as -> by lia.
    assert ((tl <? tl + 1 - 1) = false) as -> by lia. reflexivity.
  - pose proof (pow2_pos k) as Hp. rewrite pow2_succ in Hcap |- *.
    assert ((2 * v + 1 <? cap) = true) as -> by nia.
    assert ((tl <? tl + 2 * 2 ^ Z.of_nat k - 1) = true) as -> by lia.
    assert (Hmid : (tl + (tl + 2 * 2 ^ Z.of_nat k - 1)) / 2
                   = tl + 2 ^ Z.of_nat k - 1).
    { symmetry. apply (Z.div_unique _ 2 _ 1); lia. }
    rewrite Hmid.
    rewrite (IH fuel (2 * v) tl) by (rewrite ?pow2_succ; nia || lia).
    replace (tl + 2 * 2 ^ Z.of_nat k - 1)
      with ((tl + 2 ^ Z.of_nat k - 1 + 1) + 2 ^ Z.of_nat k - 1) by lia.
    rewrite (IH fuel (2 * v + 1)) by (rewrite ?pow2_succ; nia || lia).
    reflexivity.
Qed.

Lemma power_of_two_fits (k : Z) : 0 <= k <= 60 -> pushdown_fits (2 ^ k) = true.
Proof.
  intros Hk. rewrite pushdown_fits_unfold.
  replace (2 ^ k - 1) with (0 + 2 ^ Z.of_nat (Z.to_nat k) - 1)
    by (rewrite Z2Nat.id; lia).
  apply layout_fits_power_of_two; try lia.
  - unfold recursion_depth. lia.
  - rewrite pow2_succ, Z2Nat.id by lia. lia.
Qed.

(** X18.  With a power of two as the number of elements, nothing faults on a
    tree with lazy propagation: the constructor completes, any sequence of
    updates with valid arguments completes, and [query(j)] then returns
    the [j]-th element's query value with the updaters of the calls that
    cover [j] applied to it in call order, each with [(j)] or [(j, j)] as
    its boundaries. *)
Theorem power_of_two_total {BaseT QueryT} (QueryT_of : BaseT -> QueryT)
    (plus : QueryT -> QueryT -> QueryT) (k : Z) (input_data : list BaseT)
    (calls : list (update_call QueryT)) j :
  0 <= k <= 60 -> len input_data = 2 ^ k ->
  valid_calls (2 ^ k) calls ->
  0 <= j < 2 ^ k ->
  exists s0 s s',
    SegmentTree_vector QueryT_of plus true input_data = Done tt s0
    /\ update_all plus calls s0 = Done tt s
    /\ query plus true j s
       = Done (after_updates calls j (QueryT_of <$> input_data !! Z.to_nat j)) s'.
Proof.
  intros Hk HN V Hj.
  assert (H60 : 2 ^ k <= 2 ^ 60) by (apply Z.pow_le_mono_r; lia).
  assert (H1 : 1 <= 2 ^ k) by (pose proof (Z.pow_pos_nonneg 2 k); lia).
  apply fitting_size_total; rewrite ?HN; auto; try lia.
  now apply power_of_two_fits.
Qed.

(** ** Witnesses and scenarios *)

Lemma query_eager_no_mutation_witness :
  query_range Z.add false 1 4 (sum_6 false) = Done (Some 14) (sum_6 false)
  /\ sum_6 false = sum_6 false.
Proof.
  split; [vm_compute; reflexivity|].
  apply (query_eager_no_mutation Z.add (sum_6 false) (sum_6 false) 1 4
           (Some 14)).
  right. vm_compute. reflexivity.
Defined.

Lemma query_range_twice_witness :
  len (lazyTasks sum_5_updated) <= 2 ^ 63
  /\ query_range Z.add true 1 3 sum_5_updated
     = Done (Some 39) sum_5_updated_queried
  /\ query_range Z.add true 1 3 sum_5_updated_queried
     = Done (Some 39) sum_5_updated_queried.
Proof.
  assert (H1 : len (lazyTasks sum_5_updated) <= 2 ^ 63)
    by (vm_compute; discriminate).
  assert (H2 : query_range Z.add true 1 3 sum_5_updated
               = Done (Some 39) sum_5_updated_queried)
    by (vm_compute; reflexivity).
  split; [exact H1|]. split; [exact H2|].
  exact (query_range_twice Z.add true sum_5_updated sum_5_updated_queried
           1 3 (Some 39) H1 H2).
Defined.

(** The first of the two queries above did change the tree: it emptied the
    queue of node 9 (position 1). *)
Example query_range_twice_first_call_mutates :
  length <$> (lazyTasks sum_5_updated !! 9%nat) = Some 1%nat
  /\ length <$> (lazyTasks sum_5_updated_queried !! 9%nat) = Some 0%nat.
Proof. split; vm_compute; reflexivity. Qed.

(** The theorems about a tree that has just been built, at sums over
    [1,2,3,4,5]. *)
Example fresh_query_range_sum_5 :
  query_range Z.add true 1 3 sum_5 = Done (Some 9) sum_5
  /\ query Z.add true 4 sum_5 = Done (Some 5) sum_5.
Proof.
  assert (HN : 1 <= len [1; 2; 3; 4; 5] < 2 ^ 61)
    by (vm_compute; split; congruence).
  assert (HT : SegmentTree_vector (fun b : Z => b) Z.add true [1; 2; 3; 4; 5]
               = Done tt sum_5) by (vm_compute; reflexivity).
  assert (HA : forall x y z, x + y + z = x + (y + z))
    by (intros; symmetry; apply Z.add_assoc).
  split.
  - apply (fresh_query_range (fun b : Z => b) Z.add [1; 2; 3; 4; 5] HA true
             sum_5 1 3 HN HT); vm_compute; split; congruence.
  - apply (fresh_query (fun b : Z => b) Z.add [1; 2; 3; 4; 5] HA true
             sum_5 4 HN HT); vm_compute; split; congruence.
Qed.

Lemma SegmentTree_size_built_witness :
  1 <= 3 < 2 ^ 61
  /\ exists s q,
       SegmentTree_size (fun b : Z => b) Z.add 0 true 3 = Done tt s
       /\ size s = 3
       /\ len (data s) = 4 * 3 + 1
       /\ lazyTasks s
          = (if true then replicate (Z.to_nat (4 * 3 + 1)) [] else [])
       /\ built (fun b : Z => b) Z.add (replicate (Z.to_nat 3) 0) s 1 0
            (3 - 1) q.
Proof.
  assert (HN : 1 <= 3 < 2 ^ 61) by lia.
  split; [exact HN|].
  exact (SegmentTree_size_built (fun b : Z => b) Z.add 0 true 3 HN).
Defined.

(** The frame property at sums over [1,2,3,4,5]: [query(4)] returns 5;
    after [update(add 10, 1, 3)] and the query [query(1, 3)], which pushes
    tasks down, [query(4)] returns 5 again. *)
Example update_frame_sum_5 :
  exists s0 s3,
    query Z.add true 4 sum_5 = Done (Some 5) s0
    /\ update_range Z.add true add_10 1 3 sum_5 = Done tt sum_5_updated
    /\ after_queries Z.add sum_5_updated sum_5_updated_queried
    /\ query Z.add true 4 sum_5_updated_queried = Done (Some 5) s3.
Proof.
  eexists _, _. split; [vm_compute; reflexivity|].
  split; [vm_compute; reflexivity|]. split; [|vm_compute; reflexivity].
  eapply (after_query_range Z.add sum_5_updated sum_5_updated
            sum_5_updated_queried 1 3 (Some 39)).
  - apply after_no_query.
  - vm_compute. reflexivity.
Qed.

Lemma lazy_query_after_updates_witness :
  1 <= len [1; 2; 3; 4; 5] < 2 ^ 61
  /\ SegmentTree_vector (fun b : Z => b) Z.add true [1; 2; 3; 4; 5]
     = Done tt sum_5
  /\ update_all Z.add add_10_twice sum_5 = Done tt sum_5_updated_twice
  /\ query Z.add true 2 sum_5_updated_twice
     = Done (Some 23) (tree_of (query Z.add true 2 sum_5_updated_twice))
  /\ Some 23
     = after_updates add_10_twice 2
         ((fun b : Z => b) <$> [1; 2; 3; 4; 5] !! Z.to_nat 2).
Proof.
  assert (HN : 1 <= len [1; 2; 3; 4; 5] < 2 ^ 61)
    by (vm_compute; split; congruence).
  assert (HT : SegmentTree_vector (fun b : Z => b) Z.add true [1; 2; 3; 4; 5]
               = Done tt sum_5) by (vm_compute; reflexivity).
  assert (HU : update_all Z.add add_10_twice sum_5
               = Done tt sum_5_updated_twice) by (vm_compute; reflexivity).
  assert (HQ : query Z.add true 2 sum_5_updated_twice
               = Done (Some 23)
                   (tree_of (query Z.add true 2 sum_5_updated_twice)))
    by (vm_compute; reflexivity).
  repeat (split; [assumption|]).
  exact (lazy_query_after_updates (fun b : Z => b) Z.add [1; 2; 3; 4; 5]
           add_10_twice sum_5 sum_5_updated_twice _ 2 (Some 23)
           HN HT HU HQ).
Defined.

Lemma operations_keep_the_shape_witness :
  (query Z.add true 1 sum_5_updated = Done (Some 39) sum_5_updated_queried
   \/ query_range Z.add true 1 3 sum_5_updated
      = Done (Some 39) sum_5_updated_queried
   \/ update Z.add true add_10 1 sum_5_updated = Done tt sum_5_updated_queried
   \/ update_range Z.add true add_10 1 3 sum_5_updated
      = Done tt sum_5_updated_queried)
  /\ size sum_5_updated_queried = size sum_5_updated
  /\ length (data sum_5_updated_queried) = length (data sum_5_updated)
  /\ length (lazyTasks sum_5_updated_queried)
     = length (lazyTasks sum_5_updated)
  /\ forall (i : nat) q,
       data sum_5_updated !! i = Some (Some q) ->
       exists q', data sum_5_updated_queried !! i = Some (Some q').
Proof.
  assert (H : query_range Z.add true 1 3 sum_5_updated
              = Done (Some 39) sum_5_updated_queried)
    by (vm_compute; reflexivity).
  split; [right; left; exact H|].
  exact (operations_keep_the_shape Z.add true add_10 sum_5_updated
           sum_5_updated_queried 1 1 3 (Some 39) (or_intror (or_introl H))).
Defined.

Lemma eager_update_never_runs_witness :
  size (sum_6 false) <= 2 ^ 63 /\ 0 <= 1 <= 4 /\ 4 < size (sum_6 false)
  /\ update_range Z.add false add_10_each 1 4 (sum_6 false)
     = Fault InvalidUpdaterType
  /\ update Z.add false add_10_each 1 (sum_6 false) = Fault InvalidUpdaterType.
Proof.
  assert (H1 : size (sum_6 false) <= 2 ^ 63) by (vm_compute; congruence).
  assert (H2 : 0 <= 1 <= 4) by lia.
  assert (H3 : 4 < size (sum_6 false)) by (vm_compute; reflexivity).
  repeat (split; [assumption|]).
  exact (eager_update_never_runs Z.add add_10_each (sum_6 false) 1 4 H1 H2 H3).
Defined.

Lemma pushdown_effect_witness :
  1 <= 9 /\ len (lazyTasks sum_5_updated) <= 2 ^ 63
  /\ _execute_lazy_tasks_and_pushdown 9 1 1 sum_5_updated = Done tt sum_5_pushed
  /\ exists ts,
       lazyTasks sum_5_updated !! Z.to_nat 9 = Some ts
       /\ lazyTasks sum_5_pushed !! Z.to_nat 9 = Some []
       /\ data sum_5_pushed !! Z.to_nat 9
          = option_map (fun q => apply_tasks ts q 1 1)
              <$> data sum_5_updated !! Z.to_nat 9
       /\ (forall i : nat, i <> Z.to_nat 9 ->
             data sum_5_pushed !! i = data sum_5_updated !! i)
       /\ lazyTasks sum_5_pushed !! Z.to_nat (2 * 9)
          = (fun q => q ++ filter (fun t => is_forwarded t = true) ts)
              <$> lazyTasks sum_5_updated !! Z.to_nat (2 * 9)
       /\ lazyTasks sum_5_pushed !! Z.to_nat (2 * 9 + 1)
          = (fun q => q ++ filter (fun t => is_forwarded t = true) ts)
              <$> lazyTasks sum_5_updated !! Z.to_nat (2 * 9 + 1)
       /\ (forall i : nat,
             i <> Z.to_nat 9 -> i <> Z.to_nat (2 * 9) ->
             i <> Z.to_nat (2 * 9 + 1) ->
             lazyTasks sum_5_pushed !! i = lazyTasks sum_5_updated !! i).
Proof.
  assert (H1 : 1 <= 9) by lia.
  assert (H2 : len (lazyTasks sum_5_updated) <= 2 ^ 63)
    by (vm_compute; congruence).
  assert (H3 : _execute_lazy_tasks_and_pushdown 9 1 1 sum_5_updated
               = Done tt sum_5_pushed) by (vm_compute; reflexivity).
  repeat (split; [assumption|]).
  exact (pushdown_effect 9 1 1 sum_5_updated sum_5_pushed H1 H2 H3).
Defined.

Lemma pushdown_twice_witness :
  _execute_lazy_tasks_and_pushdown 9 1 1 sum_5_updated = Done tt sum_5_pushed
  /\ _execute_lazy_tasks_and_pushdown 9 0 4 sum_5_pushed = Done tt sum_5_pushed.
Proof.
  assert (H : _execute_lazy_tasks_and_pushdown 9 1 1 sum_5_updated
              = Done tt sum_5_pushed) by (vm_compute; reflexivity).
  split; [exact H|].
  exact (pushdown_twice 9 1 1 0 4 sum_5_updated sum_5_pushed H).
Defined.

Lemma update_then_query_witness :
  size sum_5 <= 2 ^ 63 /\ len (lazyTasks sum_5) <= 2 ^ 63
  /\ query Z.add true 2 sum_5 = Done (Some 3) sum_5
  /\ (update Z.add true add_10 1 sum_5 = Done tt sum_5_updated /\ 3 = 1
      \/ update_range Z.add true add_10 1 3 sum_5 = Done tt sum_5_updated)
  /\ after_queries Z.add sum_5_updated sum_5_updated_queried
  /\ query Z.add true 2 sum_5_updated_queried
     = Done (Some 13) (tree_of (query Z.add true 2 sum_5_updated_queried))
  /\ Some 13
     = if (1 <=? 2) && (2 <=? 3)
       then option_map (fun x => apply_task (task_of add_10) x 2 2) (Some 3)
       else Some 3.
Proof.
  assert (H1 : size sum_5 <= 2 ^ 63) by (vm_compute; congruence).
  assert (H2 : len (lazyTasks sum_5) <= 2 ^ 63) by (vm_compute; congruence).
  assert (H3 : query Z.add true 2 sum_5 = Done (Some 3) sum_5)
    by (vm_compute; reflexivity).
  assert (H4 : update Z.add true add_10 1 sum_5 = Done tt sum_5_updated /\ 3 = 1
               \/ update_range Z.add true add_10 1 3 sum_5
                  = Done tt sum_5_updated)
    by (right; vm_compute; reflexivity).
  assert (H5 : after_queries Z.add sum_5_updated sum_5_updated_queried).
  { apply (after_query_range Z.add sum_5_updated sum_5_updated
             sum_5_updated_queried 1 3 (Some 39)).
    - apply after_no_query.
    - vm_compute. reflexivity. }
  assert (H6 : query Z.add true 2 sum_5_updated_queried
               = Done (Some 13)
                   (tree_of (query Z.add true 2 sum_5_updated_queried)))
    by (vm_compute; reflexivity).
  repeat (split; [assumption|]).
  exact (update_then_query Z.add add_10 sum_5 sum_5 sum_5_updated
           sum_5_updated_queried _ 1 3 2 (Some 3) (Some 13)
           H1 H2 H3 H4 H5 H6).
Defined.

Lemma queries_keep_answers_witness :
  size sum_5_updated <= 2 ^ 63 /\ len (lazyTasks sum_5_updated) <= 2 ^ 63
  /\ query Z.add true 2 sum_5_updated
     = Done (Some 13) (tree_of (query Z.add true 2 sum_5_updated))
  /\ after_queries Z.add sum_5_updated sum_5_updated_queried
  /\ query Z.add true 2 sum_5_updated_queried
     = Done (Some 13) (tree_of (query Z.add true 2 sum_5_updated_queried))
  /\ Some 13 = Some 13.
Proof.
  assert (H1 : size sum_5_updated <= 2 ^ 63) by (vm_compute; congruence).
  assert (H2 : len (lazyTasks sum_5_updated) <= 2 ^ 63)
    by (vm_compute; congruence).
  assert (H3 : query Z.add true 2 sum_5_updated
               = Done (Some 13) (tree_of (query Z.add true 2 sum_5_updated)))
    by (vm_compute; reflexivity).
  assert (H4 : after_queries Z.add sum_5_updated sum_5_updated_queried).
  { apply (after_query_range Z.add sum_5_updated sum_5_updated
             sum_5_updated_queried 1 3 (Some 39)).
    - apply after_no_query.
    - vm_compute. reflexivity. }
  assert (H5 : query Z.add true 2 sum_5_updated_queried
               = Done (Some 13)
                   (tree_of (query Z.add true 2 sum_5_updated_queried)))
    by (vm_compute; reflexivity).
  repeat (split; [assumption|]).
  exact (queries_keep_answers Z.add sum_5_updated sum_5_updated_queried _ _ 2
           (Some 13) (Some 13) H1 H2 H3 H4 H5).
Defined.

Lemma SegmentTree_vector_built_witness :
  1 <= len [1; 2; 3; 4; 5] < 2 ^ 61
  /\ exists s q,
       SegmentTree_vector (fun b : Z => b) Z.add true [1; 2; 3; 4; 5]
       = Done tt s
       /\ size s = len [1; 2; 3; 4; 5]
       /\ len (data s) = 4 * len [1; 2; 3; 4; 5] + 1
       /\ lazyTasks s
          = (if true
             then replicate (Z.to_nat (4 * len [1; 2; 3; 4; 5] + 1)) []
             else [])
       /\ built (fun b : Z => b) Z.add [1; 2; 3; 4; 5] s 1 0
            (len [1; 2; 3; 4; 5] - 1) q.
Proof.
  assert (HN : 1 <= len [1; 2; 3; 4; 5] < 2 ^ 61)
    by (vm_compute; split; congruence).
  split; [exact HN|].
  exact (SegmentTree_vector_built (fun b : Z => b) Z.add [1; 2; 3; 4; 5] true HN).
Defined.

Lemma SegmentTree_size_value_built_witness :
  1 <= 3 < 2 ^ 61
  /\ exists s q,
       SegmentTree_size_value (fun b : Z => b) Z.min false 3 7 = Done tt s
       /\ size s = 3
       /\ len (data s) = 4 * 3 + 1
       /\ lazyTasks s
          = (if false then replicate (Z.to_nat (4 * 3 + 1)) [] else [])
       /\ built (fun b : Z => b) Z.min (replicate (Z.to_nat 3) 7) s 1 0
            (3 - 1) q.
Proof.
  assert (HN : 1 <= 3 < 2 ^ 61) by lia.
  split; [exact HN|].
  exact (SegmentTree_size_value_built (fun b : Z => b) Z.min false 3 7 HN).
Defined.

Lemma built_tree_answers_position_queries_witness :
  1 <= len [5; 3; 8; 1; 9] < 2 ^ 61
  /\ exists s,
       SegmentTree_vector (fun b : Z => b) Z.sub true [5; 3; 8; 1; 9]
       = Done tt s
       /\ forall i, 0 <= i < len [5; 3; 8; 1; 9] ->
            query Z.sub true i s
            = Done ((fun b : Z => b) <$> [5; 3; 8; 1; 9] !! Z.to_nat i) s.
Proof.
  assert (HN : 1 <= len [5; 3; 8; 1; 9] < 2 ^ 61)
    by (vm_compute; split; congruence).
  split; [exact HN|].
  exact (built_tree_answers_position_queries (fun b : Z => b) Z.sub
           [5; 3; 8; 1; 9] true HN).
Defined.

Lemma built_tree_answers_range_queries_witness :
  (forall x y z, Z.min (Z.min x y) z = Z.min x (Z.min y z))
  /\ 1 <= len [5; 3; 8; 1; 9] < 2 ^ 61
  /\ exists s,
       SegmentTree_vector (fun b : Z => b) Z.min false [5; 3; 8; 1; 9]
       = Done tt s
       /\ forall l r, 0 <= l <= r -> r < len [5; 3; 8; 1; 9] ->
            query_range Z.min false l r s
            = Done (combine_list Z.min
                      ((fun b : Z => b) <$> segment [5; 3; 8; 1; 9] l r)) s.
Proof.
  assert (HA : forall x y z, Z.min (Z.min x y) z = Z.min x (Z.min y z))
    by (intros; lia).
  assert (HN : 1 <= len [5; 3; 8; 1; 9] < 2 ^ 61)
    by (vm_compute; split; congruence).
  split; [exact HA|]. split; [exact HN|].
  exact (built_tree_answers_range_queries (fun b : Z => b) Z.min
           [5; 3; 8; 1; 9] false HA HN).
Defined.

Lemma fresh_query_range_is_combine_of_positions_witness :
  1 <= len [1; 2; 3; 4; 5] < 2 ^ 61
  /\ SegmentTree_vector (fun b : Z => b) Z.add true [1; 2; 3; 4; 5]
     = Done tt sum_5
  /\ 0 <= 1 <= 3 /\ 3 < len [1; 2; 3; 4; 5]
  /\ exists rs,
       query_each Z.add true (positions 1 3) sum_5 = Done rs sum_5
       /\ query_range Z.add true 1 3 sum_5
          = Done (combine_results Z.add rs) sum_5.
Proof.
  assert (HA : forall x y z, x + y + z = x + (y + z)) by (intros; lia).
  assert (HN : 1 <= len [1; 2; 3; 4; 5] < 2 ^ 61)
    by (vm_compute; split; congruence).
  assert (HT : SegmentTree_vector (fun b : Z => b) Z.add true [1; 2; 3; 4; 5]
               = Done tt sum_5) by (vm_compute; reflexivity).
  assert (H1 : 0 <= 1 <= 3) by lia.
  assert (H2 : 3 < len [1; 2; 3; 4; 5]) by (vm_compute; reflexivity).
  repeat (split; [assumption|]).
  exact (fresh_query_range_is_combine_of_positions (fun b : Z => b) Z.add
           [1; 2; 3; 4; 5] HA true sum_5 1 3 HN HT H1 H2).
Defined.

Lemma recursion_depth_suffices_witness :
  size sum_5_updated <= 2 ^ 63
  /\ (forall pos, query Z.add true pos sum_5_updated <> Fault OutOfFuel)
  /\ (forall l r, query_range Z.add true l r sum_5_updated <> Fault OutOfFuel)
  /\ (forall u pos, update Z.add true u pos sum_5_updated <> Fault OutOfFuel)
  /\ (forall u l r,
        update_range Z.add true u l r sum_5_updated <> Fault OutOfFuel).
Proof.
  assert (H : size sum_5_updated <= 2 ^ 63) by (vm_compute; congruence).
  split; [exact H|].
  exact (recursion_depth_suffices Z.add true sum_5_updated H).
Defined.

Lemma fitting_size_never_faults_witness :
  1 <= len [1; 2; 3; 4; 5] < 2 ^ 61
  /\ pushdown_fits (len [1; 2; 3; 4; 5]) = true
  /\ exists s0,
       SegmentTree_vector (fun b : Z => b) Z.add true [1; 2; 3; 4; 5]
       = Done tt s0
       /\ forall s, after_operations Z.add s0 s ->
            size s = len [1; 2; 3; 4; 5]
            /\ (forall pos, 0 <= pos < len [1; 2; 3; 4; 5] ->
                  exists v s', query Z.add true pos s = Done v s')
            /\ (forall l r, 0 <= l <= r -> r < len [1; 2; 3; 4; 5] ->
                  exists v s', query_range Z.add true l r s = Done v s')
            /\ (forall u pos, 0 <= pos < len [1; 2; 3; 4; 5] ->
                  exists s', update Z.add true u pos s = Done tt s')
            /\ (forall u l r, 0 <= l <= r -> r < len [1; 2; 3; 4; 5] ->
                  exists s', update_range Z.add true u l r s = Done tt s').
Proof.
  assert (HN : 1 <= len [1; 2; 3; 4; 5] < 2 ^ 61)
    by (vm_compute; split; congruence).
  assert (HF : pushdown_fits (len [1; 2; 3; 4; 5]) = true)
    by (vm_compute; reflexivity).
  split; [exact HN|]. split; [exact HF|].
  exact (fitting_size_never_faults (fun b : Z => b) Z.add [1; 2; 3; 4; 5]
           HN HF).
Defined.

Lemma power_of_two_total_witness :
  0 <= 2 <= 60 /\ len [1; 2; 3; 4] = 2 ^ 2
  /\ valid_calls (2 ^ 2) add_10_then_each
  /\ 0 <= 2 < 2 ^ 2
  /\ exists s0 s s',
       SegmentTree_vector (fun b : Z => b) Z.add true [1; 2; 3; 4] = Done tt s0
       /\ update_all Z.add add_10_then_each s0 = Done tt s
       /\ query Z.add true 2 s
          = Done (after_updates add_10_then_each 2
                    ((fun b : Z => b) <$> [1; 2; 3; 4] !! Z.to_nat 2)) s'.
Proof.
  assert (H1 : 0 <= 2 <= 60) by lia.
  assert (H2 : len [1; 2; 3; 4] = 2 ^ 2) by (vm_compute; reflexivity).
  assert (H3 : valid_calls (2 ^ 2) add_10_then_each)
    by (repeat constructor; simpl; lia).
  assert (H4 : 0 <= 2 < 2 ^ 2) by lia.
  repeat (split; [assumption|]).
  exact (power_of_two_total (fun b : Z => b) Z.add 2 [1; 2; 3; 4]
           add_10_then_each 2 H1 H2 H3 H4).
Defined.

(** The sizes up to 16 on which the push-down stays inside the vectors, and
    those on which it does not. *)
Example pushdown_fits_up_to_16 :
  filter (fun N => pushdown_fits N = true) (positions 1 16)
  = [1; 2; 3; 4; 5; 7; 8; 9; 15; 16]
  /\ filter (fun N => pushdown_fits N = false) (positions 1 16)
     = [6; 10; 11; 12; 13; 14].
Proof. split; vm_compute; reflexivity. Qed.

(** The specification's scenario for sums with lazy propagation: over
    [1,2,3,4,5], [query(0, 4)] returns 15; after [update(add 10, 1, 3)],
    [query(1, 3)] returns 39, [query(0, 0)] returns 1 and [query(4, 4)]
    returns 5. *)
Example scenario_sum_range_add :
  result (query_range Z.add true 0 4 sum_5) = inr (Some 15)
  /\ result (query_range Z.add true 1 3 sum_5_updated) = inr (Some 39)
  /\ result (and_then (query_range Z.add true 1 3 sum_5_updated)
               (query_range Z.add true 0 0)) = inr (Some 1)
  /\ result (and_then (and_then (query_range Z.add true 1 3 sum_5_updated)
                         (query_range Z.add true 0 0))
               (query_range Z.add true 4 4)) = inr (Some 5).
Proof. repeat split; vm_compute; reflexivity. Qed.

(** ** Where the code departs from the specification *)

(** C1 fails on the code.  Minima over [5,3,8,1,9], [update(assign 0, 3)],
    then [query(0, 4)]: the tree with lazy propagation answers 1; the tree
    without lazy propagation, updated as the specification words it,
    answers 0; and the source's own update without lazy propagation ends in
    [static_assert(false, "Invalid updater type")]. *)
Theorem lazy_and_eager_disagree :
  result (and_then (and_then (min_tree true [5; 3; 8; 1; 9])
                      (update Z.min true assign_0 3))
            (query_range Z.min true 0 4)) = inr (Some 1)
  /\ result (and_then (and_then (min_tree false [5; 3; 8; 1; 9])
                         (spec_update_range Z.min (updater_call assign_0) 3 3))
               (query_range Z.min false 0 4)) = inr (Some 0)
  /\ result (and_then (min_tree false [5; 3; 8; 1; 9])
               (update Z.min false assign_0 3)) = inl InvalidUpdaterType.
Proof. repeat split; vm_compute; reflexivity. Qed.

(** C2 fails on the code.  Sums over [1,2,3,4,5] with lazy propagation,
    after [update(add 10, 1, 3)]: [query(0, 4)] returns 15, while
    [query(0)], ..., [query(4)] return 1, 12, 13, 14, 5, whose combine is
    45; and [query(0, 4)] still returns 15 after those five queries. *)
Theorem query_range_is_not_the_combine_of_positions :
  result (query_range Z.add true 0 4 sum_5_updated) = inr (Some 15)
  /\ result (query_each Z.add true [0; 1; 2; 3; 4] sum_5_updated)
     = inr [Some 1; Some 12; Some 13; Some 14; Some 5]
  /\ combine_results Z.add [Some 1; Some 12; Some 13; Some 14; Some 5]
     = Some 45
  /\ result (and_then (query_each Z.add true [0; 1; 2; 3; 4] sum_5_updated)
               (query_range Z.add true 0 4)) = inr (Some 15).
Proof. repeat split; vm_compute; reflexivity. Qed.

(** C3 fails on the code.  Minima over [5,3,8,1,9] with lazy propagation,
    after the completed operation [update(assign 0, 3)]: the root's queue is
    empty and the root holds 1, but once every pending task has been pushed
    down the positions hold 5, 3, 8, 0, 9, whose combine is 0. *)
Theorem empty_queue_node_is_stale :
  lazyTasks min_5_updated !! 1%nat = Some []
  /\ data min_5_updated !! 1%nat = Some (Some 1)
  /\ map (position_value min_5_updated) [0; 1; 2; 3; 4]
     = [Some 5; Some 3; Some 8; Some 0; Some 9]
  /\ result (query_each Z.min true [0; 1; 2; 3; 4] min_5_updated)
     = inr [Some 5; Some 3; Some 8; Some 0; Some 9]
  /\ combine_results Z.min [Some 5; Some 3; Some 8; Some 0; Some 9] = Some 0.
Proof. repeat split; vm_compute; reflexivity. Qed.

(** C4 fails on the code.  A tree over the single element [7]: its root,
    node 1, is a leaf.  After [update(add 10, 0)] the push-down at that leaf
    (with [tree_left = tree_right = 0]) applies the task, clears the leaf's
    queue and appends a copy to the queues at positions 2 and 3. *)
Theorem pushdown_forwards_from_a_leaf :
  let s := tree_of (and_then (sum_tree true [7]) (update Z.add true add_10 0)) in
  let s' := tree_of (_execute_lazy_tasks_and_pushdown 1 0 0 s) in
  map length (lazyTasks s) = [0; 1; 0; 0; 0]%nat
  /\ result (_execute_lazy_tasks_and_pushdown 1 0 0 s) = inr tt
  /\ data s' !! 1%nat = Some (Some 17)
  /\ map length (lazyTasks s') = [0; 0; 1; 1; 0]%nat.
Proof. repeat split; vm_compute; reflexivity. Qed.

(** C5 fails on the code.  With N = 6 both vectors have 4 * 6 + 1 = 25
    entries and position 4 is the leaf at node 13.  After
    [update(add 10, 4)], [query(4)] pushes the task down at node 13 and
    indexes [lazyTasks[26]]. *)
Theorem pushdown_indexes_past_capacity :
  _get_segtree_size 6 = 25
  /\ len (lazyTasks (sum_6 true)) = 25
  /\ result (update Z.add true add_10 4 (sum_6 true)) = inr tt
  /\ result (and_then (update Z.add true add_10 4 (sum_6 true))
               (query Z.add true 4))
     = inl (OutOfBounds vec_lazyTasks 26 25).
Proof. repeat split; vm_compute; reflexivity. Qed.

(** C6 fails on the code at N = 0.  [size - 1] wraps to 2^64 - 1, the build
    descends over [0, 2^64 - 1] and, 64 levels down, reads [input_data[0]]
    of an empty vector; with or without lazy propagation. *)
Theorem construct_size_zero_faults :
  wrap (0 - 1) = size_t_max
  /\ result (SegmentTree_size (fun b : Z => b) Z.add 0 true 0)
     = inl (OutOfBounds vec_input_data 0 0)
  /\ result (SegmentTree_size (fun b : Z => b) Z.add 0 false 0)
     = inl (OutOfBounds vec_input_data 0 0).
Proof. repeat split; vm_compute; reflexivity. Qed.

(** C7 fails on the code.  Sums over [1,2,3] without lazy propagation: an
    update with a range-style updater over [0, 2], and one with a
    point-style updater at position 1, both end in the
    [static_assert(false, "Invalid updater type")] branch of
    [_update_rebuild_tree]; no node receives the updater. *)
Theorem eager_update_is_rejected :
  result (and_then (sum_tree false [1; 2; 3])
            (update_range Z.add false add_10_each 0 2))
  = inl InvalidUpdaterType
  /\ result (and_then (sum_tree false [1; 2; 3])
               (update Z.add false add_10 1))
     = inl InvalidUpdaterType.
Proof. repeat split; vm_compute; reflexivity. Qed.

(** C8 fails on the code.  Sums over [1,2,3,4,5,6] with lazy propagation:
    [query(3)] returns 4; [update(add 10, 4)] completes; the next
    [query(3)] visits node 13 (position 4, outside the query), pushes its
    task down and indexes [lazyTasks[26]] in a vector of 25. *)
Theorem update_breaks_query_outside_its_range :
  result (query Z.add true 3 (sum_6 true)) = inr (Some 4)
  /\ result (update Z.add true add_10 4 (sum_6 true)) = inr tt
  /\ result (and_then (update Z.add true add_10 4 (sum_6 true))
               (query Z.add true 3))
     = inl (OutOfBounds vec_lazyTasks 26 25).
Proof. repeat split; vm_compute; reflexivity. Qed.

(** C9 fails on the code.  Sums over [1,2,3,4,5,6] with lazy propagation,
    after the completed [update(add 10, 4)]: the range [4, 4] is valid, yet
    the first [query(4, 4)] returns nothing.  It pushes the task of node 13
    (position 4) down and indexes [lazyTasks[26]] in a vector of 25, so
    there are no two results to compare; the same holds for
    [query(4, 5)]. *)
Theorem query_range_returns_nothing_to_repeat :
  size (tree_of (update Z.add true add_10 4 (sum_6 true))) = 6
  /\ result (update Z.add true add_10 4 (sum_6 true)) = inr tt
  /\ result (and_then (update Z.add true add_10 4 (sum_6 true))
               (query_range Z.add true 4 4))
     = inl (OutOfBounds vec_lazyTasks 26 25)
  /\ result (and_then (update Z.add true add_10 4 (sum_6 true))
               (query_range Z.add true 4 5))
     = inl (OutOfBounds vec_lazyTasks 26 25).
Proof. repeat split; vm_compute; reflexivity. Qed.
